(** * Smart-renovation estimate engine: embedding and verification

    The pricing functions of [estimator.py] and the quote flow of
    [main.py] (method [generate_estimate]) compute on Python [float]s,
    that is IEEE 754 binary64 numbers, and on unbounded Python [int]s.
    The embedding keeps both: a [float] is a [spec_float] of the standard
    library, every arithmetic operation is the exact rational result
    rounded to the nearest binary64 (ties to even), and [int] is [Z].
    Python exceptions are values of an error monad. *)

From Stdlib Require Import ZArith QArith Qround Qabs Qpower Lia Lqa Bool List.
From Stdlib Require Import String Ascii DecimalString.
From Stdlib Require Import Floats.SpecFloat.
Import ListNotations.

(* ===================================================================== *)
(** * Exceptions *)
(* ===================================================================== *)

Inductive exn : Set := ZeroDivisionError | OverflowError | ValueError.

Inductive result (A : Type) : Type :=
| Ok (a : A)
| Raise (e : exn).

Arguments Ok {A} a.
Arguments Raise {A} e.

Definition bind {A B : Type} (r : result A) (k : A -> result B) : result B :=
  match r with
  | Ok a => k a
  | Raise e => Raise e
  end.

Notation "x <- c ;; k" := (bind c (fun x => k))
  (at level 61, c at next level, right associativity).
Notation "' p <- c ;; k" := (bind c (fun p => k))
  (at level 61, p pattern, c at next level, right associativity).

(* ===================================================================== *)
(** * Binary64 arithmetic *)
(* ===================================================================== *)

Module B64.

Definition float : Set := spec_float.

(** Every finite binary64 is an integer multiple of [2^-1074]; [U] is the
    number of such units in 1. *)
Definition U : Z := 2 ^ 1074.

(** Round a rational to the nearest integer, ties to even. *)
Definition Qrne (q : Q) : Z :=
  let f := Qfloor q in
  match (q - inject_Z f ?= 1 # 2)%Q with
  | Lt => f
  | Gt => (f + 1)%Z
  | Eq => if Z.even f then f else (f + 1)%Z
  end.

(** Exponent, in units, of the binade holding a magnitude whose integer
    part is [fl]: subnormals and the first normal binade have spacing one
    unit, every later binade doubles it. *)
Definition binade (fl : Z) : Z :=
  if (fl <? 2 ^ 53)%Z then 0%Z else (Z.log2 fl - 52)%Z.

(** Nearest binary64 magnitude, in units, of a magnitude [x] in units. *)
Definition round_units (x : Q) : Z :=
  let k := binade (Qfloor x) in
  (Qrne (x / inject_Z (2 ^ k)) * 2 ^ k)%Z.

(** The float of sign [s] whose magnitude is [M] units; magnitudes from
    [2^1024] on overflow to infinity. *)
Definition decode (s : bool) (M : Z) : float :=
  if (M =? 0)%Z then S754_zero s
  else if (2 ^ 2098 <=? M)%Z then S754_infinity s
  else let k := binade M in
       S754_finite s (Z.to_pos (M / 2 ^ k)) (k - 1074).

(** Rounding of a magnitude [q >= 0] carrying sign [s]. *)
Definition rnd_sm (s : bool) (q : Q) : float :=
  decode s (round_units (q * inject_Z U)).

(** Rounding of a signed rational; an exact zero takes the sign [s0]. *)
Definition rnd (s0 : bool) (q : Q) : float :=
  match (q ?= 0)%Q with
  | Eq => S754_zero s0
  | Gt => rnd_sm false q
  | Lt => rnd_sm true (- q)
  end.

Definition sign (x : float) : bool :=
  match x with
  | S754_zero s | S754_infinity s | S754_finite s _ _ => s
  | S754_nan => false
  end.

Definition mag (x : float) : Q :=
  match x with
  | S754_finite _ m e => (inject_Z (Zpos m) * 2 ^ e)%Q
  | _ => 0%Q
  end.

(** Exact value of a finite float (0 for the others). *)
Definition F2Q (x : float) : Q := if sign x then (- mag x)%Q else mag x.

Definition zero : float := S754_zero false.

Definition opp (x : float) : float :=
  match x with
  | S754_nan => S754_nan
  | S754_infinity s => S754_infinity (negb s)
  | S754_zero s => S754_zero (negb s)
  | S754_finite s m e => S754_finite (negb s) m e
  end.

Definition add (x y : float) : float :=
  match x, y with
  | S754_nan, _ | _, S754_nan => S754_nan
  | S754_infinity sx, S754_infinity sy =>
      if Bool.eqb sx sy then x else S754_nan
  | S754_infinity _, _ => x
  | _, S754_infinity _ => y
  | S754_zero sx, S754_zero sy => S754_zero (sx && sy)
  | _, _ => rnd false (F2Q x + F2Q y)
  end.

Definition sub (x y : float) : float := add x (opp y).

Definition mul (x y : float) : float :=
  match x, y with
  | S754_nan, _ | _, S754_nan => S754_nan
  | S754_infinity _, S754_zero _ | S754_zero _, S754_infinity _ => S754_nan
  | S754_infinity _, _ | _, S754_infinity _ =>
      S754_infinity (xorb (sign x) (sign y))
  | _, _ => rnd (xorb (sign x) (sign y)) (F2Q x * F2Q y)
  end.

Definition div (x y : float) : float :=
  match x, y with
  | S754_nan, _ | _, S754_nan => S754_nan
  | S754_infinity _, S754_infinity _ => S754_nan
  | S754_infinity _, _ => S754_infinity (xorb (sign x) (sign y))
  | _, S754_infinity _ => S754_zero (xorb (sign x) (sign y))
  | S754_zero _, S754_zero _ => S754_nan
  | _, S754_zero _ => S754_infinity (xorb (sign x) (sign y))
  | _, _ => rnd (xorb (sign x) (sign y)) (F2Q x / F2Q y)
  end.

Definition compare (x y : float) : option comparison :=
  match x, y with
  | S754_nan, _ | _, S754_nan => None
  | S754_infinity sx, S754_infinity sy =>
      Some (if sx then (if sy then Eq else Lt) else (if sy then Gt else Eq))
  | S754_infinity s, _ => Some (if s then Lt else Gt)
  | _, S754_infinity s => Some (if s then Gt else Lt)
  | _, _ => Some (F2Q x ?= F2Q y)%Q
  end.

Definition eqb (x y : float) : bool :=
  match compare x y with Some Eq => true | _ => false end.
Definition ltb (x y : float) : bool :=
  match compare x y with Some Lt => true | _ => false end.
Definition leb (x y : float) : bool :=
  match compare x y with Some (Lt | Eq) => true | _ => false end.

End B64.

(* ===================================================================== *)
(** * Python builtins used by the program *)
(* ===================================================================== *)

Module Py.
Import B64.

(** A decimal literal [n/d] of the source, e.g. [0.1] is [dec 1 10]. *)
Definition dec (n : Z) (d : positive) : float := rnd false (n # d).

(** [float(z)] and the implicit conversion of an [int] operand. *)
Definition float_of_int (z : Z) : result float :=
  match rnd false (inject_Z z) with
  | S754_infinity _ => Raise OverflowError
  | f => Ok f
  end.

(** [int(x)]: truncation toward zero. *)
Definition int_of_float (x : float) : result Z :=
  match x with
  | S754_nan => Raise ValueError
  | S754_infinity _ => Raise OverflowError
  | S754_zero _ => Ok 0%Z
  | S754_finite s _ _ =>
      let t := Qfloor (mag x) in Ok (if s then (- t)%Z else t)
  end.

(** [x / y] on floats. *)
Definition truediv (x y : float) : result float :=
  if eqb y zero then Raise ZeroDivisionError else Ok (div x y).

(** [round(x, 2)]: the exact value of [x] is rounded, ties to even, to a
    decimal with two fractional digits, which is then read back as the
    nearest float; the sign of [x] is kept, zeros, infinities and NaN
    round to themselves. *)
Definition round2 (x : float) : float :=
  match x with
  | S754_finite s _ _ => rnd_sm s (inject_Z (Qrne (100 * mag x)) / 100)
  | _ => x
  end.

(** C truth value of a double: nonzero, NaN included. *)
Definition truthy (x : float) : bool := negb (eqb x zero).

Definition copysign_zero (x : float) : float := S754_zero (sign x).

(** C [fmod]: exact, with the sign of [x]. *)
Definition fmod (x y : float) : float :=
  match x, y with
  | S754_nan, _ | _, S754_nan => S754_nan
  | S754_infinity _, _ => S754_nan
  | _, S754_zero _ => S754_nan
  | S754_zero _, _ => x
  | _, S754_infinity _ => x
  | S754_finite sx _ _, S754_finite _ _ _ =>
      rnd_sm sx (mag x - inject_Z (Qfloor (mag x / mag y)) * mag y)
  end.

(** C [floor]. *)
Definition floor (x : float) : float :=
  match x with
  | S754_finite s _ _ => rnd s (inject_Z (Qfloor (F2Q x)))
  | _ => x
  end.

Definition one : float := dec 1 1.
Definition half : float := dec 1 2.

(** The quotient and remainder computed by CPython for floats
    ([_float_div_mod] of floatobject.c), for a divisor that is not zero. *)
Definition float_div_mod (vx wx : float) : float * float :=
  let mod0 := fmod vx wx in
  let div0 := div (sub vx mod0) wx in
  let '(md, dv) :=
    if truthy mod0 then
      if xorb (ltb wx zero) (ltb mod0 zero)
      then (add mod0 wx, sub div0 one)
      else (mod0, div0)
    else (copysign_zero wx, div0) in
  let floordiv :=
    if truthy dv then
      let fd := floor dv in
      if ltb half (sub dv fd) then add fd one else fd
    else copysign_zero (div vx wx) in
  (floordiv, md).

(** [x // y] on floats. *)
Definition floordiv (x y : float) : result float :=
  if eqb y zero then Raise ZeroDivisionError
  else Ok (fst (float_div_mod x y)).

(** [x % y] on floats ([float_rem] of floatobject.c). *)
Definition mod_ (x y : float) : result float :=
  if eqb y zero then Raise ZeroDivisionError
  else
    let m := fmod x y in
    Ok (if truthy m then
          if xorb (ltb y zero) (ltb m zero) then add m y else m
        else copysign_zero y).

(** [z * x] with an [int] on the left. *)
Definition int_mul (z : Z) (x : float) : result float :=
  f <- float_of_int z ;; Ok (mul f x).

(** [str(z)] for an [int]. *)
Definition str (z : Z) : string := NilZero.string_of_int (Z.to_int z).

(** [s.lower()] on the ASCII range, which holds every service name of the
    spinner; other bytes are left as they are. *)
Definition lower_ascii (c : ascii) : ascii :=
  let n := nat_of_ascii c in
  if ((65 <=? n) && (n <=? 90))%nat then ascii_of_nat (n + 32) else c.

Fixpoint lower (s : string) : string :=
  match s with
  | EmptyString => EmptyString
  | String c r => String (lower_ascii c) (lower r)
  end.

(** [sub in s] for strings. *)
Fixpoint contains (sub s : string) : bool :=
  if prefix sub s then true
  else match s with
       | EmptyString => false
       | String _ r => contains sub r
       end.

(** [sep.join(l)]. *)
Fixpoint join (sep : string) (l : list string) : string :=
  match l with
  | [] => EmptyString
  | [x] => x
  | x :: r => (x ++ sep ++ join sep r)%string
  end.

(** An insertion-ordered [dict] with string keys. *)
Definition dict (V : Type) : Type := list (string * V).

Fixpoint dict_set {V : Type} (k : string) (v : V) (d : dict V) : dict V :=
  match d with
  | [] => [(k, v)]
  | (k', v') :: r =>
      if String.eqb k k' then (k, v) :: r else (k', v') :: dict_set k v r
  end.

Fixpoint dict_get {V : Type} (k : string) (default : V) (d : dict V) : V :=
  match d with
  | [] => default
  | (k', v') :: r => if String.eqb k k' then v' else dict_get k default r
  end.

End Py.

(* ===================================================================== *)
(** * estimator.py *)
(* ===================================================================== *)

Module Estimator.
Import B64 Py.

(** [paint_estimate(wall_area_m2, coverage, coats, wastage, price_per_litre)] *)
Definition paint_estimate_with (wall_area_m2 coverage : float) (coats : Z)
    (wastage price_per_litre : float) : result (float * float) :=
  if leb wall_area_m2 zero then Ok (zero, zero)
  else
    a <- truediv wall_area_m2 coverage ;;
    c <- float_of_int coats ;;
    let litres := mul (mul a c) (add one wastage) in
    let material_cost := mul litres price_per_litre in
    Ok (round2 litres, round2 material_cost).

(** The call with the defaults
    [coverage=10.0, coats=2, wastage=0.1, price_per_litre=250.0]. *)
Definition paint_estimate (wall_area_m2 : float) : result (float * float) :=
  paint_estimate_with wall_area_m2 (dec 10 1) 2 (dec 1 10) (dec 250 1).

(** [tiles_estimate(floor_area_m2, wastage, rate_per_m2)] *)
Definition tiles_estimate_with (floor_area_m2 wastage rate_per_m2 : float)
    : result (float * float) :=
  if leb floor_area_m2 zero then Ok (zero, zero)
  else
    let qty := mul floor_area_m2 (add one wastage) in
    let cost := mul qty rate_per_m2 in
    Ok (round2 qty, round2 cost).

(** Defaults [wastage=0.05, rate_per_m2=600.0]. *)
Definition tiles_estimate (floor_area_m2 : float) : result (float * float) :=
  tiles_estimate_with floor_area_m2 (dec 5 100) (dec 600 1).

(** [plumbing_estimate(num_points, base_charge, per_point)] *)
Definition plumbing_estimate_with (num_points : Z) (base_charge per_point : float)
    : result float :=
  if (num_points <=? 0)%Z then Ok zero
  else
    p <- int_mul num_points per_point ;;
    let total := add base_charge p in
    Ok (round2 total).

(** Defaults [base_charge=500.0, per_point=300.0]. *)
Definition plumbing_estimate (num_points : Z) : result float :=
  plumbing_estimate_with num_points (dec 500 1) (dec 300 1).

(** [generic_labour(area_m2, labour_rate_per_m2)]; the callers pass the
    rate as [30.0], [50] or [80], each of which is exact as a float. *)
Definition generic_labour_with (area_m2 labour_rate_per_m2 : float)
    : result float :=
  if leb area_m2 zero then Ok zero
  else Ok (round2 (mul area_m2 labour_rate_per_m2)).

(** Default [labour_rate_per_m2=30.0]. *)
Definition generic_labour (area_m2 : float) : result float :=
  generic_labour_with area_m2 (dec 30 1).

End Estimator.

(* ===================================================================== *)
(** * main.py: [generate_estimate] *)
(* ===================================================================== *)

Module Main.
Import B64 Py Estimator.

(** One entry of [breakdown]; each constructor stands for one f-string of
    the source and holds the values it interpolates. *)
Inductive line : Set :=
| Title (name : string)                      (* "[b]{name}[/b]" *)
| PaintMaterial (litres mat_cost : float)    (* "Material: {litres} L paint -> {mat_cost:.2f}" *)
| TilesMaterial (qty_m2 mat_cost : float)    (* "Material: {qty_m2} m2 tiles (incl. wastage) -> {mat_cost:.2f}" *)
| LabourLine (labour : float)                (* "Labour: {labour:.2f}" *)
| PointsLine (n : Z)                         (* "Points: {max(points,1)}" *)
| TotalLine (pl_cost : float)                (* "Total: {pl_cost:.2f}" *)
| MaterialEst (material : float).            (* "Material est: {material:.2f}" *)

(** The dictionary [material_qty]; every branch stores exactly one key. *)
Inductive qty : Set :=
| paint_litres (v : float)
| tiles_m2 (v : float)
| plumbing_points (n : Z)
| generic_area (v : float).

(** Local variables of [generate_estimate] after the pricing branch. *)
Record priced : Set := {
  breakdown : list line;
  total : float;
  material_qty : qty
}.

(** Lines 808-814: the body of the [if 'paint' in s] branch. *)
Definition price_painting (area : float) : result priced :=
  '(litres, mat_cost) <- paint_estimate area ;;
  labour <- generic_labour area ;;
  Ok {| breakdown := [Title "Painting"; PaintMaterial litres mat_cost;
                      LabourLine labour];
        total := add mat_cost labour;
        material_qty := paint_litres litres |}.

(** Lines 816-822: the body of the [elif 'tile' in s] branch. *)
Definition price_tiles (area : float) : result priced :=
  '(qty_m2, mat_cost) <- tiles_estimate area ;;
  labour <- generic_labour_with area (dec 50 1) ;;
  Ok {| breakdown := [Title "Tiling"; TilesMaterial qty_m2 mat_cost;
                      LabourLine labour];
        total := add mat_cost labour;
        material_qty := tiles_m2 qty_m2 |}.

(** Lines 824-829: the body of the [elif 'plumb' in s] branch. *)
Definition price_plumbing (points : Z) : result priced :=
  pl_cost <- plumbing_estimate (if (points >? 0)%Z then points else 1%Z) ;;
  Ok {| breakdown := [Title "Plumbing"; PointsLine (Z.max points 1);
                      TotalLine pl_cost];
        total := pl_cost;
        material_qty := plumbing_points (Z.max points 1) |}.

(** Lines 831-837: the body of the [else] branch. *)
Definition price_generic (svc : string) (area : float) : result priced :=
  labour <- generic_labour_with area (dec 80 1) ;;
  let material := mul area (dec 150 1) in
  Ok {| breakdown := [Title svc; MaterialEst material; LabourLine labour];
        total := add labour material;
        material_qty := generic_area area |}.

(** Lines 804-837: the pricing branch chosen from the service name. *)
Definition price (svc : string) (area : float) (points : Z) : result priced :=
  let s := lower svc in
  if contains "paint" s then price_painting area
  else if contains "tile" s then price_tiles area
  else if contains "plumb" s then price_plumbing points
  else price_generic svc area.

(** The fields of [self.last_estimate] that are computed (the time stamp
    and the image path are left out). *)
Record estimate : Set := {
  e_service : string;
  e_area : float;
  e_points : Z;
  e_total : float;
  e_breakdown : list line
}.

(** Lines 839-847. *)
Definition store (svc : string) (area : float) (points : Z) (p : priced)
    : estimate :=
  {| e_service := svc; e_area := area; e_points := points;
     e_total := round2 (total p); e_breakdown := breakdown p |}.

(** Lines 888-895: the loop over the can sizes, then the residue can.
    [cans] keeps insertion order, as a Python dict does. *)
Definition pack_step (st : float * dict Z) (size : float)
    : result (float * dict Z) :=
  let '(needed, cans) := st in
  q <- floordiv needed size ;;
  cnt <- int_of_float q ;;
  if (cnt >? 0)%Z then
    k <- int_of_float size ;;
    c <- int_mul cnt size ;;
    Ok (round2 (sub needed c), dict_set (str k ++ "L") cnt cans)
  else Ok (needed, cans).

Fixpoint pack_loop (sizes : list float) (st : float * dict Z)
    : result (float * dict Z) :=
  match sizes with
  | [] => Ok st
  | size :: rest => st' <- pack_step st size ;; pack_loop rest st'
  end.

Definition can_sizes : list float := [dec 10 1; dec 4 1; dec 1 1].

Definition paint_cans (litres : float) : result (dict Z) :=
  '(needed, cans) <- pack_loop can_sizes (litres, []) ;;
  Ok (if ltb zero needed
      then dict_set "1L" (dict_get "1L" 0%Z cans + 1)%Z cans
      else cans).

(** [", ".join([f"{v}×{k}" for k,v in cans.items()])] *)
Definition paint_parts (cans : dict Z) : string :=
  join ", " (map (fun '(k, v) => (str v ++ "×" ++ k)%string) cans).

(** The text [mat_text]; each constructor stands for one f-string. *)
Inductive suggestion : Set :=
| ModelSuggestion (text : string)
| NoPaint                     (* "Material suggestion: No paint required for 0 area." *)
| PaintPurchase (parts : option string) (litres : float)
    (* "Purchase suggestion (paint): {parts}  (approx. {litres} L required)";
       [None] when [cans] is empty and [parts] is "{litres} L" *)
| NoTiles                     (* "Material suggestion: No tiles required for 0 area." *)
| TilesPurchase (boxes : Z) (covered sqm : float)
    (* "Purchase suggestion (tiles): {boxes} boxes (covering ~{covered} m2)
        for required {sqm} m2" *)
| PlumbingPurchase (pts : Z)
| GenericMaterial (area_generic : float).

Definition box_cover : float := dec 12 10.

(** Lines 898-907 for [sqm > 0]. *)
Definition tiles_boxes (sqm : float) : result (Z * float) :=
  q <- floordiv sqm box_cover ;;
  boxes0 <- int_of_float q ;;
  r <- mod_ sqm box_cover ;;
  let boxes := if ltb zero r then (boxes0 + 1)%Z else boxes0 in
  c <- int_mul boxes box_cover ;;
  Ok (boxes, round2 c).

(** Lines 881-913, entered when no material model produced a text. *)
Definition purchase_suggestion (s : string) (mq : qty) : result suggestion :=
  if contains "paint" s then
    let litres := match mq with paint_litres v => v | _ => zero end in
    if leb litres zero then Ok NoPaint
    else
      cans <- paint_cans litres ;;
      Ok (PaintPurchase
            (match cans with [] => None | _ => Some (paint_parts cans) end)
            litres)
  else if contains "tile" s then
    let sqm := match mq with tiles_m2 v => v | _ => zero end in
    if leb sqm zero then Ok NoTiles
    else
      '(boxes, covered) <- tiles_boxes sqm ;;
      Ok (TilesPurchase boxes covered sqm)
  else if contains "plumb" s then
    Ok (PlumbingPurchase
          (match mq with plumbing_points n => n | _ => 1%Z end))
  else
    Ok (GenericMaterial (match mq with generic_area v => v | _ => zero end)).

(** What the quote screen receives. *)
Record quote : Set := {
  q_breakdown : list line;
  q_mat_text : suggestion;
  q_total : float
}.

(** Line 789: the placeholder of the spinner counts as Painting. *)
Definition chosen_service (text : string) : string :=
  if ((text =? "") || (text =? "Select Service"))%string
  then "Painting" else text.

(** [generate_estimate] on the parsed inputs.  [model_text] is the text of
    the optional material model, empty when there is none.  The first
    component is [self.last_estimate] as the call leaves it when it was
    reached, the second the outcome of the call. *)
Definition generate_estimate (text : string) (area : float) (points : Z)
    (model_text : string) : option estimate * result quote :=
  let svc := chosen_service text in
  match price svc area points with
  | Raise e => (None, Raise e)
  | Ok p =>
      let last := store svc area points p in
      (Some last,
       mat_text <- (if (model_text =? "")%string
                    then purchase_suggestion (lower svc) (material_qty p)
                    else Ok (ModelSuggestion model_text)) ;;
       Ok {| q_breakdown := breakdown p; q_mat_text := mat_text;
             q_total := total p |})
  end.

(** The amounts shown in a breakdown. *)
Fixpoint material_cost (b : list line) : option float :=
  match b with
  | [] => None
  | PaintMaterial _ c :: _ | TilesMaterial _ c :: _ | MaterialEst c :: _ => Some c
  | _ :: r => material_cost r
  end.

Fixpoint labour_cost (b : list line) : option float :=
  match b with
  | [] => None
  | LabourLine l :: _ => Some l
  | _ :: r => labour_cost r
  end.

End Main.

(* ===================================================================== *)
(** * main.py: the estimators used when estimator.py cannot be imported *)
(* ===================================================================== *)

Module Fallback.
Import B64 Py.

(** Lines 73-77. *)
Definition paint_estimate (area coverage : float) (coats : Z)
    (wastage price_per_litre : float) : result (float * float) :=
  if leb area zero then Ok (zero, zero)
  else
    a <- truediv area coverage ;;
    c <- float_of_int coats ;;
    let litres := mul (mul a c) (add one wastage) in
    Ok (round2 litres, round2 (mul litres price_per_litre)).

(** Lines 79-83. *)
Definition tiles_estimate (area wastage rate_per_m2 : float)
    : result (float * float) :=
  if leb area zero then Ok (zero, zero)
  else
    let qty := mul area (add one wastage) in
    Ok (round2 qty, round2 (mul qty rate_per_m2)).

(** Lines 85-88. *)
Definition plumbing_estimate (points : Z) (base per_point : float)
    : result float :=
  if (points <=? 0)%Z then Ok zero
  else
    p <- int_mul points per_point ;;
    Ok (round2 (add base p)).

(** Lines 90-93. *)
Definition generic_labour (area labour_rate_per_m2 : float) : result float :=
  if leb area zero then Ok zero
  else Ok (round2 (mul area labour_rate_per_m2)).

End Fallback.

(* ===================================================================== *)
(** * main.py: the rows of the home gradient *)
(* ===================================================================== *)

Module Gradient.
Import B64 Py.

(** Lines 116-118: [int(top * (1 - t) + bot * t)] for one channel. *)
Definition channel (top bot : Z) (t : float) : result Z :=
  a <- int_mul top (sub one t) ;;
  b <- int_mul bot t ;;
  int_of_float (add a b).

(** Lines 114-118 of [ensure_home_gradient]: the colour of row [y] of an
    image of height [H], with [t = y / float(H - 1)]. *)
Definition row_color (H y : Z) (top_color bottom_color : Z * Z * Z)
    : result (Z * Z * Z) :=
  let '(top_r, top_g, top_b) := top_color in
  let '(bot_r, bot_g, bot_b) := bottom_color in
  h <- float_of_int (H - 1) ;;
  yf <- float_of_int y ;;
  t <- truediv yf h ;;
  r <- channel top_r bot_r t ;;
  g <- channel top_g bot_g t ;;
  b <- channel top_b bot_b t ;;
  Ok (r, g, b).

End Gradient.

(* ===================================================================== *)
(** * main.py: providers *)
(* ===================================================================== *)

Module Providers.
Import Py.
Local Open Scope string_scope.

(** A [str] of a provider or of the search box, as the sequence of its
    Unicode code points. *)
Definition text : Set := list N.

(** A literal of the source; its characters are ASCII. *)
Definition lit (s : string) : text :=
  map N_of_ascii (list_ascii_of_string s).

(** [str.isspace] of one character: the code points for which CPython's
    [_PyUnicode_IsWhitespace] answers true (tab to carriage return, the
    separators 0x1C-0x1F, the space, 0x85, 0xA0, 0x1680, 0x2000-0x200A,
    0x2028, 0x2029, 0x202F, 0x205F, 0x3000). *)
Definition isspace (c : N) : bool :=
  (((9 <=? c) && (c <=? 13)) || ((28 <=? c) && (c <=? 32))
   || (c =? 133) || (c =? 160) || (c =? 5760)
   || ((8192 <=? c) && (c <=? 8202))
   || (c =? 8232) || (c =? 8233) || (c =? 8239) || (c =? 8287)
   || (c =? 12288))%N.

Fixpoint lstrip (s : text) : text :=
  match s with
  | [] => []
  | c :: r => if isspace c then lstrip r else s
  end.

Fixpoint rstrip (s : text) : text :=
  match s with
  | [] => []
  | c :: r =>
      match rstrip r with
      | [] => if isspace c then [] else [c]
      | r' => c :: r'
      end
  end.

(** [s.strip()] *)
Definition strip (s : text) : text := rstrip (lstrip s).

(** [a == b] for two [str]. *)
Fixpoint text_eqb (a b : text) : bool :=
  match a, b with
  | [], [] => true
  | x :: a', y :: b' => (x =? y)%N && text_eqb a' b'
  | _, _ => false
  end.

Fixpoint startswith (s sub : text) : bool :=
  match sub, s with
  | [], _ => true
  | _ :: _, [] => false
  | x :: sub', y :: s' => (x =? y)%N && startswith s' sub'
  end.

(** [sub in s] for two [str]. *)
Fixpoint text_in (sub s : text) : bool :=
  if startswith s sub then true
  else match s with
       | [] => false
       | _ :: r => text_in sub r
       end.

(** The truth value of a [str]. *)
Definition nonempty (s : text) : bool :=
  match s with [] => false | _ => true end.

(** A provider of providers.json; [filter_providers] reads its
    string-valued keys [name] and [service] only. *)
Definition provider : Type := dict text.

Section Lower.

(** [str.lower].  Its case tables belong to the Unicode database of the
    interpreter, not to the repository, so the function is a parameter of
    what follows. *)
Variable lower : text -> text.

(** Lines 1049-1052: the body of the loop; [true] when [p] is appended to
    [filtered], [false] when one of the two tests continues the loop. *)
Definition shown (search_text filter_service : text) (p : provider) : bool :=
  let name := lower (dict_get "name" [] p) in
  let service := dict_get "service" [] p in
  if nonempty filter_service
     && negb (text_eqb filter_service (lit "All"))
     && negb (text_eqb service filter_service) then false
  else if nonempty search_text
          && negb (text_in search_text name)
          && negb (text_in search_text (lower service)) then false
  else true.

Fixpoint filter_loop (search_text filter_service : text)
    (cache filtered : list provider) : list provider :=
  match cache with
  | [] => filtered
  | p :: rest =>
      filter_loop search_text filter_service rest
        (if shown search_text filter_service p then (filtered ++ [p])%list
         else filtered)
  end.

(** Lines 1040-1052 of [filter_providers].  [cache] is
    [self._providers_cache] when the attribute exists, [file] the list read
    from providers.json when it can be read.  The result is the cache the
    call leaves and the providers whose cards are shown, in order. *)
Definition filter_providers (search_text filter_service : text)
    (cache file : option (list provider))
    : list provider * list provider :=
  let search_text := lower (strip search_text) in
  let cache := match cache with
               | Some c => c
               | None => match file with Some l => l | None => [] end
               end in
  (cache, filter_loop search_text filter_service cache []).

End Lower.

(** [SERVICE_COLORS_PIL], lines 646-654. *)
Definition SERVICE_COLORS_PIL : dict (Z * Z * Z * Z) :=
  [("Painting", (69, 133, 242, 255)); ("Plumbing", (0, 171, 171, 255));
   ("Tiles", (153, 102, 204, 255)); ("Carpentry", (217, 140, 51, 255));
   ("AC Service", (38, 166, 242, 255)); ("Renovation", (26, 179, 89, 255));
   ("Electrical", (255, 179, 0, 255))]%string%Z.

(** [k in d] for a dict. *)
Definition dict_mem {V : Type} (k : string) (d : dict V) : bool :=
  existsb (fun kv => (k =? fst kv)%string) d.

(** Line 955 of [get_provider_avatar]. *)
Definition svc_key (service : string) : string :=
  if dict_mem service SERVICE_COLORS_PIL then service else "Painting"%string.

(** Line 956: the file name of the avatar under the providers folder. *)
Definition avatar_file (pid service : string) : string :=
  (pid ++ "_" ++ svc_key service ++ ".png")%string.

(** Line 965: the fill colour of the avatar. *)
Definition avatar_color (service : string) : Z * Z * Z * Z :=
  dict_get (svc_key service) (80, 80, 80, 255)%Z SERVICE_COLORS_PIL.

End Providers.

(* ===================================================================== *)
(** * main.py: saving an estimate and the history *)
(* ===================================================================== *)

Module History.
Import B64 Py Main.
Local Open Scope string_scope.

(** [self.last_estimate] with its time stamp and image path. *)
Record last_estimate : Set := {
  le : estimate;
  le_time : string;
  le_image : string
}.

(** A row of the table [requests] (without its id). *)
Record request : Set := {
  r_service : string;
  r_details : list line;     (* the breakdown lines joined by newlines *)
  r_cost : option float;   (* [None] for NULL *)
  r_created_at : string;
  r_image : string
}.

(** A line of records.csv. *)
Inductive csv_line : Set :=
| Header        (* time, service, area, points, image, total *)
| Row (time service : string) (area : float) (points image : Z) (total : float).

(** The state [save_estimate] reads and writes: the attribute
    [last_estimate] ([None] before the first estimate), the rows of the
    table [requests] in the order of their ids, the lines of records.csv
    ([None] while the file does not exist), the selected image, the current
    screen and the popups shown so far.  The database and the file are
    taken to be writable. *)
Record app : Set := {
  a_last : option last_estimate;
  a_requests : list request;
  a_csv : option (list csv_line);
  a_current_image : string;
  a_current : string;
  a_popups : list (string * string)
}.

(** What sqlite3 keeps of a float bound to a column of type REAL: a NaN
    is stored as NULL, a zero is stored as the integer 0 and read back as
    [0.0], every other value is kept as it is. *)
Definition sql_real (x : float) : option float :=
  match x with
  | S754_nan => None
  | S754_zero _ => Some zero
  | _ => Some x
  end.

(** Lines 934-937: the inserted row. *)
Definition request_of (e : last_estimate) : request :=
  {| r_service := e_service (le e); r_details := e_breakdown (le e);
     r_cost := sql_real (e_total (le e)); r_created_at := le_time e;
     r_image := le_image e |}.

(** Lines 945-947: the appended line. *)
Definition row_of (e : last_estimate) : csv_line :=
  Row (le_time e) (e_service (le e)) (e_area (le e)) (e_points (le e))
      (if (le_image e =? "")%string then 0%Z else 1%Z) (e_total (le e)).

(** [save_estimate], lines 925-952. *)
Definition save_estimate (a : app) : app :=
  match a_last a with
  | None =>
      {| a_last := None; a_requests := a_requests a; a_csv := a_csv a;
         a_current_image := a_current_image a; a_current := a_current a;
         a_popups := (a_popups a
                      ++ [("No estimate", "Please generate an estimate first.")])%list |}
  | Some e =>
      {| a_last := Some e;
         a_requests := (a_requests a ++ [request_of e])%list;
         a_csv := Some (match a_csv a with
                        | None => [Header]
                        | Some lines => lines
                        end ++ [row_of e])%list;
         a_current_image := "";
         a_current := "history";
         a_popups := (a_popups a
                      ++ [("Saved", "Estimate saved to history.")])%list |}
  end.




End History.

(* ===================================================================== *)
(** * The specification's wording *)
(* ===================================================================== *)

Module Spec.
Import B64 Py Main.

(** The four categories of the dispatch rule. *)
Inductive ServiceKind : Set := Painting | Tiles | Plumbing | Generic.

(** "contains paint -> Painting; else contains tile -> Tiles; else
    contains plumb -> Plumbing; else -> Generic", on the lowercased name. *)
Definition dispatch (service : string) : ServiceKind :=
  let s := lower service in
  if contains "paint" s then Painting
  else if contains "tile" s then Tiles
  else if contains "plumb" s then Plumbing
  else Generic.

(** [litres = (area / 10.0) * 2 * (1 + 0.10)], [materialCost = litres * 250.0],
    both rounded to 2 decimals. *)
Definition paint_formula (area : float) : float * float :=
  let litres := mul (mul (div area (dec 10 1)) (dec 2 1))
                    (add (dec 1 1) (dec 10 100)) in
  (round2 litres, round2 (mul litres (dec 250 1))).

(** [qty = area * (1 + 0.05)], [materialCost = qty * 600.0], both rounded
    to 2 decimals. *)
Definition tiles_formula (area : float) : float * float :=
  let qty := mul area (add (dec 1 1) (dec 5 100)) in
  (round2 qty, round2 (mul qty (dec 600 1))).

(** A float is rounded to 2 decimals when [round(x, 2)] leaves it as it is. *)
Definition rounded2 (x : float) : Prop := round2 x = x.

(** The material quantity of a priced request, when it is a float. *)
Definition quantity (p : priced) : option float :=
  match material_qty p with
  | paint_litres v | tiles_m2 v | generic_area v => Some v
  | plumbing_points _ => None
  end.

Definition opt_list {A : Type} (o : option A) : list A :=
  match o with Some a => [a] | None => [] end.

(** The amounts one line of a breakdown interpolates. *)
Definition line_amounts (l : line) : list float :=
  match l with
  | PaintMaterial litres mat_cost => [litres; mat_cost]
  | TilesMaterial qty_m2 mat_cost => [qty_m2; mat_cost]
  | LabourLine labour => [labour]
  | TotalLine pl_cost => [pl_cost]
  | MaterialEst material => [material]
  | Title _ | PointsLine _ => []
  end.

(** "Every monetary and quantity field of the result": the material
    quantity of [material_qty], the amounts of the breakdown that is
    stored and the total that is stored in [last_estimate]. *)
Definition amounts (p : priced) (last : estimate) : list float :=
  opt_list (quantity p) ++ flat_map line_amounts (e_breakdown last)
  ++ [e_total last].

(** The 2-decimal rounding of an exact magnitude, as a float. *)
Definition round2_exact (q : Q) : float :=
  rnd_sm false (inject_Z (Qrne (100 * q)) / 100).

(** One size of the greedy packing in exact arithmetic:
    [count = floor(remaining / size)]; when positive it is recorded and
    [count * size] is subtracted, the remaining re-rounded to 2 decimals. *)
Definition greedy_step (st : float * dict Z) (size : Z) : float * dict Z :=
  let '(remaining, cans) := st in
  let count := Qfloor (F2Q remaining / inject_Z size) in
  if (count >? 0)%Z
  then (round2_exact (F2Q remaining - inject_Z (count * size)),
        dict_set (str size ++ "L") count cans)
  else (remaining, cans).

(** Sizes [10, 4, 1] largest first, then one more 1-litre can for a
    positive residue. *)
Definition greedy (litres : float) : dict Z :=
  let '(residue, cans) :=
    fold_left greedy_step [10; 4; 1]%Z (litres, []) in
  if Qlt_le_dec 0 (F2Q residue)
  then dict_set "1L" (dict_get "1L" 0%Z cans + 1)%Z cans
  else cans.

(** Litres held by the suggested cans. *)
Definition capacity (cans : dict Z) : Z :=
  (10 * dict_get "10L" 0 cans + 4 * dict_get "4L" 0 cans
   + dict_get "1L" 0 cans)%Z.

(** "contains": [sub] occurs in [s] as a contiguous block. *)
Definition is_substring (sub s : string) : Prop :=
  exists pre post, s = (pre ++ sub ++ post)%string.

(** The same for a [str] given by its code points. *)
Definition is_subtext (sub s : Providers.text) : Prop :=
  exists pre post, s = pre ++ sub ++ post.

(** [ceil(qty / 1.2)] on the exact value of [qty], a box covering
    exactly 1.2 square metres. *)
Definition boxes_needed (qty : float) : Z := Qceiling (F2Q qty / (12 # 10)).

End Spec.

(* ===================================================================== *)
(** * Vocabulary of the proofs *)
(* ===================================================================== *)

Import B64 Py Estimator Main.

Section Vocabulary.
Local Open Scope Q_scope.

(** [2^k] as a rational. *)
Definition p2 (k : Z) : Q := inject_Z (2 ^ k).

(** The mantissa chosen by [round_units]. *)
Definition mant (x : Q) : Z := Qrne (x / p2 (binade (Qfloor x))).

(** Magnitudes, in units, that a binary64 can hold: at most 53 significant
    bits. *)
Definition ongrid (M : Z) : Prop :=
  exists a j : Z, (0 <= a <= 2 ^ 53 /\ 0 <= j /\ M = a * 2 ^ j)%Z.

(** The number of units in 1, as a rational. *)
Definition QU : Q := inject_Z U.

(** The three shapes of a decoded magnitude. *)
Variant decoded (s : bool) (M : Z) : float -> Prop :=
| decoded_zero : M = 0%Z -> decoded s M (S754_zero s)
| decoded_inf : (2 ^ 2098 <= M)%Z -> decoded s M (S754_infinity s)
| decoded_fin (m : positive) (e : Z) :
    (0 < M < 2 ^ 2098)%Z ->
    inject_Z (Zpos m) * 2 ^ e == inject_Z M / QU ->
    decoded s M (S754_finite s m e).

(** Nonnegative floats: not NaN, sign bit clear. *)
Definition NN (x : float) : Prop := x <> S754_nan /\ sign x = false.

Definition isinf (x : float) : bool :=
  match x with S754_infinity _ => true | _ => false end.

(** A monotone map on magnitudes, applied to a nonnegative float. *)
Definition lift (g : Q -> Q) (x : float) : float :=
  match x with
  | S754_infinity _ => S754_infinity false
  | _ => rnd_sm false (g (mag x))
  end.

(** Positive finite floats, the constants of the estimators. *)
Definition pos_finite (c : float) : bool :=
  match c with S754_finite false _ _ => true | _ => false end.

(** The decimal with two fractional digits nearest to [q]. *)
Definition to_cents (q : Q) : Q := inject_Z (Qrne (100 * q)) / 100.

(** Componentwise order of two estimates, both of which are returned. *)
Definition pair_le (r1 r2 : result (float * float)) : Prop :=
  match r1, r2 with
  | Ok (q1, c1), Ok (q2, c2) => leb q1 q2 = true /\ leb c1 c2 = true
  | _, _ => False
  end.

(** The nonnegative float of magnitude [X] units. *)
Definition funits (X : Z) : float := decode false X.

(** The float of the integer [n]. *)
Definition fint (n : Z) : float := funits (n * U).

(** Magnitudes of finite floats. *)
Definition fin_units (X : Z) : Prop := ongrid X /\ (X < 2 ^ 2098)%Z.

(** The float nearest to [n] hundredths. *)
Definition cents (n : Z) : float := rnd_sm false (inject_Z n / 100).

(** Every entry of the cans dictionary is one of the three sizes, with a
    positive count. *)
Definition cans_ok (cans : dict Z) : Prop :=
  Forall (fun kv => In (fst kv) ["10L"; "4L"; "1L"]%string /\ (0 < snd kv)%Z)
         cans.

End Vocabulary.

(** Case analysis on floats and on the comparisons of their values. *)
Ltac by_cases :=
  repeat match goal with
         | x : float |- _ => destruct x as [[]|[]| |[] ? ?]
         end;
  unfold leb, ltb, eqb, compare in *; cbv iota in *;
  try discriminate; try reflexivity.

Ltac qcmp :=
  repeat match goal with
         | H : context [(?a ?= ?b)%Q] |- _ =>
             let C := fresh "C" in destruct (Qcompare_spec a b) as [C|C|C]
         | |- context [(?a ?= ?b)%Q] =>
             let C := fresh "C" in destruct (Qcompare_spec a b) as [C|C|C]
         end;
  try discriminate; try reflexivity; try (exfalso; lra).

(** Division by the constants 100 and 2 as multiplication, for [lra]. *)
Ltac qnorm :=
  unfold Qdiv in *;
  change (/ 100)%Q with (1 # 100)%Q in *; change (/ 2)%Q with (1 # 2)%Q in *.

(* ===================================================================== *)
(** * Rounding, order and exact arithmetic of floats *)
(* ===================================================================== *)

Section RoundToInteger.

Local Open Scope Q_scope.

Lemma Qrne_comp (a b : Q) : a == b -> Qrne a = Qrne b.
Proof.
  intros E. unfold Qrne. rewrite (Qfloor_comp _ _ E).
  assert (C : (a - inject_Z (Qfloor b) ?= 1 # 2) = (b - inject_Z (Qfloor b) ?= 1 # 2)).
  { apply Qcompare_comp; [rewrite E|]; reflexivity. }
  rewrite C. reflexivity.
Qed.

Lemma Qfloor_bounds (q : Q) :
  inject_Z (Qfloor q) <= q /\ q < inject_Z (Qfloor q) + 1.
Proof.
  split; [apply Qfloor_le|].
  pose proof (Qlt_floor q) as H. rewrite inject_Z_plus in H. exact H.
Qed.

Lemma Qrne_bounds (q : Q) :
  inject_Z (Qrne q) - (1 # 2) <= q /\ q <= inject_Z (Qrne q) + (1 # 2).
Proof.
  destruct (Qfloor_bounds q) as [L H]. unfold Qrne.
  destruct (Qcompare_spec (q - inject_Z (Qfloor q)) (1 # 2)) as [E|E|E];
    [destruct (Z.even (Qfloor q))|..];
    rewrite ?inject_Z_plus; change (inject_Z 1) with 1; split; lra.
Qed.

Lemma Qrne_unique (q : Q) (z : Z) :
  inject_Z z - (1 # 2) < q -> q < inject_Z z + (1 # 2) -> Qrne q = z.
Proof.
  intros L H. destruct (Qrne_bounds q) as [L' H'].
  assert (A : inject_Z (Qrne q) < inject_Z z + 1) by lra.
  assert (B : inject_Z z < inject_Z (Qrne q) + 1) by lra.
  change 1 with (inject_Z 1) in A, B.
  rewrite <- inject_Z_plus, <- Zlt_Qlt in A, B. lia.
Qed.

Lemma Qrne_Z (z : Z) : Qrne (inject_Z z) = z.
Proof. apply Qrne_unique; lra. Qed.

Lemma Qrne_mono (a b : Q) : a <= b -> (Qrne a <= Qrne b)%Z.
Proof.
  intros Hab. pose proof (Qfloor_resp_le _ _ Hab) as Hf.
  destruct (Qfloor_bounds a) as [La Ha], (Qfloor_bounds b) as [Lb Hb].
  destruct (Z.eq_dec (Qfloor a) (Qfloor b)) as [E|N].
  - unfold Qrne. rewrite E in *.
    destruct (Qcompare_spec (a - inject_Z (Qfloor b)) (1 # 2)),
             (Qcompare_spec (b - inject_Z (Qfloor b)) (1 # 2));
      try destruct (Z.even (Qfloor b)); try lia; exfalso; lra.
  - assert (Ua : (Qrne a <= Qfloor a + 1)%Z).
    { unfold Qrne. destruct (_ ?= _); [destruct (Z.even _)|..]; lia. }
    assert (Ub : (Qfloor b <= Qrne b)%Z).
    { unfold Qrne. destruct (_ ?= _); [destruct (Z.even _)|..]; lia. }
    lia.
Qed.

Lemma Qrne_nonneg (a : Q) : 0 <= a -> (0 <= Qrne a)%Z.
Proof. intros H. rewrite <- (Qrne_Z 0). apply Qrne_mono. exact H. Qed.

End RoundToInteger.

Section Binades.

Local Open Scope Z_scope.

Lemma pow2_pos (k : Z) : 0 <= k -> 0 < 2 ^ k.
Proof. intros. apply Z.pow_pos_nonneg; lia. Qed.

Lemma binade_nonneg (fl : Z) : 0 <= binade fl.
Proof.
  unfold binade. destruct (Z.ltb_spec fl (2 ^ 53)); [lia|].
  assert (53 <= Z.log2 fl).
  { change 53 with (Z.log2 (2 ^ 53)). apply Z.log2_le_mono. lia. }
  lia.
Qed.

Lemma binade_small (fl : Z) : fl < 2 ^ 53 -> binade fl = 0.
Proof. intros H. unfold binade. destruct (Z.ltb_spec fl (2 ^ 53)); lia. Qed.

Lemma binade_large (fl : Z) :
  2 ^ 53 <= fl ->
  1 <= binade fl /\ 2 ^ (52 + binade fl) <= fl < 2 ^ (53 + binade fl).
Proof.
  intros H. unfold binade. destruct (Z.ltb_spec fl (2 ^ 53)); [lia|].
  assert (L : 53 <= Z.log2 fl).
  { change 53 with (Z.log2 (2 ^ 53)). apply Z.log2_le_mono. lia. }
  assert (P : 0 < fl) by (pose proof (pow2_pos 53); lia).
  destruct (Z.log2_spec fl P) as [A B].
  replace (52 + (Z.log2 fl - 52)) with (Z.log2 fl) by lia.
  replace (53 + (Z.log2 fl - 52)) with (Z.succ (Z.log2 fl)) by lia.
  lia.
Qed.

Lemma binade_unique (fl k : Z) :
  1 <= k -> 2 ^ (52 + k) <= fl < 2 ^ (53 + k) -> binade fl = k.
Proof.
  intros Hk [A B].
  assert (L : Z.log2 fl = 52 + k).
  { apply Z.log2_unique; [lia|]. replace (Z.succ (52 + k)) with (53 + k) by lia. lia. }
  unfold binade. destruct (Z.ltb_spec fl (2 ^ 53)); [|lia].
  assert (2 ^ 53 <= 2 ^ (52 + k)) by (apply Z.pow_le_mono_r; lia). lia.
Qed.

Lemma binade_mono (a b : Z) : a <= b -> binade a <= binade b.
Proof.
  intros H. unfold binade.
  destruct (Z.ltb_spec a (2 ^ 53)), (Z.ltb_spec b (2 ^ 53)); try lia.
  - pose proof (binade_nonneg b) as N. unfold binade in N.
    destruct (Z.ltb_spec b (2 ^ 53)); lia.
  - pose proof (Z.log2_le_mono a b H). lia.
Qed.

End Binades.

Section RoundUnits.

Local Open Scope Q_scope.


Lemma p2_pos (k : Z) : (0 <= k)%Z -> 0 < p2 k.
Proof.
  intros H. unfold p2. change 0 with (inject_Z 0). rewrite <- Zlt_Qlt.
  apply pow2_pos, H.
Qed.

Lemma p2_add (a b : Z) : (0 <= a)%Z -> (0 <= b)%Z -> p2 (a + b) == p2 a * p2 b.
Proof.
  intros. unfold p2. rewrite Z.pow_add_r by assumption.
  rewrite inject_Z_mult. reflexivity.
Qed.

(** Scaling bounds by a power of two. *)
Lemma scale_bounds (x : Q) (k a b : Z) :
  (0 <= k)%Z ->
  inject_Z (a * 2 ^ k) <= x -> x < inject_Z (b * 2 ^ k) ->
  inject_Z a <= x / p2 k /\ x / p2 k < inject_Z b.
Proof.
  intros Hk A B. pose proof (p2_pos k Hk) as P.
  rewrite inject_Z_mult in A, B. fold (p2 k) in A, B. split.
  - apply Qle_shift_div_l; assumption.
  - apply Qlt_shift_div_r; assumption.
Qed.


Lemma round_units_eq (x : Q) :
  round_units x = (mant x * 2 ^ binade (Qfloor x))%Z.
Proof. reflexivity. Qed.

Lemma Qfloor_nonneg (x : Q) : 0 <= x -> (0 <= Qfloor x)%Z.
Proof. intros H. rewrite <- (Qfloor_Z 0). apply Qfloor_resp_le, H. Qed.

Lemma mant_range (x : Q) :
  0 <= x ->
  (binade (Qfloor x) = 0 /\ 0 <= mant x <= 2 ^ 53)%Z \/
  (1 <= binade (Qfloor x) /\ 2 ^ 52 <= mant x <= 2 ^ 53)%Z.
Proof.
  intros Hx. destruct (Qfloor_bounds x) as [L H].
  destruct (Z_lt_le_dec (Qfloor x) (2 ^ 53)) as [S|S].
  - left. unfold mant. rewrite (binade_small _ S). split; [reflexivity|].
    assert (E : x / p2 0 == x) by (unfold p2; simpl; field).
    rewrite (Qrne_comp _ _ E). split; [apply Qrne_nonneg, Hx|].
    rewrite <- (Qrne_Z (2 ^ 53)). apply Qrne_mono.
    assert (inject_Z (Qfloor x) + 1 <= inject_Z (2 ^ 53)).
    { change 1 with (inject_Z 1). rewrite <- inject_Z_plus, <- Zle_Qle. lia. }
    lra.
  - right. destruct (binade_large _ S) as (K & A & B). split; [exact K|].
    set (k := binade (Qfloor x)) in *.
    assert (Hk : (0 <= k)%Z) by lia.
    destruct (scale_bounds x k (2 ^ 52) (2 ^ 53) Hk) as [A' B'].
    + rewrite <- Z.pow_add_r by lia. apply Qle_trans with (2 := L).
      rewrite <- Zle_Qle. exact A.
    + rewrite <- Z.pow_add_r by lia. apply Qlt_le_trans with (1 := H).
      change 1 with (inject_Z 1). rewrite <- inject_Z_plus, <- Zle_Qle. lia.
    + unfold mant. fold k. split.
      * rewrite <- (Qrne_Z (2 ^ 52)). apply Qrne_mono, A'.
      * rewrite <- (Qrne_Z (2 ^ 53)). apply Qrne_mono, Qlt_le_weak, B'.
Qed.

Lemma round_units_nonneg (x : Q) : 0 <= x -> (0 <= round_units x)%Z.
Proof.
  intros Hx. rewrite round_units_eq.
  pose proof (binade_nonneg (Qfloor x)) as K. pose proof (pow2_pos _ K).
  destruct (mant_range x Hx) as [[_ M]|[_ M]]; nia.
Qed.

Lemma round_units_mono (x y : Q) :
  0 <= x -> x <= y -> (round_units x <= round_units y)%Z.
Proof.
  intros Hx Hxy. assert (Hy : 0 <= y) by lra.
  rewrite !round_units_eq.
  pose proof (binade_mono _ _ (Qfloor_resp_le _ _ Hxy)) as K.
  pose proof (binade_nonneg (Qfloor x)) as Kx.
  set (kx := binade (Qfloor x)) in *. set (ky := binade (Qfloor y)) in *.
  destruct (Z.eq_dec kx ky) as [E|N].
  - assert (M : (mant x <= mant y)%Z).
    { unfold mant. fold kx ky. rewrite E. apply Qrne_mono.
      pose proof (p2_pos ky ltac:(lia)).
      apply Qmult_le_compat_r; [exact Hxy|]. apply Qlt_le_weak, Qinv_lt_0_compat. assumption. }
    rewrite E. pose proof (pow2_pos ky ltac:(lia)). nia.
  - assert (Lt : (kx < ky)%Z) by lia.
    destruct (mant_range x Hx) as [[_ Mx]|[_ Mx]];
    (destruct (mant_range y Hy) as [[Ky My]|[Ky My]]; fold ky in Ky; [lia|]);
    fold kx in Mx.
    all: apply Z.le_trans with (2 ^ 53 * 2 ^ kx)%Z;
      [pose proof (pow2_pos kx Kx); nia|].
    all: apply Z.le_trans with (2 ^ 52 * 2 ^ ky)%Z;
      [|pose proof (pow2_pos ky ltac:(lia)); nia].
    all: rewrite <- !Z.pow_add_r by lia; apply Z.pow_le_mono_r; lia.
Qed.


Lemma round_units_ongrid (x : Q) : 0 <= x -> ongrid (round_units x).
Proof.
  intros Hx. exists (mant x), (binade (Qfloor x)).
  pose proof (binade_nonneg (Qfloor x)).
  destruct (mant_range x Hx) as [[_ M]|[_ M]]; rewrite round_units_eq; lia.
Qed.

(** On the grid, the binade's spacing divides the magnitude. *)
Lemma ongrid_divide (M : Z) :
  ongrid M -> (M = M / 2 ^ binade M * 2 ^ binade M)%Z.
Proof.
  intros (a & j & Ha & Hj & ->).
  destruct (Z_lt_le_dec (a * 2 ^ j) (2 ^ 53)) as [S|S].
  - rewrite (binade_small _ S). simpl. rewrite Z.div_1_r. lia.
  - destruct (binade_large _ S) as (K & A & B).
    set (k := binade (a * 2 ^ j)) in *.
    assert (Le : (k <= j + 1)%Z).
    { destruct (Z_lt_le_dec (j + 1) k) as [G|G]; [exfalso|exact G].
      assert (2 ^ (53 + j + 1) <= 2 ^ (52 + k))%Z by (apply Z.pow_le_mono_r; lia).
      assert (a * 2 ^ j <= 2 ^ 53 * 2 ^ j)%Z by (pose proof (pow2_pos j Hj); nia).
      rewrite <- Z.pow_add_r in * by lia.
      assert (2 ^ (53 + j) < 2 ^ (53 + j + 1))%Z by (apply Z.pow_lt_mono_r; lia).
      lia. }
    destruct (Z.eq_dec k (j + 1)) as [E|N].
    + (* only when a = 2^53 *)
      assert (a = 2 ^ 53)%Z.
      { assert (2 ^ 53 * 2 ^ j <= a * 2 ^ j)%Z.
        { rewrite <- Z.pow_add_r by lia. replace (53 + j)%Z with (52 + k)%Z by lia. exact A. }
        pose proof (pow2_pos j Hj). nia. }
      subst a. rewrite <- Z.pow_add_r by lia.
      replace (53 + j)%Z with (52 + k)%Z by lia.
      rewrite Z.pow_add_r by lia. rewrite Z.div_mul by (pose proof (pow2_pos k ltac:(lia)); lia).
      reflexivity.
    + replace j with ((j - k) + k)%Z at 1 2 by lia.
      rewrite Z.pow_add_r by lia. rewrite Z.mul_assoc.
      rewrite Z.div_mul by (pose proof (pow2_pos k ltac:(lia)); lia).
      reflexivity.
Qed.

Lemma round_units_exact (M : Z) : ongrid M -> round_units (inject_Z M) = M.
Proof.
  intros G. rewrite round_units_eq. unfold mant. rewrite Qfloor_Z.
  pose proof (ongrid_divide M G) as D.
  pose proof (binade_nonneg M) as K. set (k := binade M) in *.
  assert (E : inject_Z M / p2 k == inject_Z (M / 2 ^ k)).
  { rewrite D at 1. rewrite inject_Z_mult. fold (p2 k).
    pose proof (p2_pos k K). field. lra. }
  rewrite (Qrne_comp _ _ E), Qrne_Z. lia.
Qed.

(** Half-spacing error bound. *)
Lemma round_units_error (x : Q) :
  0 <= x ->
  let k := binade (Qfloor x) in
  inject_Z (round_units x) - p2 k / 2 <= x /\
  x <= inject_Z (round_units x) + p2 k / 2.
Proof.
  intros Hx k. rewrite round_units_eq. fold k. rewrite inject_Z_mult. fold (p2 k).
  pose proof (binade_nonneg (Qfloor x)) as K. fold k in K.
  pose proof (p2_pos k K) as P.
  destruct (Qrne_bounds (x / p2 k)) as [L H]. fold (mant x) in L, H. unfold mant in *. fold k in L, H.
  set (m := inject_Z (Qrne (x / p2 k))) in *.
  assert (E : x / p2 k * p2 k == x) by (field; lra).
  assert (A : (m - (1 # 2)) * p2 k <= x / p2 k * p2 k)
    by (apply Qmult_le_compat_r; lra).
  assert (B : x / p2 k * p2 k <= (m + (1 # 2)) * p2 k)
    by (apply Qmult_le_compat_r; lra).
  rewrite E in A, B. split.
  - apply Qle_trans with (2 := A). apply Qle_lteq. right. unfold m, k. field.
  - apply Qle_trans with (1 := B). apply Qle_lteq. right. unfold m, k. field.
Qed.

Lemma round_units_unique (x : Q) (m k : Z) :
  0 <= x -> binade (Qfloor x) = k ->
  (inject_Z m - (1 # 2)) * p2 k < x -> x < (inject_Z m + (1 # 2)) * p2 k ->
  round_units x = (m * 2 ^ k)%Z.
Proof.
  intros Hx K L H. rewrite round_units_eq. unfold mant. rewrite K.
  pose proof (binade_nonneg (Qfloor x)) as Kn. rewrite K in Kn.
  pose proof (p2_pos k Kn) as P.
  f_equal. apply Qrne_unique.
  - apply Qlt_shift_div_l; assumption.
  - apply Qlt_shift_div_r; assumption.
Qed.

End RoundUnits.

Section Decode.

Local Open Scope Q_scope.


Lemma QU_pos : 0 < QU.
Proof. apply (p2_pos 1074). lia. Qed.

Lemma pow2Q (k : Z) : (0 <= k)%Z -> 2 ^ k == p2 k.
Proof. intros H. unfold p2. rewrite (Zpower_Qpower 2 k H). reflexivity. Qed.

Lemma pow2Q_units (k : Z) : (0 <= k)%Z -> 2 ^ (k - 1074) == p2 k / QU.
Proof.
  intros H. rewrite Qpower_minus by (intros E; discriminate E).
  rewrite (pow2Q k H), (pow2Q 1074) by lia. reflexivity.
Qed.

Lemma round_units_comp (x y : Q) : x == y -> round_units x = round_units y.
Proof.
  intros E. unfold round_units. rewrite (Qfloor_comp _ _ E).
  f_equal. apply Qrne_comp. rewrite E. reflexivity.
Qed.

Lemma ongrid_nonneg (M : Z) : ongrid M -> (0 <= M)%Z.
Proof.
  intros (a & j & Ha & Hj & ->). pose proof (pow2_pos j Hj). nia.
Qed.

Lemma ongrid_0 : ongrid 0.
Proof. exists 0%Z, 0%Z. lia. Qed.

Lemma sign_decode (s : bool) (M : Z) : sign (decode s M) = s.
Proof.
  unfold decode. destruct (M =? 0)%Z; [reflexivity|].
  destruct (2 ^ 2098 <=? M)%Z; reflexivity.
Qed.


Lemma decode_spec (s : bool) (M : Z) : ongrid M -> decoded s M (decode s M).
Proof.
  intros G. pose proof (ongrid_nonneg M G) as N. unfold decode.
  destruct (Z.eqb_spec M 0) as [Z|NZ]; [constructor; exact Z|].
  destruct (Z.leb_spec (2 ^ 2098) M) as [B|B]; [constructor; exact B|].
  pose proof (ongrid_divide M G) as D.
  pose proof (binade_nonneg M) as K. set (k := binade M) in *.
  pose proof (pow2_pos k K) as P.
  assert (Q : (0 < M / 2 ^ k)%Z) by nia.
  constructor; [lia|].
  rewrite Z2Pos.id by exact Q. rewrite (pow2Q_units k K).
  rewrite D at 2. rewrite inject_Z_mult. fold (p2 k).
  pose proof QU_pos. field. lra.
Qed.

Lemma mag_decode (s : bool) (M : Z) :
  ongrid M -> (M < 2 ^ 2098)%Z -> mag (decode s M) == inject_Z M / QU.
Proof.
  intros G B. destruct (decode_spec s M G) as [Z|I|m e R E]; simpl mag.
  - subst M. unfold Qdiv. rewrite Qmult_0_l. reflexivity.
  - lia.
  - exact E.
Qed.

Lemma mag_nonneg (x : float) : 0 <= mag x.
Proof.
  destruct x as [| | |s m e]; simpl; try lra.
  apply Qmult_le_0_compat; [|apply Qpower_0_le; lra].
  change 0 with (inject_Z 0). rewrite <- Zle_Qle. lia.
Qed.

Lemma mag_finite_pos (s : bool) (m : positive) (e : Z) :
  0 < mag (S754_finite s m e).
Proof.
  simpl. apply Qmult_lt_0_compat; [|apply Qpower_0_lt; lra].
  change 0 with (inject_Z 0). rewrite <- Zlt_Qlt. lia.
Qed.

(** Order of decoded magnitudes of positive sign. *)
Lemma leb_decode (M1 M2 : Z) :
  ongrid M1 -> ongrid M2 -> (M1 <= M2)%Z ->
  leb (decode false M1) (decode false M2) = true.
Proof.
  intros G1 G2 L. pose proof QU_pos as HU.
  destruct (decode_spec false M1 G1) as [Z1|I1|m1 e1 R1 E1];
  destruct (decode_spec false M2 G2) as [Z2|I2|m2 e2 R2 E2];
    try reflexivity; try lia.
  - unfold leb, compare, F2Q. simpl sign. cbv iota.
    pose proof (mag_finite_pos false m2 e2) as P.
    destruct (Qcompare_spec (mag (S754_zero false)) (mag (S754_finite false m2 e2))) as [C|C|C];
      try reflexivity. change (mag (S754_zero false)) with 0 in C. lra.
  - unfold leb, compare, F2Q. simpl sign. cbv iota. simpl mag.
    destruct (Qcompare_spec (inject_Z (Z.pos m1) * 2 ^ e1) (inject_Z (Z.pos m2) * 2 ^ e2)) as [C|C|C];
      try reflexivity.
    rewrite E1, E2 in C. exfalso.
    assert (inject_Z M1 <= inject_Z M2) by (rewrite <- Zle_Qle; exact L).
    apply (Qlt_not_le _ _ C). apply Qmult_le_compat_r; [assumption|].
    apply Qlt_le_weak, Qinv_lt_0_compat, HU.
Qed.

Lemma rnd_sm_decode (s : bool) (q : Q) :
  0 <= q -> exists M, ongrid M /\ rnd_sm s q = decode s M /\ M = round_units (q * QU).
Proof.
  intros Hq. exists (round_units (q * QU)). split; [|split; reflexivity].
  apply round_units_ongrid. apply Qmult_le_0_compat; [exact Hq|].
  apply Qlt_le_weak, QU_pos.
Qed.

Lemma rnd_sm_mono (q1 q2 : Q) :
  0 <= q1 -> q1 <= q2 -> leb (rnd_sm false q1) (rnd_sm false q2) = true.
Proof.
  intros H1 H12. pose proof QU_pos as HU. unfold rnd_sm. fold QU.
  assert (0 <= q1 * QU) by (apply Qmult_le_0_compat; lra).
  assert (q1 * QU <= q2 * QU) by (apply Qmult_le_compat_r; lra).
  apply leb_decode.
  - apply round_units_ongrid; assumption.
  - apply round_units_ongrid; lra.
  - apply round_units_mono; assumption.
Qed.

(** A magnitude on the grid is represented exactly. *)
Lemma rnd_sm_units (s : bool) (M : Z) :
  ongrid M -> rnd_sm s (inject_Z M / QU) = decode s M.
Proof.
  intros G. unfold rnd_sm. fold QU. f_equal.
  rewrite <- (round_units_exact M G) at 2. apply round_units_comp.
  pose proof QU_pos. field. lra.
Qed.

Lemma rnd_sm_comp (s : bool) (q1 q2 : Q) : q1 == q2 -> rnd_sm s q1 = rnd_sm s q2.
Proof.
  intros E. unfold rnd_sm. f_equal. apply round_units_comp. rewrite E. reflexivity.
Qed.

Lemma rnd_comp (s : bool) (q1 q2 : Q) : q1 == q2 -> rnd s q1 = rnd s q2.
Proof.
  intros E. unfold rnd.
  assert (C : (q1 ?= 0) = (q2 ?= 0)) by (apply Qcompare_comp; [exact E|reflexivity]).
  rewrite C. destruct (q2 ?= 0); [reflexivity| |]; apply rnd_sm_comp; rewrite E; reflexivity.
Qed.

End Decode.

Section Order.

Local Open Scope Q_scope.

Lemma Qcompare_le (a b : Q) :
  match a ?= b with Lt | Eq => true | Gt => false end = true <-> a <= b.
Proof.
  destruct (Qcompare_spec a b) as [C|C|C]; split; intros H;
    try reflexivity; try discriminate; try lra.
Qed.

Lemma Qcompare_lt (a b : Q) :
  match a ?= b with Lt => true | _ => false end = true <-> a < b.
Proof.
  destruct (Qcompare_spec a b) as [C|C|C]; split; intros H;
    try reflexivity; try discriminate; try lra.
Qed.


Lemma NN_decode (M : Z) : NN (decode false M).
Proof.
  split; [|apply sign_decode].
  unfold decode. destruct (M =? 0)%Z; [discriminate|].
  destruct (2 ^ 2098 <=? M)%Z; discriminate.
Qed.

Lemma NN_rnd_sm (q : Q) : NN (rnd_sm false q).
Proof. apply NN_decode. Qed.

Lemma NN_zero : NN zero.
Proof. split; [discriminate|reflexivity]. Qed.

Lemma F2Q_NN (x : float) : NN x -> F2Q x = mag x.
Proof. intros [_ S]. unfold F2Q. rewrite S. reflexivity. Qed.

Lemma leb_zero_NN (x : float) : NN x -> leb zero x = true.
Proof.
  intros [N S]. destruct x as [s|s| |s m e]; simpl in S; subst; try reflexivity.
  - congruence.
  - unfold leb, compare, F2Q. simpl sign. cbv iota.
    apply Qcompare_le. apply mag_nonneg.
Qed.

Lemma F2Q_zero (s : bool) : F2Q (S754_zero s) == 0.
Proof. destruct s; reflexivity. Qed.

Lemma ltb_zero_NN (x : float) : ltb zero x = true -> NN x.
Proof.
  destruct x as [s|s| |s m e]; unfold ltb, compare; try discriminate.
  - intros H. apply Qcompare_lt in H. rewrite F2Q_zero in H.
    change (F2Q zero) with 0 in H. lra.
  - destruct s; [discriminate|]. intros _. split; [discriminate|reflexivity].
  - destruct s.
    + intros H. exfalso. apply Qcompare_lt in H.
      pose proof (mag_finite_pos true m e) as P. unfold F2Q in H.
      simpl sign in H. cbv iota in H. change (mag zero) with 0 in H. lra.
    + intros _. split; [discriminate|reflexivity].
Qed.



Lemma leb_NN_inf (x : float) : NN x -> leb x (S754_infinity false) = true.
Proof.
  intros [N S]. destruct x as [s|s| |s m e]; simpl in S; subst; try reflexivity.
  congruence.
Qed.

Lemma leb_NN_fin (x y : float) :
  NN x -> NN y -> isinf x = false -> isinf y = false -> mag x <= mag y ->
  leb x y = true.
Proof.
  intros Nx Ny Ix Iy L. rewrite <- (F2Q_NN x Nx), <- (F2Q_NN y Ny) in L.
  destruct Nx as [Nx _], Ny as [Ny _].
  destruct x as [sx|sx| |sx mx ex], y as [sy|sy| |sy my ey];
    try discriminate; try congruence;
    unfold leb, compare; apply Qcompare_le; exact L.
Qed.

Lemma leb_NN_cases (x y : float) :
  NN x -> NN y -> leb x y = true ->
  isinf y = true \/ (isinf x = false /\ isinf y = false /\ mag x <= mag y).
Proof.
  intros Nx Ny. rewrite <- (F2Q_NN x Nx), <- (F2Q_NN y Ny).
  destruct Nx as [Nx Sx], Ny as [Ny Sy].
  destruct x as [sx|sx| |sx mx ex], y as [sy|sy| |sy my ey];
    try congruence; simpl in Sx, Sy; subst; try (left; reflexivity);
    unfold leb, compare; try discriminate;
    intros H; apply Qcompare_le in H; right; repeat split; exact H.
Qed.


Lemma NN_lift (g : Q -> Q) (x : float) : NN (lift g x).
Proof.
  destruct x; simpl; try apply NN_rnd_sm. split; [discriminate|reflexivity].
Qed.

Lemma isinf_lift_inf (g : Q -> Q) (x : float) :
  isinf x = true -> lift g x = S754_infinity false.
Proof. destruct x; try discriminate. reflexivity. Qed.

Lemma lift_fin (g : Q -> Q) (x : float) :
  isinf x = false -> lift g x = rnd_sm false (g (mag x)).
Proof. destruct x; try discriminate; reflexivity. Qed.

Lemma lift_mono (g : Q -> Q) (x y : float) :
  (forall a b, 0 <= a -> a <= b -> 0 <= g a /\ g a <= g b) ->
  NN x -> NN y -> leb x y = true -> leb (lift g x) (lift g y) = true.
Proof.
  intros G Nx Ny L.
  destruct (leb_NN_cases x y Nx Ny L) as [I|(Ix & Iy & M)].
  - rewrite (isinf_lift_inf g y I). apply leb_NN_inf, NN_lift.
  - rewrite (lift_fin g x Ix), (lift_fin g y Iy).
    destruct (G (mag x) (mag y) (mag_nonneg x) M). apply rnd_sm_mono; assumption.
Qed.


Lemma rnd_sm_0 (s : bool) (q : Q) : q == 0 -> rnd_sm s q = S754_zero s.
Proof.
  intros E. rewrite (rnd_sm_comp s q (inject_Z 0 / QU)).
  - rewrite rnd_sm_units by apply ongrid_0. reflexivity.
  - rewrite E. unfold Qdiv. rewrite Qmult_0_l. reflexivity.
Qed.

Lemma rnd_pos (s : bool) (q : Q) : 0 < q -> rnd s q = rnd_sm false q.
Proof.
  intros H. unfold rnd. apply Qgt_alt in H. rewrite H. reflexivity.
Qed.

Lemma rnd_0 (s : bool) (q : Q) : q == 0 -> rnd s q = S754_zero s.
Proof.
  intros H. unfold rnd. apply Qeq_alt in H. rewrite H. reflexivity.
Qed.

Lemma rnd_nonneg (q : Q) : 0 <= q -> rnd false q = rnd_sm false q.
Proof.
  intros H. destruct (Qlt_le_dec 0 q) as [P|Z].
  - apply rnd_pos, P.
  - assert (E : q == 0) by lra. rewrite (rnd_0 false q E), (rnd_sm_0 false q E).
    reflexivity.
Qed.

Lemma mul_lift (x c : float) :
  NN x -> pos_finite c = true -> mul x c = lift (fun q => q * mag c) x.
Proof.
  intros [N S] C. destruct c as [| | |sc mc ec]; try discriminate.
  destruct sc; [discriminate|].
  pose proof (mag_finite_pos false mc ec) as P.
  destruct x as [s|s| |s m e]; simpl in S; subst; try congruence.
  - unfold mul, lift. simpl sign. simpl xorb.
    rewrite rnd_nonneg; [reflexivity|]. unfold F2Q. simpl sign. cbv iota.
    change (mag (S754_zero false)) with 0. lra.
  - reflexivity.
  - unfold mul, lift. simpl sign. simpl xorb.
    rewrite rnd_nonneg; [reflexivity|]. unfold F2Q. simpl sign. cbv iota.
    apply Qmult_le_0_compat; apply mag_nonneg.
Qed.

Lemma div_lift (x c : float) :
  NN x -> pos_finite c = true -> div x c = lift (fun q => q / mag c) x.
Proof.
  intros [N S] C. destruct c as [| | |sc mc ec]; try discriminate.
  destruct sc; [discriminate|].
  pose proof (mag_finite_pos false mc ec) as P.
  destruct x as [s|s| |s m e]; simpl in S; subst; try congruence.
  - unfold div, lift. simpl sign. simpl xorb.
    rewrite rnd_nonneg; [reflexivity|]. unfold F2Q. simpl sign. cbv iota.
    change (mag (S754_zero false)) with 0. unfold Qdiv. rewrite Qmult_0_l. lra.
  - reflexivity.
  - unfold div, lift. simpl sign. simpl xorb.
    rewrite rnd_nonneg; [reflexivity|]. unfold F2Q. simpl sign. cbv iota.
    apply Qle_shift_div_l; [exact P|]. rewrite Qmult_0_l. apply mag_nonneg.
Qed.


Lemma to_cents_mono (a b : Q) :
  0 <= a -> a <= b -> 0 <= to_cents a /\ to_cents a <= to_cents b.
Proof.
  intros Ha Hab. unfold to_cents.
  assert (Z0 : (0 <= Qrne (100 * a))%Z) by (apply Qrne_nonneg; lra).
  assert (Zm : (Qrne (100 * a) <= Qrne (100 * b))%Z) by (apply Qrne_mono; lra).
  rewrite Zle_Qle in Z0, Zm. change (inject_Z 0) with 0 in Z0. split.
  - apply Qle_shift_div_l; lra.
  - apply Qmult_le_compat_r; [exact Zm|]. apply Qlt_le_weak. reflexivity.
Qed.

Lemma round2_lift (x : float) : NN x -> round2 x = lift to_cents x.
Proof.
  intros [N S]. destruct x as [s|s| |s m e]; simpl in S; subst; try congruence.
  - unfold lift. rewrite rnd_sm_0; [reflexivity|]. reflexivity.
  - reflexivity.
  - unfold round2, lift, to_cents. reflexivity.
Qed.

End Order.

Section OrderMore.
Local Open Scope Q_scope.



Lemma leb_trans (x y z : float) :
  leb x y = true -> leb y z = true -> leb x z = true.
Proof. intros H1 H2. by_cases; qcmp. Qed.

Lemma ltb_leb_false (x y : float) : ltb x y = true -> leb y x = false.
Proof. intros H. by_cases; qcmp. Qed.

Lemma leb_false_ltb (x y : float) :
  x <> S754_nan -> y <> S754_nan -> leb x y = false -> ltb y x = true.
Proof. intros Nx Ny H. by_cases; try congruence; qcmp. Qed.

Lemma leb_not_nan (x y : float) :
  leb x y = true -> x <> S754_nan /\ y <> S754_nan.
Proof. intros H. by_cases; split; discriminate. Qed.

Lemma leb_zero_zero : leb zero zero = true.
Proof. reflexivity. Qed.

End OrderMore.

Section EstimatorEquations.

Lemma paint_estimate_eq (a : float) :
  paint_estimate a =
  if leb a zero then Ok (zero, zero) else Ok (Spec.paint_formula a).
Proof.
  unfold paint_estimate, paint_estimate_with, Spec.paint_formula, truediv.
  destruct (leb a zero); [reflexivity|].
  replace (eqb (dec 10 1) zero) with false by (vm_compute; reflexivity).
  replace (float_of_int 2) with (Ok (dec 2 1)) by (vm_compute; reflexivity).
  replace (add one (dec 1 10)) with (add (dec 1 1) (dec 10 100))
    by (vm_compute; reflexivity).
  cbv beta iota zeta delta [bind]. reflexivity.
Qed.

Lemma tiles_estimate_eq (a : float) :
  tiles_estimate a =
  if leb a zero then Ok (zero, zero) else Ok (Spec.tiles_formula a).
Proof.
  unfold tiles_estimate, tiles_estimate_with, Spec.tiles_formula.
  destruct (leb a zero); [reflexivity|].
  change one with (dec 1 1). cbv beta iota zeta. reflexivity.
Qed.

Lemma generic_labour_with_eq (a r : float) :
  generic_labour_with a r =
  Ok (if leb a zero then zero else round2 (mul a r)).
Proof. unfold generic_labour_with. destruct (leb a zero); reflexivity. Qed.

End EstimatorEquations.

Section Monotone.
Local Open Scope Q_scope.

Lemma scale_mono (c : Q) :
  0 < c -> forall a b, 0 <= a -> a <= b -> 0 <= a * c /\ a * c <= b * c.
Proof.
  intros Hc a b Ha Hab. split.
  - apply Qmult_le_0_compat; lra.
  - apply Qmult_le_compat_r; lra.
Qed.

Lemma divide_mono (c : Q) :
  0 < c -> forall a b, 0 <= a -> a <= b -> 0 <= a / c /\ a / c <= b / c.
Proof.
  intros Hc a b Ha Hab. apply scale_mono; [|assumption..].
  apply Qinv_lt_0_compat, Hc.
Qed.

Lemma mag_pos_finite (c : float) : pos_finite c = true -> 0 < mag c.
Proof.
  destruct c as [| | |s m e]; try discriminate. intros _. apply mag_finite_pos.
Qed.

Lemma mul_mono (c x y : float) :
  pos_finite c = true -> NN x -> NN y -> leb x y = true ->
  leb (mul x c) (mul y c) = true.
Proof.
  intros C Nx Ny L. rewrite !mul_lift by assumption.
  apply lift_mono; try assumption. apply scale_mono, mag_pos_finite, C.
Qed.

Lemma NN_mul (c x : float) : pos_finite c = true -> NN x -> NN (mul x c).
Proof. intros C Nx. rewrite mul_lift by assumption. apply NN_lift. Qed.

Lemma div_mono (c x y : float) :
  pos_finite c = true -> NN x -> NN y -> leb x y = true ->
  leb (div x c) (div y c) = true.
Proof.
  intros C Nx Ny L. rewrite !div_lift by assumption.
  apply lift_mono; try assumption. apply divide_mono, mag_pos_finite, C.
Qed.

Lemma NN_div (c x : float) : pos_finite c = true -> NN x -> NN (div x c).
Proof. intros C Nx. rewrite div_lift by assumption. apply NN_lift. Qed.

Lemma round2_mono (x y : float) :
  NN x -> NN y -> leb x y = true -> leb (round2 x) (round2 y) = true.
Proof.
  intros Nx Ny L. rewrite !round2_lift by assumption.
  apply lift_mono; try assumption. apply to_cents_mono.
Qed.

Lemma NN_round2 (x : float) : NN x -> NN (round2 x).
Proof. intros Nx. rewrite round2_lift by assumption. apply NN_lift. Qed.


Lemma guarded_mono (f : float -> float * float) (est : float -> result (float * float)) :
  (forall a, est a = if leb a zero then Ok (zero, zero) else Ok (f a)) ->
  (forall a, NN a -> NN (fst (f a)) /\ NN (snd (f a))) ->
  (forall a b, NN a -> NN b -> leb a b = true ->
     leb (fst (f a)) (fst (f b)) = true /\ leb (snd (f a)) (snd (f b)) = true) ->
  forall a1 a2, leb a1 a2 = true -> pair_le (est a1) (est a2).
Proof.
  intros E N M a1 a2 L. rewrite !E.
  destruct (leb_not_nan a1 a2 L) as [N1 N2].
  destruct (leb a2 zero) eqn:Z2.
  - rewrite (leb_trans a1 a2 zero L Z2). split; reflexivity.
  - assert (P2 : NN a2).
    { apply ltb_zero_NN, leb_false_ltb; [assumption|discriminate|assumption]. }
    destruct (leb a1 zero) eqn:Z1.
    + destruct (N a2 P2). unfold pair_le. destruct (f a2) as [q c].
      split; apply leb_zero_NN; assumption.
    + assert (P1 : NN a1).
      { apply ltb_zero_NN, leb_false_ltb; [assumption|discriminate|assumption]. }
      destruct (M a1 a2 P1 P2 L). unfold pair_le. destruct (f a1), (f a2).
      split; assumption.
Qed.

Lemma const_10 : pos_finite (dec 10 1) = true.
Proof. vm_compute; reflexivity. Qed.
Lemma const_2 : pos_finite (dec 2 1) = true.
Proof. vm_compute; reflexivity. Qed.
Lemma const_1_1 : pos_finite (add (dec 1 1) (dec 10 100)) = true.
Proof. vm_compute; reflexivity. Qed.
Lemma const_250 : pos_finite (dec 250 1) = true.
Proof. vm_compute; reflexivity. Qed.
Lemma const_1_05 : pos_finite (add (dec 1 1) (dec 5 100)) = true.
Proof. vm_compute; reflexivity. Qed.
Lemma const_600 : pos_finite (dec 600 1) = true.
Proof. vm_compute; reflexivity. Qed.

Lemma paint_formula_NN (a : float) :
  NN a -> NN (fst (Spec.paint_formula a)) /\ NN (snd (Spec.paint_formula a)).
Proof.
  intros Na. unfold Spec.paint_formula. cbv beta iota zeta delta [fst snd].
  assert (L : NN (mul (mul (div a (dec 10 1)) (dec 2 1)) (add (dec 1 1) (dec 10 100)))).
  { apply NN_mul; [exact const_1_1|]. apply NN_mul; [exact const_2|].
    apply NN_div; [exact const_10|exact Na]. }
  split; apply NN_round2; [exact L|]. apply NN_mul; [exact const_250|exact L].
Qed.

Lemma paint_formula_mono (a b : float) :
  NN a -> NN b -> leb a b = true ->
  leb (fst (Spec.paint_formula a)) (fst (Spec.paint_formula b)) = true /\
  leb (snd (Spec.paint_formula a)) (snd (Spec.paint_formula b)) = true.
Proof.
  intros Na Nb L. unfold Spec.paint_formula. cbv beta iota zeta delta [fst snd].
  assert (D : forall x, NN x -> NN (mul (div x (dec 10 1)) (dec 2 1))).
  { intros x Nx. apply NN_mul; [exact const_2|]. apply NN_div; [exact const_10|exact Nx]. }
  assert (M : leb (mul (mul (div a (dec 10 1)) (dec 2 1)) (add (dec 1 1) (dec 10 100)))
                  (mul (mul (div b (dec 10 1)) (dec 2 1)) (add (dec 1 1) (dec 10 100))) = true).
  { apply mul_mono; [exact const_1_1|apply D, Na|apply D, Nb|].
    apply mul_mono; [exact const_2|apply NN_div; [exact const_10|exact Na]
                    |apply NN_div; [exact const_10|exact Nb]|].
    apply div_mono; [exact const_10|assumption..]. }
  split.
  - apply round2_mono; [apply NN_mul; [exact const_1_1|apply D, Na]
                       |apply NN_mul; [exact const_1_1|apply D, Nb]|exact M].
  - apply round2_mono.
    + apply NN_mul; [exact const_250|]. apply NN_mul; [exact const_1_1|apply D, Na].
    + apply NN_mul; [exact const_250|]. apply NN_mul; [exact const_1_1|apply D, Nb].
    + apply mul_mono; [exact const_250|apply NN_mul; [exact const_1_1|apply D, Na]
                      |apply NN_mul; [exact const_1_1|apply D, Nb]|exact M].
Qed.

Lemma tiles_formula_NN (a : float) :
  NN a -> NN (fst (Spec.tiles_formula a)) /\ NN (snd (Spec.tiles_formula a)).
Proof.
  intros Na. unfold Spec.tiles_formula. cbv beta iota zeta delta [fst snd].
  assert (L : NN (mul a (add (dec 1 1) (dec 5 100)))) by (apply NN_mul; [exact const_1_05|exact Na]).
  split; apply NN_round2; [exact L|]. apply NN_mul; [exact const_600|exact L].
Qed.

Lemma tiles_formula_mono (a b : float) :
  NN a -> NN b -> leb a b = true ->
  leb (fst (Spec.tiles_formula a)) (fst (Spec.tiles_formula b)) = true /\
  leb (snd (Spec.tiles_formula a)) (snd (Spec.tiles_formula b)) = true.
Proof.
  intros Na Nb L. unfold Spec.tiles_formula. cbv beta iota zeta delta [fst snd].
  assert (M : leb (mul a (add (dec 1 1) (dec 5 100))) (mul b (add (dec 1 1) (dec 5 100))) = true)
    by (apply mul_mono; [exact const_1_05|assumption..]).
  split.
  - apply round2_mono; [apply NN_mul; [exact const_1_05|exact Na]
                       |apply NN_mul; [exact const_1_05|exact Nb]|exact M].
  - apply round2_mono.
    + apply NN_mul; [exact const_600|]. apply NN_mul; [exact const_1_05|exact Na].
    + apply NN_mul; [exact const_600|]. apply NN_mul; [exact const_1_05|exact Nb].
    + apply mul_mono; [exact const_600|apply NN_mul; [exact const_1_05|exact Na]
                      |apply NN_mul; [exact const_1_05|exact Nb]|exact M].
Qed.

Lemma paint_estimate_mono (a1 a2 : float) :
  leb a1 a2 = true -> pair_le (paint_estimate a1) (paint_estimate a2).
Proof.
  apply (guarded_mono Spec.paint_formula paint_estimate paint_estimate_eq
           paint_formula_NN paint_formula_mono).
Qed.

Lemma tiles_estimate_mono (a1 a2 : float) :
  leb a1 a2 = true -> pair_le (tiles_estimate a1) (tiles_estimate a2).
Proof.
  apply (guarded_mono Spec.tiles_formula tiles_estimate tiles_estimate_eq
           tiles_formula_NN tiles_formula_mono).
Qed.

End Monotone.

Section Units.
Local Open Scope Q_scope.



Lemma U_pos : (0 < U)%Z.
Proof. apply (pow2_pos 1074). lia. Qed.

Lemma funits_shape (X : Z) :
  fin_units X ->
  (X = 0%Z /\ funits X = S754_zero false) \/
  ((0 < X)%Z /\ exists m e, funits X = S754_finite false m e /\
                 inject_Z (Zpos m) * 2 ^ e == inject_Z X / QU).
Proof.
  intros [G B]. unfold funits.
  destruct (decode_spec false X G) as [Z|I|m e R E].
  - left. split; [exact Z|reflexivity].
  - lia.
  - right. split; [lia|]. exists m, e. split; [reflexivity|exact E].
Qed.

Lemma mag_funits (X : Z) : fin_units X -> mag (funits X) == inject_Z X / QU.
Proof. intros [G B]. apply mag_decode; assumption. Qed.

Lemma NN_funits (X : Z) : NN (funits X).
Proof. apply NN_decode. Qed.

Lemma F2Q_funits (X : Z) : fin_units X -> F2Q (funits X) == inject_Z X / QU.
Proof. intros F. rewrite (F2Q_NN _ (NN_funits X)). apply mag_funits, F. Qed.

Lemma isinf_funits (X : Z) : fin_units X -> isinf (funits X) = false.
Proof.
  intros F. destruct (funits_shape X F) as [[_ E]|[_ (m & e & E & _)]];
    rewrite E; reflexivity.
Qed.

Lemma units_nonneg (X : Z) : fin_units X -> 0 <= inject_Z X / QU.
Proof.
  intros [G _]. pose proof (ongrid_nonneg X G) as N. pose proof QU_pos.
  apply Qle_shift_div_l; [assumption|]. rewrite Qmult_0_l.
  change 0 with (inject_Z 0). rewrite <- Zle_Qle. exact N.
Qed.

Lemma rnd_sm_funits (X : Z) (q : Q) :
  ongrid X -> q == inject_Z X / QU -> rnd_sm false q = funits X.
Proof.
  intros G E. rewrite (rnd_sm_comp false q _ E). apply rnd_sm_units, G.
Qed.

Lemma rnd_funits (X : Z) (q : Q) :
  ongrid X -> q == inject_Z X / QU -> rnd false q = funits X.
Proof.
  intros G E. rewrite rnd_nonneg.
  - apply rnd_sm_funits; assumption.
  - rewrite E. pose proof (ongrid_nonneg X G) as N. pose proof QU_pos.
    apply Qle_shift_div_l; [assumption|]. rewrite Qmult_0_l.
    change 0 with (inject_Z 0). rewrite <- Zle_Qle. exact N.
Qed.

Lemma funits_0 : funits 0 = zero.
Proof. reflexivity. Qed.

Lemma units_div (X : Z) : inject_Z (X * U) / QU == inject_Z X.
Proof. rewrite inject_Z_mult. fold QU. pose proof QU_pos. field. lra. Qed.

Lemma add_funits (X Y : Z) :
  fin_units X -> fin_units Y -> ongrid (X + Y) ->
  add (funits X) (funits Y) = funits (X + Y).
Proof.
  intros FX FY G.
  pose proof (F2Q_funits X FX) as VX. pose proof (F2Q_funits Y FY) as VY.
  assert (E : F2Q (funits X) + F2Q (funits Y) == inject_Z (X + Y) / QU).
  { rewrite VX, VY, inject_Z_plus. pose proof QU_pos. field. lra. }
  destruct (funits_shape X FX) as [[ZX EX]|[PX (mx & ex & EX & _)]];
  destruct (funits_shape Y FY) as [[ZY EY]|[PY (my & ey & EY & _)]];
    rewrite EX, EY in *.
  - subst. reflexivity.
  - unfold add. apply rnd_funits; assumption.
  - unfold add. apply rnd_funits; assumption.
  - unfold add. apply rnd_funits; assumption.
Qed.

Lemma inject_Z_sub (a b : Z) : inject_Z (a - b) == inject_Z a - inject_Z b.
Proof. unfold Qeq, Qminus, Qplus, Qopp, inject_Z. simpl. lia. Qed.

Lemma F2Q_opp (x : float) : F2Q (opp x) == - F2Q x.
Proof.
  destruct x as [[]|[]| |[] m e]; unfold F2Q; simpl sign; simpl opp;
    cbv iota; simpl mag; lra.
Qed.

Lemma sub_funits (X Y : Z) :
  fin_units X -> fin_units Y -> ongrid (X - Y) ->
  sub (funits X) (funits Y) = funits (X - Y).
Proof.
  intros FX FY G. unfold sub.
  pose proof (F2Q_funits X FX) as VX. pose proof (F2Q_funits Y FY) as VY.
  assert (E : F2Q (funits X) + F2Q (opp (funits Y)) == inject_Z (X - Y) / QU).
  { rewrite F2Q_opp, VX, VY, inject_Z_sub. pose proof QU_pos. field. lra. }
  destruct (funits_shape X FX) as [[ZX EX]|[PX (mx & ex & EX & _)]];
  destruct (funits_shape Y FY) as [[ZY EY]|[PY (my & ey & EY & _)]];
    rewrite EX, EY in *.
  - subst. reflexivity.
  - simpl opp. unfold add. apply rnd_funits; assumption.
  - simpl opp. unfold add. apply rnd_funits; assumption.
  - simpl opp. unfold add. apply rnd_funits; assumption.
Qed.

Lemma mul_funits (X Y Z : Z) :
  fin_units X -> fin_units Y -> ongrid Z -> (Z * U = X * Y)%Z ->
  mul (funits X) (funits Y) = funits Z.
Proof.
  intros FX FY G H.
  pose proof (F2Q_funits X FX) as VX. pose proof (F2Q_funits Y FY) as VY.
  assert (E : F2Q (funits X) * F2Q (funits Y) == inject_Z Z / QU).
  { rewrite VX, VY. pose proof QU_pos as HU.
    assert (K : inject_Z X * inject_Z Y == inject_Z Z * QU).
    { unfold QU. rewrite <- !inject_Z_mult, H. reflexivity. }
    transitivity (inject_Z X * inject_Z Y / (QU * QU)); [field; lra|].
    rewrite K. field. lra. }
  destruct (funits_shape X FX) as [[ZX EX]|[PX (mx & ex & EX & _)]];
  destruct (funits_shape Y FY) as [[ZY EY]|[PY (my & ey & EY & _)]];
    rewrite EX, EY in *; unfold mul; simpl sign; simpl xorb;
    apply rnd_funits; assumption.
Qed.

Lemma div_funits (X Y Z : Z) :
  fin_units X -> fin_units Y -> (0 < Y)%Z -> ongrid Z -> (Z * Y = X * U)%Z ->
  div (funits X) (funits Y) = funits Z.
Proof.
  intros FX FY PY G H.
  pose proof (F2Q_funits X FX) as VX. pose proof (F2Q_funits Y FY) as VY.
  assert (QY : 0 < inject_Z Y) by (change 0 with (inject_Z 0); rewrite <- Zlt_Qlt; exact PY).
  assert (E : F2Q (funits X) / F2Q (funits Y) == inject_Z Z / QU).
  { rewrite VX, VY. pose proof QU_pos as HU.
    assert (K : inject_Z X * QU == inject_Z Z * inject_Z Y).
    { unfold QU. rewrite <- !inject_Z_mult, H. reflexivity. }
    transitivity (inject_Z X * QU / (inject_Z Y * QU)); [field; split; lra|].
    rewrite K. field. split; lra. }
  destruct (funits_shape X FX) as [[ZX EX]|[PX (mx & ex & EX & _)]];
  destruct (funits_shape Y FY) as [[ZY EY]|[_ (my & ey & EY & _)]]; try lia;
    rewrite EX, EY in *; unfold div; simpl sign; simpl xorb;
    apply rnd_funits; assumption.
Qed.

End Units.

Section IntegerFloats.
Local Open Scope Q_scope.

Lemma ongrid_int (n : Z) : (0 <= n <= 2 ^ 53)%Z -> ongrid (n * U).
Proof. intros H. exists n, 1074%Z. unfold U. lia. Qed.

Lemma fin_units_int (n : Z) : (0 <= n <= 2 ^ 53)%Z -> fin_units (n * U).
Proof.
  intros H. split; [apply ongrid_int, H|].
  apply Z.le_lt_trans with (2 ^ 53 * U)%Z.
  - pose proof U_pos. nia.
  - unfold U. rewrite <- Z.pow_add_r by lia. apply Z.pow_lt_mono_r; lia.
Qed.

Lemma fin_units_small (X : Z) :
  ongrid X -> (X < 2 ^ 53 * U)%Z -> fin_units X.
Proof.
  intros G B. split; [exact G|].
  apply Z.lt_trans with (1 := B). unfold U.
  rewrite <- Z.pow_add_r by lia. apply Z.pow_lt_mono_r; lia.
Qed.

(** Removing whole units from an on-grid magnitude below [2^53] stays on
    the grid. *)
Lemma ongrid_remove (X c : Z) :
  ongrid X -> (X < 2 ^ 53 * U)%Z -> (0 <= c)%Z -> (0 <= X - c * U)%Z ->
  ongrid (X - c * U).
Proof.
  intros G B Hc HR.
  destruct (Z_lt_le_dec X (2 ^ 53)) as [S|S].
  - exists (X - c * U)%Z, 0%Z. pose proof U_pos. simpl. nia.
  - destruct (binade_large X S) as (K & A & B').
    pose proof (ongrid_divide X G) as D. set (j := binade X) in *.
    assert (J : (j <= 1074)%Z).
    { destruct (Z_lt_le_dec 1074 j) as [W|W]; [exfalso|exact W].
      assert (2 ^ (53 + 1074) <= 2 ^ (52 + j))%Z by (apply Z.pow_le_mono_r; lia).
      unfold U in B. rewrite <- Z.pow_add_r in B by lia. lia. }
    pose proof (pow2_pos j ltac:(lia)) as P.
    exists (X / 2 ^ j - c * 2 ^ (1074 - j))%Z, j.
    assert (EU : U = (2 ^ (1074 - j) * 2 ^ j)%Z).
    { unfold U. rewrite <- Z.pow_add_r by lia. f_equal. lia. }
    assert (M : (X / 2 ^ j < 2 ^ 53)%Z).
    { apply Z.div_lt_upper_bound; [exact P|].
      rewrite Z.mul_comm, <- Z.pow_add_r by lia. exact B'. }
    pose proof (pow2_pos (1074 - j) ltac:(lia)) as P'.
    assert (EQ : (X - c * U = (X / 2 ^ j - c * 2 ^ (1074 - j)) * 2 ^ j)%Z).
    { rewrite EU. rewrite D at 1. ring. }
    split; [|split; [lia|exact EQ]].
    split; [|nia]. rewrite EQ in HR. nia.
Qed.

Lemma ltb_funits (X Y : Z) :
  fin_units X -> fin_units Y -> (X < Y)%Z -> ltb (funits X) (funits Y) = true.
Proof.
  intros FX FY L.
  pose proof (F2Q_funits X FX) as VX. pose proof (F2Q_funits Y FY) as VY.
  assert (C : F2Q (funits X) < F2Q (funits Y)).
  { rewrite VX, VY. pose proof QU_pos.
    apply Qmult_lt_compat_r; [apply Qinv_lt_0_compat; assumption|].
    rewrite <- Zlt_Qlt. exact L. }
  destruct (funits_shape X FX) as [[ZX EX]|[PX (mx & ex & EX & _)]];
  destruct (funits_shape Y FY) as [[ZY EY]|[PY (my & ey & EY & _)]];
    try lia; rewrite EX, EY in *; unfold ltb, compare;
    apply (proj2 (Qcompare_lt _ _)); exact C.
Qed.

Lemma leb_funits (X Y : Z) :
  fin_units X -> fin_units Y -> leb (funits X) (funits Y) = (X <=? Y)%Z.
Proof.
  intros FX FY. destruct (Z.leb_spec X Y) as [L|L].
  - apply leb_decode; [apply FX|apply FY|exact L].
  - apply ltb_leb_false, ltb_funits; assumption.
Qed.

Lemma ltb_funits_iff (X Y : Z) :
  fin_units X -> fin_units Y -> ltb (funits X) (funits Y) = (X <? Y)%Z.
Proof.
  intros FX FY. destruct (Z.ltb_spec X Y) as [L|L].
  - apply ltb_funits; assumption.
  - destruct (ltb (funits X) (funits Y)) eqn:E; [|reflexivity].
    apply ltb_leb_false in E. rewrite leb_funits in E by assumption.
    apply Z.leb_gt in E. lia.
Qed.

Lemma eqb_funits_zero (X : Z) :
  fin_units X -> eqb (funits X) zero = (X =? 0)%Z.
Proof.
  intros FX. destruct (funits_shape X FX) as [[ZX EX]|[PX (mx & ex & EX & _)]];
    rewrite EX.
  - subst. reflexivity.
  - destruct (Z.eqb_spec X 0); [lia|].
    unfold eqb, compare.
    pose proof (mag_finite_pos false mx ex) as P.
    destruct (Qcompare_spec (F2Q (S754_finite false mx ex)) (F2Q zero)) as [C|C|C];
      try reflexivity.
    unfold F2Q in C. simpl sign in C. cbv iota in C.
    change (mag zero) with 0 in C. lra.
Qed.

Lemma to_cents_comp (a b : Q) : a == b -> to_cents a == to_cents b.
Proof.
  intros E. unfold to_cents. rewrite (Qrne_comp (100 * a) (100 * b)).
  - reflexivity.
  - rewrite E. reflexivity.
Qed.

Lemma to_cents_int (n : Z) : to_cents (inject_Z n) == inject_Z n.
Proof.
  unfold to_cents.
  rewrite (Qrne_comp (100 * inject_Z n) (inject_Z (100 * n))).
  - rewrite Qrne_Z, inject_Z_mult. field.
  - rewrite inject_Z_mult. reflexivity.
Qed.

Lemma round2_funits (X : Z) :
  fin_units X -> round2 (funits X) = rnd_sm false (to_cents (inject_Z X / QU)).
Proof.
  intros FX. rewrite round2_lift by apply NN_funits.
  rewrite lift_fin by (apply isinf_funits; exact FX).
  apply rnd_sm_comp, to_cents_comp, mag_funits, FX.
Qed.

Lemma round2_fint (n : Z) : (0 <= n <= 2 ^ 53)%Z -> round2 (fint n) = fint n.
Proof.
  intros H. unfold fint. rewrite round2_funits by (apply fin_units_int, H).
  apply rnd_sm_funits; [apply ongrid_int, H|].
  rewrite (to_cents_comp _ _ (units_div n)), to_cents_int, units_div. reflexivity.
Qed.

Lemma dec_int (n : Z) : (0 <= n <= 2 ^ 53)%Z -> dec n 1 = fint n.
Proof.
  intros H. unfold dec, fint. apply rnd_funits; [apply ongrid_int, H|].
  rewrite units_div. reflexivity.
Qed.

Lemma float_of_int_fint (n : Z) :
  (0 <= n <= 2 ^ 53)%Z -> float_of_int n = Ok (fint n).
Proof.
  intros H. unfold float_of_int.
  assert (E : rnd false (inject_Z n) = fint n).
  { apply rnd_funits; [apply ongrid_int, H|]. rewrite units_div. reflexivity. }
  rewrite E. unfold fint.
  destruct (funits_shape (n * U) (fin_units_int n H)) as [[_ S]|[_ (m & e & S & _)]];
    rewrite S; reflexivity.
Qed.

Lemma mag_fint (n : Z) : (0 <= n <= 2 ^ 53)%Z -> mag (fint n) == inject_Z n.
Proof.
  intros H. unfold fint. rewrite mag_funits by (apply fin_units_int, H).
  apply units_div.
Qed.

Lemma int_of_float_fint (n : Z) :
  (0 <= n <= 2 ^ 53)%Z -> int_of_float (fint n) = Ok n.
Proof.
  intros H. pose proof (mag_fint n H) as V. unfold fint in *.
  destruct (funits_shape (n * U) (fin_units_int n H)) as [[Z S]|[_ (m & e & S & _)]];
    rewrite S in *.
  - pose proof U_pos. assert (n = 0)%Z by nia. subst. reflexivity.
  - unfold int_of_float. rewrite (Qfloor_comp _ _ V), Qfloor_Z. reflexivity.
Qed.

Lemma floor_fint (n : Z) : (0 <= n <= 2 ^ 53)%Z -> floor (fint n) = fint n.
Proof.
  intros H. pose proof (mag_fint n H) as V. unfold fint in *.
  destruct (funits_shape (n * U) (fin_units_int n H)) as [[Z S]|[_ (m & e & S & _)]];
    rewrite S in *.
  - reflexivity.
  - unfold floor, F2Q. simpl sign. cbv iota.
    rewrite (Qfloor_comp _ _ V), Qfloor_Z, <- S.
    apply rnd_funits; [apply ongrid_int, H|]. rewrite units_div. reflexivity.
Qed.

Lemma fmod_funits (X Y : Z) :
  fin_units X -> fin_units Y -> (0 < Y)%Z -> ongrid (X mod Y) ->
  fmod (funits X) (funits Y) = funits (X mod Y).
Proof.
  intros FX FY PY G.
  pose proof (mag_funits X FX) as VX. pose proof (mag_funits Y FY) as VY.
  destruct (funits_shape X FX) as [[ZX EX]|[PX (mx & ex & EX & _)]];
  destruct (funits_shape Y FY) as [[ZY EY]|[_ (my & ey & EY & _)]]; try lia;
    rewrite EX, EY in *.
  - subst X. rewrite Z.mod_0_l by lia. reflexivity.
  - unfold fmod. apply rnd_sm_funits; [exact G|].
    pose proof QU_pos as HU.
    assert (QY : 0 < inject_Z Y) by (change 0 with (inject_Z 0); rewrite <- Zlt_Qlt; exact PY).
    set (a := mag (S754_finite false mx ex)) in *.
    set (b := mag (S754_finite false my ey)) in *.
    assert (F : Qfloor (a / b) = (X / Y)%Z).
    { rewrite Zdiv_Qdiv. apply Qfloor_comp. rewrite VX, VY. field. split; lra. }
    rewrite F, VX, VY.
    rewrite (Z.mod_eq X Y) by lia. rewrite inject_Z_sub, inject_Z_mult.
    field. lra.
Qed.

End IntegerFloats.

Section FloorDivision.
Local Open Scope Z_scope.

Lemma pos_finite_fint (n : Z) : 1 <= n <= 2 ^ 53 -> pos_finite (fint n) = true.
Proof.
  intros H. unfold fint.
  destruct (funits_shape (n * U) (fin_units_int n ltac:(lia))) as [[Z _]|[_ (m & e & S & _)]].
  - pose proof U_pos. nia.
  - rewrite S. reflexivity.
Qed.

Lemma sign_NN (x : float) : NN x -> sign x = false.
Proof. intros [_ S]. exact S. Qed.

Lemma floordiv_exact (X S : Z) :
  ongrid X -> X < 2 ^ 53 * U -> 1 <= S <= 2 ^ 53 ->
  floordiv (funits X) (fint S) = Ok (fint (X / (S * U))).
Proof.
  intros G B HS. pose proof U_pos as HU.
  pose proof (ongrid_nonneg X G) as X0.
  assert (PY : 0 < S * U) by nia.
  set (k := X / (S * U)). set (R := X mod (S * U)).
  assert (DM : X = (k * S) * U + R).
  { unfold k, R. rewrite (Z.div_mod X (S * U)) at 1 by lia. ring. }
  assert (RB : 0 <= R < S * U) by (apply Z.mod_pos_bound; exact PY).
  assert (K0 : 0 <= k) by (apply Z.div_pos; lia).
  assert (KS : 0 <= k * S <= 2 ^ 53) by nia.
  assert (K : 0 <= k <= 2 ^ 53) by nia.
  assert (GR : ongrid R).
  { replace R with (X - (k * S) * U) by lia. apply ongrid_remove; try assumption; lia. }
  assert (FX : fin_units X) by (apply fin_units_small; assumption).
  assert (FR : fin_units R) by (apply fin_units_small; [assumption|lia]).
  assert (FS : fin_units (S * U)) by (apply fin_units_int; lia).
  assert (E0 : eqb (fint S) zero = false).
  { unfold fint. rewrite eqb_funits_zero by exact FS.
    destruct (Z.eqb_spec (S * U) 0); [lia|reflexivity]. }
  assert (E1 : fmod (funits X) (fint S) = funits R).
  { unfold fint. apply fmod_funits; assumption. }
  assert (E2 : sub (funits X) (funits R) = fint (k * S)).
  { unfold fint. replace (k * S * U) with (X - R) by lia.
    apply sub_funits; try assumption.
    replace (X - R) with ((k * S) * U) by lia. apply ongrid_int; lia. }
  assert (E3 : div (fint (k * S)) (fint S) = fint k).
  { unfold fint. apply div_funits;
      [apply fin_units_int; lia|exact FS|exact PY|apply ongrid_int; lia|ring]. }
  unfold floordiv. rewrite E0. f_equal. unfold float_div_mod.
  rewrite E1, E2, E3.
  assert (T : truthy (fint k) = negb (k =? 0)).
  { unfold truthy, fint. rewrite eqb_funits_zero by (apply fin_units_int; lia).
    f_equal. destruct (Z.eqb_spec k 0), (Z.eqb_spec (k * U) 0); try reflexivity; nia. }
  assert (DV : (let '(_, dv) :=
                  if truthy (funits R)
                  then if xorb (ltb (fint S) zero) (ltb (funits R) zero)
                       then (add (funits R) (fint S), sub (fint k) one)
                       else (funits R, fint k)
                  else (copysign_zero (fint S), fint k) in dv) = fint k).
  { destruct (truthy (funits R)); [|reflexivity].
    replace (ltb (fint S) zero) with false.
    - replace (ltb (funits R) zero) with false; [reflexivity|].
      symmetry. change zero with (funits 0).
      rewrite ltb_funits_iff; [|exact FR|split; [apply ongrid_0|lia]].
      apply Z.ltb_ge. lia.
    - symmetry. change zero with (funits 0). unfold fint.
      rewrite ltb_funits_iff; [|exact FS|split; [apply ongrid_0|lia]].
      apply Z.ltb_ge. lia. }
  destruct (if truthy (funits R)
            then if xorb (ltb (fint S) zero) (ltb (funits R) zero)
                 then (add (funits R) (fint S), sub (fint k) one)
                 else (funits R, fint k)
            else (copysign_zero (fint S), fint k)) as [md dv].
  subst dv. cbv beta iota zeta. unfold fst. rewrite T.
  destruct (Z.eqb_spec k 0) as [Z|NZ]; unfold negb.
  - rewrite Z. unfold copysign_zero.
    rewrite sign_NN; [reflexivity|].
    rewrite div_lift; [apply NN_lift|apply NN_funits|apply pos_finite_fint, HS].
  - rewrite floor_fint by exact K.
    unfold fint at 1 2. rewrite sub_funits;
      [|apply fin_units_int, K|apply fin_units_int, K
       |rewrite Z.sub_diag; apply ongrid_0].
    rewrite Z.sub_diag.
    replace (ltb half (funits 0)) with false by (vm_compute; reflexivity).
    reflexivity.
Qed.

End FloorDivision.

Section Packing.
Local Open Scope Z_scope.

Lemma Qfloor_units (X S : Z) :
  fin_units X -> 1 <= S ->
  Qfloor (F2Q (funits X) / inject_Z S) = X / (S * U).
Proof.
  intros FX HS. rewrite Zdiv_Qdiv. apply Qfloor_comp.
  rewrite (F2Q_funits X FX), inject_Z_mult. fold QU.
  pose proof QU_pos.
  assert (0 < inject_Z S)%Q by (change 0%Q with (inject_Z 0); rewrite <- Zlt_Qlt; lia).
  field. split; lra.
Qed.

Lemma round_units_le_int (q : Q) (n : Z) :
  (0 <= q)%Q -> (q <= inject_Z n)%Q -> 0 <= n <= 2 ^ 53 ->
  round_units (q * QU) <= n * U.
Proof.
  intros Q0 QL H. pose proof QU_pos.
  rewrite <- (round_units_exact (n * U) (ongrid_int n H)).
  apply round_units_mono.
  - apply Qmult_le_0_compat; lra.
  - rewrite inject_Z_mult. fold QU. apply Qmult_le_compat_r; lra.
Qed.

(** What one size leaves: an on-grid magnitude not above the size. *)
Lemma remainder_units (X S : Z) :
  ongrid X -> X < 2 ^ 53 * U -> 1 <= S < 2 ^ 53 ->
  exists X', ongrid X' /\ X' <= S * U /\
    Spec.round2_exact (F2Q (funits X) - inject_Z (X / (S * U) * S)) = funits X' /\
    round2 (funits (X mod (S * U))) = funits X'.
Proof.
  intros G B HS. pose proof U_pos as HU. pose proof QU_pos as HQ.
  pose proof (ongrid_nonneg X G) as X0.
  assert (FX : fin_units X) by (apply fin_units_small; assumption).
  assert (PY : 0 < S * U) by nia.
  set (k := X / (S * U)). set (R := X mod (S * U)).
  assert (DM : X = (k * S) * U + R).
  { unfold k, R. rewrite (Z.div_mod X (S * U)) at 1 by lia. ring. }
  assert (RB : 0 <= R < S * U) by (apply Z.mod_pos_bound; exact PY).
  assert (K0 : 0 <= k) by (apply Z.div_pos; lia).
  assert (GR : ongrid R).
  { replace R with (X - (k * S) * U) by lia. apply ongrid_remove; try assumption; nia. }
  assert (FR : fin_units R) by (apply fin_units_small; [assumption|lia]).
  assert (V : (F2Q (funits X) - inject_Z (k * S) == inject_Z R / QU)%Q).
  { rewrite (F2Q_funits X FX). rewrite DM at 1.
    rewrite inject_Z_plus, inject_Z_mult. fold QU. field. lra. }
  assert (R0 : (0 <= inject_Z R / QU)%Q) by (apply units_nonneg, FR).
  assert (RS : (inject_Z R / QU <= inject_Z S)%Q).
  { apply Qle_shift_div_r; [exact HQ|]. unfold QU.
    rewrite <- inject_Z_mult, <- Zle_Qle. lia. }
  exists (round_units (to_cents (inject_Z R / QU) * QU)).
  destruct (to_cents_mono _ _ R0 RS) as [T0 TS].
  rewrite to_cents_int in TS.
  split; [|split; [|split]].
  - apply round_units_ongrid. apply Qmult_le_0_compat; lra.
  - apply round_units_le_int; [exact T0|exact TS|lia].
  - unfold Spec.round2_exact. fold (to_cents (F2Q (funits X) - inject_Z (k * S))).
    rewrite (rnd_sm_comp false _ _ (to_cents_comp _ _ V)).
    unfold rnd_sm, funits, QU. reflexivity.
  - rewrite round2_funits by exact FR. unfold rnd_sm, funits, QU. reflexivity.
Qed.

Lemma pack_step_exact (X S : Z) (cans : dict Z) :
  ongrid X -> X < 2 ^ 53 * U -> 1 <= S < 2 ^ 53 ->
  pack_step (funits X, cans) (fint S) = Ok (Spec.greedy_step (funits X, cans) S) /\
  exists X', ongrid X' /\ X' < 2 ^ 53 * U /\
             fst (Spec.greedy_step (funits X, cans) S) = funits X'.
Proof.
  intros G B HS. pose proof U_pos as HU.
  pose proof (ongrid_nonneg X G) as X0.
  assert (FX : fin_units X) by (apply fin_units_small; assumption).
  assert (PY : 0 < S * U) by nia.
  destruct (remainder_units X S G B HS) as (X' & GX' & BX' & ES & EC).
  set (k := X / (S * U)) in *. set (R := X mod (S * U)) in *.
  assert (DM : X = (k * S) * U + R).
  { unfold k, R. rewrite (Z.div_mod X (S * U)) at 1 by lia. ring. }
  assert (RB : 0 <= R < S * U) by (apply Z.mod_pos_bound; exact PY).
  assert (K0 : 0 <= k) by (apply Z.div_pos; lia).
  assert (KS : 0 <= k * S <= 2 ^ 53) by nia.
  assert (K : 0 <= k <= 2 ^ 53) by nia.
  unfold pack_step, Spec.greedy_step.
  rewrite floordiv_exact by (try assumption; lia). fold k.
  rewrite (Qfloor_units X S FX) by lia. fold k.
  unfold bind at 1. rewrite int_of_float_fint by exact K. unfold bind at 1.
  destruct (Z.gtb_spec k 0) as [P|Z].
  - rewrite int_of_float_fint by lia. unfold bind at 1.
    unfold int_mul. rewrite float_of_int_fint by exact K. unfold bind.
    assert (EM : mul (fint k) (fint S) = fint (k * S)).
    { unfold fint. apply mul_funits;
        [apply fin_units_int, K|apply fin_units_int; lia|apply ongrid_int, KS|ring]. }
    assert (ESub : sub (funits X) (fint (k * S)) = funits R).
    { unfold fint. replace R with (X - k * S * U) by lia.
      apply sub_funits; [exact FX|apply fin_units_int, KS|].
      apply ongrid_remove; try assumption; lia. }
    rewrite EM, ESub, EC, ES. split; [reflexivity|].
    exists X'. split; [exact GX'|]. split; [nia|reflexivity].
  - split; [reflexivity|]. exists X. split; [exact G|]. split; [exact B|reflexivity].
Qed.

Lemma pack_loop_cons (s : float) (r : list float) (st : float * dict Z) :
  pack_loop (s :: r) st = bind (pack_step st s) (pack_loop r).
Proof. reflexivity. Qed.

Lemma pack_loop_nil (st : float * dict Z) : pack_loop [] st = Ok st.
Proof. reflexivity. Qed.

Lemma sizes_fint : can_sizes = [fint 10; fint 4; fint 1].
Proof.
  unfold can_sizes. rewrite !dec_int by lia. reflexivity.
Qed.

Lemma pack_step_state (st : float * dict Z) (X S : Z) :
  fst st = funits X -> ongrid X -> X < 2 ^ 53 * U -> 1 <= S < 2 ^ 53 ->
  pack_step st (fint S) = Ok (Spec.greedy_step st S) /\
  exists X', ongrid X' /\ X' < 2 ^ 53 * U /\
             fst (Spec.greedy_step st S) = funits X'.
Proof.
  destruct st as [r c]. simpl fst. intros ->. apply pack_step_exact.
Qed.

Lemma pack_loop_exact (st : float * dict Z) (X : Z) :
  fst st = funits X -> ongrid X -> X < 2 ^ 53 * U ->
  pack_loop can_sizes st = Ok (fold_left Spec.greedy_step [10; 4; 1] st) /\
  exists X', ongrid X' /\ X' < 2 ^ 53 * U /\
             fst (fold_left Spec.greedy_step [10; 4; 1] st) = funits X'.
Proof.
  intros F G B. rewrite sizes_fint. unfold fold_left.
  destruct (pack_step_state st X 10 F G B ltac:(lia)) as (E1 & X1 & G1 & B1 & F1).
  set (st1 := Spec.greedy_step st 10) in *.
  destruct (pack_step_state st1 X1 4 F1 G1 B1 ltac:(lia)) as (E2 & X2 & G2 & B2 & F2).
  set (st2 := Spec.greedy_step st1 4) in *.
  destruct (pack_step_state st2 X2 1 F2 G2 B2 ltac:(lia)) as (E3 & X3 & G3 & B3 & F3).
  split.
  - rewrite pack_loop_cons, E1. unfold bind at 1.
    rewrite pack_loop_cons, E2. unfold bind at 1.
    rewrite pack_loop_cons, E3. unfold bind at 1.
    apply pack_loop_nil.
  - exists X3. repeat split; assumption.
Qed.

(** For a requirement below [2^53] litres the suggested cans are those of
    the greedy rule in exact arithmetic. *)
Lemma paint_cans_exact (X : Z) :
  ongrid X -> X < 2 ^ 53 * U ->
  paint_cans (funits X) = Ok (Spec.greedy (funits X)).
Proof.
  intros G B. unfold paint_cans, Spec.greedy.
  destruct (pack_loop_exact (funits X, []) X eq_refl G B) as (E & X3 & G3 & B3 & F3).
  rewrite E. unfold bind.
  destruct (fold_left Spec.greedy_step [10; 4; 1] (funits X, [])) as [r3 c3].
  simpl fst in F3. subst r3. f_equal.
  assert (F3' : fin_units X3) by (apply fin_units_small; assumption).
  change zero with (funits 0).
  rewrite ltb_funits_iff; [|split; [apply ongrid_0|lia]|exact F3'].
  pose proof (F2Q_funits X3 F3') as V. pose proof QU_pos as HQ.
  destruct (Qlt_le_dec 0 (F2Q (funits X3))) as [P|N];
    destruct (Z.ltb_spec 0 X3) as [P'|N']; try reflexivity; exfalso.
  - rewrite V in P. assert (X3 = 0) by (pose proof (ongrid_nonneg X3 G3); lia).
    subst X3. unfold Qdiv in P. rewrite Qmult_0_l in P. lra.
  - rewrite V in N.
    assert (Q : (0 < inject_Z X3)%Q) by (change 0%Q with (inject_Z 0); rewrite <- Zlt_Qlt; lia).
    apply (Qle_not_lt _ _ N). apply Qlt_shift_div_l; lra.
Qed.

End Packing.

Section Algebra.
Local Open Scope Q_scope.

Lemma add_comm (x y : float) : add x y = add y x.
Proof.
  destruct x as [[]|[]| |sx mx ex], y as [[]|[]| |sy my ey];
    try reflexivity; unfold add; apply rnd_comp; ring.
Qed.

Lemma mul_comm (x y : float) : mul x y = mul y x.
Proof.
  destruct x as [sx|sx| |sx mx ex], y as [sy|sy| |sy my ey];
    try reflexivity; unfold mul; simpl sign; rewrite (xorb_comm sx sy);
    try reflexivity; apply rnd_comp; ring.
Qed.

Lemma add_lift (c x : float) :
  pos_finite c = true -> NN x -> add c x = lift (fun q => mag c + q) x.
Proof.
  intros C [N S]. destruct c as [| | |sc mc ec]; try discriminate.
  destruct sc; [discriminate|].
  pose proof (mag_finite_pos false mc ec) as P.
  destruct x as [s|s| |s m e]; simpl in S; subst; try congruence.
  - unfold add, lift. rewrite rnd_nonneg; [reflexivity|].
    unfold F2Q. simpl sign. cbv iota. change (mag (S754_zero false)) with 0. lra.
  - reflexivity.
  - unfold add, lift. rewrite rnd_nonneg; [reflexivity|].
    unfold F2Q. simpl sign. cbv iota.
    pose proof (mag_nonneg (S754_finite false m e)). lra.
Qed.

Lemma add_mono (c x y : float) :
  pos_finite c = true -> NN x -> NN y -> leb x y = true ->
  leb (add c x) (add c y) = true.
Proof.
  intros C Nx Ny L. rewrite !add_lift by assumption.
  apply lift_mono; try assumption.
  intros a b Ha Hab. pose proof (mag_pos_finite c C). split; lra.
Qed.

Lemma NN_add (c x : float) : pos_finite c = true -> NN x -> NN (add c x).
Proof. intros C Nx. rewrite add_lift by assumption. apply NN_lift. Qed.

End Algebra.

Section Plumbing.
Local Open Scope Z_scope.

Lemma plumbing_estimate_nonpos (p : Z) : p <= 0 -> plumbing_estimate p = Ok zero.
Proof.
  intros H. unfold plumbing_estimate, plumbing_estimate_with.
  destruct (Z.leb_spec p 0); [reflexivity|lia].
Qed.

(** While [500 + 300 p] fits 53 bits the estimate is that integer. *)
Lemma plumbing_estimate_exact (p : Z) :
  1 <= p <= 30000000000000 ->
  plumbing_estimate p = Ok (fint (500 + 300 * p)).
Proof.
  intros H. unfold plumbing_estimate, plumbing_estimate_with.
  destruct (Z.leb_spec p 0); [lia|].
  unfold int_mul. rewrite float_of_int_fint by lia. unfold bind.
  rewrite !dec_int by lia.
  assert (EM : mul (fint p) (fint 300) = fint (300 * p)).
  { unfold fint. apply mul_funits;
      [apply fin_units_int; lia|apply fin_units_int; lia|apply ongrid_int; lia|ring]. }
  assert (EA : add (fint 500) (fint (300 * p)) = fint (500 + 300 * p)).
  { unfold fint. rewrite add_funits;
      [f_equal; ring|apply fin_units_int; lia|apply fin_units_int; lia|].
    replace (500 * U + 300 * p * U) with ((500 + 300 * p) * U) by ring.
    apply ongrid_int; lia. }
  rewrite EM, EA, round2_fint by lia. reflexivity.
Qed.

Lemma F2Q_fint (n : Z) : 0 <= n <= 2 ^ 53 -> (F2Q (fint n) == inject_Z n)%Q.
Proof.
  intros H. unfold fint. rewrite F2Q_funits by (apply fin_units_int, H).
  apply units_div.
Qed.

Lemma ltb_fint (a b : Z) :
  0 <= a <= 2 ^ 53 -> 0 <= b <= 2 ^ 53 -> ltb (fint a) (fint b) = (a <? b).
Proof.
  intros Ha Hb. unfold fint.
  rewrite ltb_funits_iff by (apply fin_units_int; assumption).
  pose proof U_pos.
  destruct (Z.ltb_spec (a * U) (b * U)), (Z.ltb_spec a b); try reflexivity; nia.
Qed.

Lemma leb_fint (a b : Z) :
  0 <= a <= 2 ^ 53 -> 0 <= b <= 2 ^ 53 -> leb (fint a) (fint b) = (a <=? b).
Proof.
  intros Ha Hb. unfold fint.
  rewrite leb_funits by (apply fin_units_int; assumption).
  pose proof U_pos.
  destruct (Z.leb_spec (a * U) (b * U)), (Z.leb_spec a b); try reflexivity; nia.
Qed.

Lemma fint_inj (a b : Z) :
  0 <= a <= 2 ^ 53 -> 0 <= b <= 2 ^ 53 -> fint a = fint b -> a = b.
Proof.
  intros Ha Hb E. pose proof (F2Q_fint a Ha) as Va. rewrite E in Va.
  rewrite (F2Q_fint b Hb) in Va. symmetry. apply inject_Z_injective, Va.
Qed.

(** A float obtained from an [int] of at least one is nonnegative and at
    least [1.0]. *)
Lemma float_of_int_ge_1 (p : Z) (f : float) :
  1 <= p -> float_of_int p = Ok f -> NN f /\ leb (fint 1) f = true.
Proof.
  intros H. unfold float_of_int.
  assert (P : (0 <= inject_Z p)%Q) by (change 0%Q with (inject_Z 0); rewrite <- Zle_Qle; lia).
  rewrite rnd_nonneg by exact P. intros E.
  assert (F : f = rnd_sm false (inject_Z p)).
  { destruct (rnd_sm false (inject_Z p)); congruence. }
  subst f. split; [apply NN_rnd_sm|].
  replace (fint 1) with (rnd_sm false (inject_Z 1)).
  - apply rnd_sm_mono; [change 0%Q with (inject_Z 0)|]; rewrite <- Zle_Qle; lia.
  - apply rnd_sm_funits; [apply ongrid_int; lia|]. rewrite units_div. reflexivity.
Qed.

(** Whatever the point count, a plumbing estimate that is produced for a
    positive count is at least 800. *)
Lemma Ok_inj {A : Type} (a b : A) : Ok a = Ok b -> a = b.
Proof. intros H. inversion H. reflexivity. Qed.

Lemma plumbing_estimate_ge_800 (p : Z) (t : float) :
  1 <= p -> plumbing_estimate p = Ok t -> NN t /\ leb (fint 800) t = true.
Proof.
  intros H. unfold plumbing_estimate, plumbing_estimate_with.
  destruct (Z.leb_spec p 0); [lia|].
  unfold int_mul. destruct (float_of_int p) as [f|e] eqn:E; [|discriminate].
  unfold bind. intros T. apply Ok_inj in T. subst t.
  destruct (float_of_int_ge_1 p f H E) as [Nf Lf].
  rewrite !dec_int by lia.
  assert (C3 : pos_finite (fint 300) = true) by (apply pos_finite_fint; lia).
  assert (C5 : pos_finite (fint 500) = true) by (apply pos_finite_fint; lia).
  assert (N1 : NN (fint 1)) by apply NN_funits.
  pose proof (mul_mono (fint 300) (fint 1) f C3 N1 Nf Lf) as M.
  pose proof (add_mono (fint 500) _ _ C5 (NN_mul _ _ C3 N1) (NN_mul _ _ C3 Nf) M) as A.
  pose proof (round2_mono _ _ (NN_add _ _ C5 (NN_mul _ _ C3 N1))
                (NN_add _ _ C5 (NN_mul _ _ C3 Nf)) A) as R.
  split; [apply NN_round2, NN_add; [exact C5|apply NN_mul; assumption]|].
  assert (EM : mul (fint 1) (fint 300) = fint 300).
  { unfold fint. rewrite (mul_funits (1 * U) (300 * U) (300 * U));
      [reflexivity|apply fin_units_int; lia|apply fin_units_int; lia|apply ongrid_int; lia|ring]. }
  assert (EA : add (fint 500) (fint 300) = fint 800).
  { unfold fint. rewrite add_funits;
      [f_equal; ring|apply fin_units_int; lia|apply fin_units_int; lia|].
    replace (500 * U + 300 * U) with (800 * U) by ring. apply ongrid_int; lia. }
  rewrite EM, EA, round2_fint in R by lia. exact R.
Qed.

End Plumbing.

Section Idempotence.
Local Open Scope Q_scope.


Lemma p2_mono (a b : Z) : (0 <= a <= b)%Z -> p2 a <= p2 b.
Proof.
  intros H. unfold p2. rewrite <- Zle_Qle. apply Z.pow_le_mono_r; lia.
Qed.

Lemma inject_Z_pos (z : Z) : (0 < z)%Z -> 0 < inject_Z z.
Proof. intros H. change 0 with (inject_Z 0). rewrite <- Zlt_Qlt. exact H. Qed.

Lemma inject_Z_nonneg (z : Z) : (0 <= z)%Z -> 0 <= inject_Z z.
Proof. intros H. change 0 with (inject_Z 0). rewrite <- Zle_Qle. exact H. Qed.

(** When [100 * M] is a whole number of units, rounding [M] units to two
    decimals and back changes nothing. *)
Lemma cents_units_whole (M z : Z) :
  ongrid M -> (100 * M = z * U)%Z ->
  round_units (to_cents (inject_Z M / QU) * QU) = M.
Proof.
  intros G H. pose proof QU_pos as HU.
  rewrite <- (round_units_exact M G) at 2. apply round_units_comp.
  assert (E : 100 * (inject_Z M / QU) == inject_Z z).
  { assert (K : inject_Z 100 * inject_Z M == inject_Z z * QU).
    { unfold QU. rewrite <- !inject_Z_mult, H. reflexivity. }
    change (inject_Z 100) with 100 in K.
    transitivity (100 * inject_Z M / QU); [field; lra|]. rewrite K. field. lra. }
  unfold to_cents. rewrite (Qrne_comp _ _ E), Qrne_Z, <- E. field. lra.
Qed.

(** The error of [round_units], in value. *)
Lemma round_value_error (q : Q) :
  0 <= q ->
  let M := round_units (q * QU) in
  let u := p2 (binade (Qfloor (q * QU))) / QU in
  inject_Z M / QU - u / 2 <= q /\ q <= inject_Z M / QU + u / 2.
Proof.
  intros Hq M u. pose proof QU_pos as HU.
  assert (X0 : 0 <= q * QU) by (apply Qmult_le_0_compat; lra).
  destruct (round_units_error (q * QU) X0) as [L H]. fold M in L, H.
  set (e := p2 (binade (Qfloor (q * QU)))) in *.
  assert (I : 0 < / QU) by (apply Qinv_lt_0_compat, HU).
  assert (L' : (inject_Z M - e / 2) * / QU <= q * QU * / QU)
    by (apply Qmult_le_compat_r; lra).
  assert (H' : q * QU * / QU <= (inject_Z M + e / 2) * / QU)
    by (apply Qmult_le_compat_r; lra).
  assert (E : q * QU * / QU == q) by (field; lra).
  rewrite E in L', H'. unfold u. split.
  - apply Qle_trans with (2 := L'). apply Qle_lteq. right. field. lra.
  - apply Qle_trans with (1 := H'). apply Qle_lteq. right. field. lra.
Qed.

Lemma U_split (k : Z) : (0 <= k <= 1074)%Z -> U = (2 ^ (1074 - k) * 2 ^ k)%Z.
Proof. intros H. unfold U. rewrite <- Z.pow_add_r by lia. f_equal. lia. Qed.

Lemma round2_units_idem (n : Z) :
  (0 <= n)%Z ->
  let M := round_units (inject_Z n / 100 * QU) in
  round_units (to_cents (inject_Z M / QU) * QU) = M.
Proof.
  intros Hn M. pose proof QU_pos as HU.
  set (c := inject_Z n / 100) in *.
  assert (C0 : 0 <= c).
  { unfold c. apply Qle_shift_div_l; [reflexivity|]. rewrite Qmult_0_l.
    apply inject_Z_nonneg, Hn. }
  assert (X0 : 0 <= c * QU) by (apply Qmult_le_0_compat; lra).
  pose proof (round_units_ongrid _ X0) as G. fold M in G.
  pose proof (binade_nonneg (Qfloor (c * QU))) as K0.
  pose proof (round_units_eq (c * QU)) as EM. fold M in EM.
  set (k := binade (Qfloor (c * QU))) in *. set (m := mant (c * QU)) in *.
  pose proof (pow2_pos k K0) as P.
  destruct (Z_le_gt_dec k 1067) as [B|B].
  - (* the two-decimal value is recovered *)
    apply round_units_comp. apply Qmult_comp; [|reflexivity].
    destruct (round_value_error c C0) as [L H]. fold M k in L, H.
    assert (S : 100 * (p2 k / QU) < 1).
    { assert (Z100 : (100 * 2 ^ k < U)%Z).
      { apply Z.lt_le_trans with (128 * 2 ^ 1067)%Z.
        - assert (2 ^ k <= 2 ^ 1067)%Z by (apply Z.pow_le_mono_r; lia). lia.
        - unfold U. change 128%Z with (2 ^ 7)%Z. rewrite <- Z.pow_add_r by lia.
          apply Z.pow_le_mono_r; lia. }
      assert (Q100 : inject_Z 100 * p2 k < QU).
      { unfold p2, QU. rewrite <- inject_Z_mult, <- Zlt_Qlt. exact Z100. }
      change (inject_Z 100) with 100 in Q100.
      assert (D : 100 * p2 k / QU < 1).
      { apply Qlt_shift_div_r; [exact HU|]. rewrite Qmult_1_l. exact Q100. }
      apply Qle_lt_trans with (2 := D). apply Qle_lteq. right. field. lra. }
    unfold to_cents. cbv zeta in L, H.
    set (w := inject_Z M / QU) in *. set (u := p2 k / QU) in *.
    rewrite (Qrne_unique (100 * w) n).
    + reflexivity.
    + unfold c in L, H. clearbody w u. qnorm. lra.
    + unfold c in L, H. clearbody w u. qnorm. lra.
  - destruct (mant_range (c * QU) X0) as [[Kz _]|[K1 MR]]; fold k in Kz || fold k in K1;
      [lia|]. fold m in MR.
    destruct (Z_le_gt_dec 1072 k) as [A|A].
    + (* multiples of a quarter *)
      apply (cents_units_whole M (25 * m * 2 ^ (k - 1072))); [exact G|].
      rewrite EM. unfold U.
      replace (2 ^ 1074)%Z with (4 * 2 ^ 1072)%Z by (change 4%Z with (2 ^ 2)%Z;
        rewrite <- Z.pow_add_r by lia; reflexivity).
      replace k with ((k - 1072) + 1072)%Z at 1 by lia.
      rewrite Z.pow_add_r by lia. ring.
    + destruct (Z.eq_dec m (2 ^ 52)) as [E52|N52];
        [|destruct (Z.eq_dec m (2 ^ 53)) as [E53|N53]].
      * apply (cents_units_whole M (100 * 2 ^ (52 + k - 1074))); [exact G|].
        rewrite EM, E52. unfold U. rewrite <- !Z.pow_add_r by lia.
        rewrite <- Z.mul_assoc, <- Z.pow_add_r by lia. do 2 f_equal. lia.
      * apply (cents_units_whole M (100 * 2 ^ (53 + k - 1074))); [exact G|].
        rewrite EM, E53. unfold U. rewrite <- !Z.pow_add_r by lia.
        rewrite <- Z.mul_assoc, <- Z.pow_add_r by lia. do 2 f_equal. lia.
      * (* strictly inside the binade *)
        assert (ML : (2 ^ 52 + 1 <= m <= 2 ^ 53 - 1)%Z) by lia.
        set (w := inject_Z M / QU). set (c' := to_cents w).
        assert (WQ : w * QU == inject_Z M) by (unfold w; field; lra).
        destruct (Qrne_bounds (100 * w)) as [RL RH].
        assert (DL : - (1 # 200) <= c' - w).
        { unfold c', to_cents. qnorm. lra. }
        assert (DH : c' - w <= 1 # 200).
        { unfold c', to_cents. qnorm. lra. }
        assert (XE : c' * QU == inject_Z M + (c' - w) * QU) by (rewrite <- WQ; ring).
        assert (XL : inject_Z M - (1 # 200) * QU <= c' * QU).
        { rewrite XE. assert (- (1 # 200) * QU <= (c' - w) * QU)
            by (apply Qmult_le_compat_r; lra). lra. }
        assert (XH : c' * QU <= inject_Z M + (1 # 200) * QU).
        { rewrite XE. assert ((c' - w) * QU <= (1 # 200) * QU)
            by (apply Qmult_le_compat_r; lra). lra. }
        assert (EQ : QU <= 64 * p2 k).
        { apply Qle_trans with (64 * p2 1068).
          - unfold QU, p2, U. change 64 with (inject_Z (2 ^ 6)).
            rewrite <- inject_Z_mult, <- Z.pow_add_r by lia. apply Qle_refl.
          - apply Qmult_le_l; [reflexivity|]. apply p2_mono. lia. }
        pose proof (p2_pos k K0) as EP.
        assert (MQ : inject_Z M == inject_Z m * p2 k).
        { rewrite EM, inject_Z_mult. reflexivity. }
        assert (PL : p2 (52 + k) + p2 k <= inject_Z M).
        { rewrite MQ, (p2_add 52 k) by lia.
          setoid_replace (p2 52 * p2 k + p2 k) with ((p2 52 + 1) * p2 k) by ring.
          apply Qmult_le_compat_r; [|lra]. unfold p2.
          change 1 with (inject_Z 1). rewrite <- inject_Z_plus, <- Zle_Qle. lia. }
        assert (PH : inject_Z M <= p2 (53 + k) - p2 k).
        { rewrite MQ, (p2_add 53 k) by lia.
          setoid_replace (p2 53 * p2 k - p2 k) with ((p2 53 - 1) * p2 k) by ring.
          apply Qmult_le_compat_r; [|lra]. unfold p2.
          change 1 with (inject_Z 1). rewrite <- inject_Z_sub, <- Zle_Qle. lia. }
        pose proof (p2_pos (52 + k) ltac:(lia)) as PLP.
        rewrite EM. apply round_units_unique.
        -- lra.
        -- apply binade_unique; [exact K1|]. split.
           ++ rewrite <- (Qfloor_Z (2 ^ (52 + k))). apply Qfloor_resp_le.
              fold (p2 (52 + k)). lra.
           ++ rewrite Zlt_Qlt. fold (p2 (53 + k)).
              apply Qle_lt_trans with (c' * QU); [apply Qfloor_le|]. lra.
        -- setoid_replace ((inject_Z m - (1 # 2)) * p2 k)
             with (inject_Z M - (1 # 2) * p2 k) by (rewrite MQ; ring). lra.
        -- setoid_replace ((inject_Z m + (1 # 2)) * p2 k)
             with (inject_Z M + (1 # 2) * p2 k) by (rewrite MQ; ring). lra.
Qed.

(** [round(x, 2)] is idempotent. *)
Lemma round2_idempotent (y : float) : round2 (round2 y) = round2 y.
Proof.
  destruct y as [s|s| |s m e]; try reflexivity.
  set (q := mag (S754_finite s m e)).
  assert (Q0 : 0 <= q) by apply mag_nonneg.
  set (n := Qrne (100 * q)).
  assert (N0 : (0 <= n)%Z) by (apply Qrne_nonneg; lra).
  pose proof (round2_units_idem n N0) as I. cbv zeta in I.
  set (M := round_units (inject_Z n / 100 * QU)) in *.
  assert (E : round2 (S754_finite s m e) = decode s M).
  { unfold round2, rnd_sm, M, n, q, QU. reflexivity. }
  rewrite E.
  assert (G : ongrid M).
  { apply round_units_ongrid. pose proof QU_pos.
    apply Qmult_le_0_compat; [|lra].
    apply Qle_shift_div_l; [reflexivity|]. rewrite Qmult_0_l.
    apply inject_Z_nonneg, N0. }
  pose proof (decode_spec s M G) as DS.
  remember (decode s M) as d eqn:Hd.
  destruct DS as [Z|B|m' e' R V]; try reflexivity.
  rewrite Hd at 2. unfold round2, rnd_sm. fold QU. f_equal.
  rewrite <- I. apply round_units_comp.
  apply Qmult_comp; [|reflexivity].
  apply to_cents_comp. exact V.
Qed.

End Idempotence.

Section Cents.
Local Open Scope Q_scope.


Lemma cents_arg_nonneg (n : Z) : (0 <= n)%Z -> 0 <= inject_Z n / 100.
Proof.
  intros H. apply Qle_shift_div_l; [reflexivity|]. rewrite Qmult_0_l.
  apply inject_Z_nonneg, H.
Qed.

Lemma cents_0 : cents 0 = zero.
Proof. unfold cents. apply rnd_sm_0. reflexivity. Qed.

Lemma Qfloor_unique (q : Q) (z : Z) :
  inject_Z z <= q -> q < inject_Z z + 1 -> Qfloor q = z.
Proof.
  intros L H. destruct (Qfloor_bounds q) as [L' H'].
  assert (A : inject_Z (Qfloor q) < inject_Z z + 1) by lra.
  assert (B : inject_Z z < inject_Z (Qfloor q) + 1) by lra.
  change 1 with (inject_Z 1) in A, B.
  rewrite <- inject_Z_plus, <- Zlt_Qlt in A, B. lia.
Qed.

(** Values of at most [2^44] are within [2^-9] of their hundredths. *)
Lemma cents_error (n : Z) :
  (0 <= n <= 100 * 2 ^ 44)%Z ->
  F2Q (cents n) - (1 # 512) <= inject_Z n / 100 /\
  inject_Z n / 100 <= F2Q (cents n) + (1 # 512) /\
  exists X, cents n = funits X /\ ongrid X /\ (X <= 2 ^ 44 * U)%Z.
Proof.
  intros H. pose proof QU_pos as HU.
  set (c := inject_Z n / 100).
  assert (C0 : 0 <= c) by (apply cents_arg_nonneg; lia).
  assert (C1 : c <= inject_Z (2 ^ 44)).
  { unfold c. apply Qle_shift_div_r; [reflexivity|].
    change (inject_Z (2 ^ 44) * 100) with (inject_Z (2 ^ 44) * inject_Z 100).
    rewrite <- (inject_Z_mult (2 ^ 44) 100), <- Zle_Qle. lia. }
  assert (X0 : 0 <= c * QU) by (apply Qmult_le_0_compat; lra).
  set (M := round_units (c * QU)).
  assert (G : ongrid M) by (apply round_units_ongrid, X0).
  assert (MB : (M <= 2 ^ 44 * U)%Z).
  { apply round_units_le_int; [exact C0|exact C1|lia]. }
  assert (F : fin_units M).
  { apply fin_units_small; [exact G|]. pose proof U_pos. nia. }
  assert (E : cents n = funits M) by reflexivity.
  destruct (round_value_error c C0) as [L R]. fold M in L, R.
  set (k := binade (Qfloor (c * QU))) in *.
  assert (K : (k <= 1066)%Z).
  { assert (QF : (Qfloor (c * QU) <= 2 ^ 44 * U)%Z).
    { rewrite <- (Qfloor_Z (2 ^ 44 * U)). apply Qfloor_resp_le.
      rewrite inject_Z_mult. fold QU. apply Qmult_le_compat_r; lra. }
    pose proof (binade_mono _ _ QF) as BM. fold k in BM.
    assert (BE : binade (2 ^ 44 * U) = 1066%Z).
    { apply binade_unique; [lia|]. unfold U. rewrite <- !Z.pow_add_r by lia.
      split; [apply Z.pow_le_mono_r; lia|apply Z.pow_lt_mono_r; lia]. }
    lia. }
  assert (UB : p2 k / QU <= 1 # 256).
  { apply Qle_shift_div_r; [exact HU|].
    apply Qle_trans with (p2 1066); [apply p2_mono; pose proof (binade_nonneg (Qfloor (c * QU))); lia|].
    unfold p2, QU, U.
    setoid_replace ((1 # 256) * inject_Z (2 ^ 1074)) with (inject_Z (2 ^ 1066)).
    - apply Qle_refl.
    - replace (2 ^ 1074)%Z with (256 * 2 ^ 1066)%Z
        by (change 256%Z with (2 ^ 8)%Z; rewrite <- Z.pow_add_r by lia; reflexivity).
      rewrite inject_Z_mult. change (inject_Z 256) with 256. field. }
  rewrite E, (F2Q_funits M F).
  set (w := inject_Z M / QU) in *. set (u := p2 k / QU) in *.
  clearbody w u. cbv zeta in L, R.
  repeat split; try (qnorm; lra).
  exists M. repeat split; assumption.
Qed.


Lemma cents_mono (a b : Z) :
  (0 <= a <= b)%Z -> leb (cents a) (cents b) = true.
Proof.
  intros H. apply rnd_sm_mono; [apply cents_arg_nonneg; lia|].
  apply Qmult_le_compat_r; [rewrite <- Zle_Qle; lia|]. apply Qlt_le_weak. reflexivity.
Qed.

Lemma cents_whole (z : Z) : (0 <= z <= 2 ^ 53)%Z -> cents (100 * z) = fint z.
Proof.
  intros H. unfold cents, fint. apply rnd_sm_funits; [apply ongrid_int, H|].
  rewrite units_div, inject_Z_mult. change (inject_Z 100) with 100. field.
Qed.

Lemma leb_F2Q (x y : float) :
  NN x -> NN y -> isinf x = false -> isinf y = false ->
  leb x y = true -> F2Q x <= F2Q y.
Proof.
  intros Nx Ny Ix Iy L. rewrite (F2Q_NN x Nx), (F2Q_NN y Ny).
  destruct (leb_NN_cases x y Nx Ny L) as [I|(_ & _ & M)]; [congruence|exact M].
Qed.

(** The value of [cents n] is at least any whole number below [n/100]. *)
Lemma cents_ge_whole (n z : Z) :
  (0 <= z)%Z -> (100 * z <= n <= 100 * 2 ^ 44)%Z -> inject_Z z <= F2Q (cents n).
Proof.
  intros Hz H.
  assert (Z53 : (0 <= z <= 2 ^ 53)%Z) by lia.
  rewrite <- (F2Q_fint z Z53), <- (cents_whole z Z53).
  destruct (cents_error n ltac:(lia)) as (_ & _ & X & E & G & B).
  destruct (cents_error (100 * z) ltac:(lia)) as (_ & _ & X' & E' & G' & B').
  apply leb_F2Q.
  - rewrite E'. apply NN_funits.
  - rewrite E. apply NN_funits.
  - rewrite E'. apply isinf_funits, fin_units_small; [exact G'|pose proof U_pos; nia].
  - rewrite E. apply isinf_funits, fin_units_small; [exact G|pose proof U_pos; nia].
  - apply cents_mono. lia.
Qed.

(** One size of the greedy rule on a requirement given in hundredths. *)
Lemma greedy_step_cents (n S : Z) (cans : dict Z) :
  (0 <= n <= 100 * 2 ^ 44)%Z -> (1 <= S)%Z ->
  Spec.greedy_step (cents n, cans) S =
  if (n / (100 * S) >? 0)%Z
  then (cents (n mod (100 * S))%Z,
        dict_set (str S ++ "L") (n / (100 * S))%Z cans)
  else (cents n, cans).
Proof.
  intros Hn HS. unfold Spec.greedy_step.
  set (K := (n / (100 * S))%Z).
  assert (DM : (n = 100 * S * K + n mod (100 * S))%Z) by (apply Z.div_mod; lia).
  assert (RB : (0 <= n mod (100 * S) < 100 * S)%Z) by (apply Z.mod_pos_bound; lia).
  assert (K0 : (0 <= K)%Z) by (apply Z.div_pos; lia).
  destruct (cents_error n Hn) as (EL & EH & _).
  pose proof (cents_ge_whole n (K * S) ltac:(nia) ltac:(nia)) as GE.
  set (v := F2Q (cents n)) in *.
  assert (QS : 0 < inject_Z S) by (apply inject_Z_pos; lia).
  assert (NQ : inject_Z n == 100 * inject_Z S * inject_Z K + inject_Z (n mod (100 * S))).
  { rewrite DM at 1. rewrite inject_Z_plus, !inject_Z_mult. reflexivity. }
  assert (RQ : inject_Z (n mod (100 * S)) <= 100 * inject_Z S - 1).
  { change 100 with (inject_Z 100). change 1 with (inject_Z 1).
    rewrite <- inject_Z_mult, <- inject_Z_sub, <- Zle_Qle. lia. }
  assert (RQ0 : 0 <= inject_Z (n mod (100 * S))) by (apply inject_Z_nonneg; lia).
  rewrite inject_Z_mult in GE.
  assert (F : Qfloor (v / inject_Z S) = K).
  { apply Qfloor_unique.
    - apply Qle_shift_div_l; [exact QS|exact GE].
    - apply Qlt_shift_div_r; [exact QS|].
      clearbody v. qnorm.
      setoid_replace ((inject_Z K + 1) * inject_Z S)
        with (inject_Z S * inject_Z K + inject_Z S) by ring.
      set (sk := inject_Z S * inject_Z K) in *.
      setoid_replace (100 * inject_Z S * inject_Z K) with (100 * sk) in NQ by (unfold sk; ring).
      clearbody sk. lra. }
  rewrite F. destruct (Z.gtb_spec K 0) as [P|Z]; [|reflexivity].
  f_equal. unfold Spec.round2_exact, cents. do 3 f_equal.
  apply Qrne_unique.
  - rewrite inject_Z_mult. clearbody v. qnorm.
    set (sk := inject_Z K * inject_Z S) in *.
    setoid_replace (100 * inject_Z S * inject_Z K) with (100 * sk) in NQ by (unfold sk; ring).
    clearbody sk. lra.
  - rewrite inject_Z_mult. clearbody v. qnorm.
    set (sk := inject_Z K * inject_Z S) in *.
    setoid_replace (100 * inject_Z S * inject_Z K) with (100 * sk) in NQ by (unfold sk; ring).
    clearbody sk. lra.
Qed.


Lemma cents_positive (n : Z) :
  (1 <= n <= 100 * 2 ^ 44)%Z -> 0 < F2Q (cents n).
Proof.
  intros H. destruct (cents_error n ltac:(lia)) as (_ & EH & _).
  assert (1 <= inject_Z n) by (change 1 with (inject_Z 1); rewrite <- Zle_Qle; lia).
  set (v := F2Q (cents n)) in *. clearbody v. qnorm. lra.
Qed.

(** The residue rule on a requirement in hundredths. *)
Lemma residue_cents (n : Z) (cans : dict Z) :
  (0 <= n <= 100 * 2 ^ 44)%Z ->
  (if Qlt_le_dec 0 (F2Q (cents n))
   then dict_set "1L" (dict_get "1L" 0 cans + 1)%Z cans else cans) =
  (if (0 <? n)%Z
   then dict_set "1L" (dict_get "1L" 0 cans + 1)%Z cans else cans).
Proof.
  intros H. destruct (Z.ltb_spec 0 n) as [P|Z];
    destruct (Qlt_le_dec 0 (F2Q (cents n))) as [P'|Z']; try reflexivity; exfalso.
  - pose proof (cents_positive n ltac:(lia)). lra.
  - assert (n = 0)%Z by lia. subst n. rewrite cents_0 in P'.
    apply (Qlt_irrefl 0). exact P'.
Qed.

(** Cans for a requirement of [n1] hundredths below ten litres, after
    [k10] ten-litre cans: the capacity is [10 k10 + ceil(n1/100)]. *)
Lemma tail_capacity (n1 k10 : Z) (c1 : dict Z) :
  (0 <= n1 <= 1000)%Z ->
  (c1 = [] /\ k10 = 0%Z) \/ c1 = [("10L"%string, k10)] ->
  let st := Spec.greedy_step (Spec.greedy_step (cents n1, c1) 4) 1 in
  let final := if Qlt_le_dec 0 (F2Q (fst st))
               then dict_set "1L" (dict_get "1L" 0 (snd st) + 1)%Z (snd st)
               else snd st in
  Spec.capacity final = (10 * k10 + (n1 + 99) / 100)%Z.
Proof.
  intros H C st final. unfold final, st. clear final st.
  rewrite (greedy_step_cents n1 4 c1) by lia.
  change (100 * 4)%Z with 400%Z.
  assert (R400 : (0 <= n1 mod 400 < 400)%Z) by (apply Z.mod_pos_bound; lia).
  assert (D400 : (n1 = 400 * (n1 / 400) + n1 mod 400)%Z) by (apply Z.div_mod; lia).
  assert (Q400 : (0 <= n1 / 400 <= 2)%Z) by lia.
  set (k4 := (n1 / 400)%Z) in *. set (n2' := (n1 mod 400)%Z) in *.
  assert (exists n2 c2, (if (k4 >? 0)%Z
            then (cents n2', dict_set (str 4 ++ "L") k4 c1) else (cents n1, c1))
            = (cents n2, c2) /\ n2 = n2' /\
            c2 = if (k4 >? 0)%Z then dict_set "4L" k4 c1 else c1) as (n2 & c2 & -> & -> & Hc2).
  { destruct (Z.gtb_spec k4 0) as [P|Z].
    - exists n2', (dict_set "4L" k4 c1). repeat split.
    - exists n1, c1. repeat split. lia. }
  rewrite (greedy_step_cents n2' 1 c2) by lia.
  change (100 * 1)%Z with 100%Z.
  assert (R100 : (0 <= n2' mod 100 < 100)%Z) by (apply Z.mod_pos_bound; lia).
  assert (D100 : (n2' = 100 * (n2' / 100) + n2' mod 100)%Z) by (apply Z.div_mod; lia).
  set (k1 := (n2' / 100)%Z) in *. set (n3 := (n2' mod 100)%Z) in *.
  assert (CE : ((n1 + 99) / 100 = 4 * k4 + k1 + if (0 <? n3)%Z then 1 else 0)%Z).
  { destruct (Z.ltb_spec 0 n3).
    - symmetry. apply Z.div_unique with (n3 - 1)%Z; lia.
    - symmetry. apply Z.div_unique with 99%Z; lia. }
  rewrite CE.
  change (str 1 ++ "L")%string with "1L"%string.
  destruct (Z.gtb_spec k1 0) as [P1|Z1]; simpl fst; simpl snd;
    rewrite residue_cents by lia;
    try replace (0 <? n2')%Z with (0 <? n3)%Z by (f_equal; lia);
    destruct (Z.ltb_spec 0 n3) as [P3|Z3]; subst c2;
    destruct (Z.gtb_spec k4 0) as [P4|Z4];
    destruct C as [[-> ->]| ->]; cbn -[Z.mul Z.add];
    unfold Spec.capacity; cbn -[Z.mul Z.add]; lia.
Qed.


Lemma funits_eq (M X : Z) :
  ongrid M -> fin_units X -> funits M = funits X -> M = X.
Proof.
  intros G FX E. pose proof QU_pos as HU.
  destruct (Z_lt_le_dec M (2 ^ 2098)) as [B|B].
  - pose proof (F2Q_funits M (conj G B)) as VM.
    rewrite E, (F2Q_funits X FX) in VM.
    apply inject_Z_injective.
    assert (K : inject_Z X / QU * QU == inject_Z M / QU * QU) by (rewrite VM; reflexivity).
    field_simplify in K; [|lra|lra]. symmetry. exact K.
  - exfalso. pose proof (isinf_funits X FX) as I. rewrite <- E in I.
    unfold funits in I. destruct (decode_spec false M G) as [Z|_|m e R _]; try lia.
    discriminate I.
Qed.

Lemma cents_le_whole (n z : Z) :
  (0 <= n <= 100 * z)%Z -> (z <= 2 ^ 44)%Z -> F2Q (cents n) <= inject_Z z.
Proof.
  intros H Hz.
  assert (Z53 : (0 <= z <= 2 ^ 53)%Z) by lia.
  rewrite <- (F2Q_fint z Z53), <- (cents_whole z Z53).
  destruct (cents_error n ltac:(lia)) as (_ & _ & X & E & G & B).
  destruct (cents_error (100 * z) ltac:(lia)) as (_ & _ & X' & E' & G' & B').
  apply leb_F2Q.
  - rewrite E. apply NN_funits.
  - rewrite E'. apply NN_funits.
  - rewrite E. apply isinf_funits, fin_units_small; [exact G|pose proof U_pos; nia].
  - rewrite E'. apply isinf_funits, fin_units_small; [exact G'|pose proof U_pos; nia].
  - apply cents_mono. lia.
Qed.

Lemma Qrne_units_bounds (R : Z) :
  let n := Qrne (100 * (inject_Z R / QU)) in
  ((2 * n - 1) * U <= 200 * R <= (2 * n + 1) * U)%Z.
Proof.
  intros n. pose proof QU_pos as HU.
  destruct (Qrne_bounds (100 * (inject_Z R / QU))) as [L H]. fold n in L, H.
  set (w := inject_Z R / QU) in *.
  assert (WQ : w * QU == inject_Z R) by (unfold w; field; lra).
  assert (L' : (inject_Z n - (1 # 2)) * QU <= 100 * w * QU)
    by (apply Qmult_le_compat_r; lra).
  assert (H' : 100 * w * QU <= (inject_Z n + (1 # 2)) * QU)
    by (apply Qmult_le_compat_r; lra).
  assert (E : 100 * w * QU == 100 * inject_Z R) by (rewrite <- WQ; ring).
  rewrite E in L', H'. split.
  - rewrite Zle_Qle, !inject_Z_mult, inject_Z_sub, inject_Z_mult. fold QU.
    change (inject_Z 2) with 2. change (inject_Z 1) with 1.
    change (inject_Z 200) with 200.
    set (a := inject_Z n) in *. set (b := inject_Z R) in *.
    set (nu := a * QU) in *.
    setoid_replace ((2 * a - 1) * QU) with (2 * nu - QU) by (unfold nu; ring).
    setoid_replace ((a - (1 # 2)) * QU) with (nu - (1 # 2) * QU) in L' by (unfold nu; ring).
    clearbody nu b. lra.
  - rewrite Zle_Qle, !inject_Z_mult, inject_Z_plus, inject_Z_mult. fold QU.
    change (inject_Z 2) with 2. change (inject_Z 1) with 1.
    change (inject_Z 200) with 200.
    set (a := inject_Z n) in *. set (b := inject_Z R) in *.
    set (nu := a * QU) in *.
    setoid_replace ((2 * a + 1) * QU) with (2 * nu + QU) by (unfold nu; ring).
    setoid_replace ((a + (1 # 2)) * QU) with (nu + (1 # 2) * QU) in H' by (unfold nu; ring).
    clearbody nu b. lra.
Qed.


(** No float of two decimals lies strictly between a whole number [I] and
    [I + 1/200]. *)
Lemma cents_gap (n0 X I D : Z) :
  (0 <= n0)%Z -> cents n0 = funits X -> ongrid X -> (X < 2 ^ 53 * U)%Z ->
  (0 <= I)%Z -> (X = I * U + D)%Z -> (0 < D)%Z -> (200 * D <= U)%Z -> False.
Proof.
  intros Hn E G B HI HX HD H200. pose proof QU_pos as HU. pose proof U_pos as UP.
  assert (FX : fin_units X) by (apply fin_units_small; assumption).
  set (c := inject_Z n0 / 100).
  assert (C0 : 0 <= c) by (apply cents_arg_nonneg, Hn).
  assert (X0 : 0 <= c * QU) by (apply Qmult_le_0_compat; lra).
  set (M0 := round_units (c * QU)).
  assert (G0 : ongrid M0) by (apply round_units_ongrid, X0).
  assert (EM : M0 = X) by (apply funits_eq; [exact G0|exact FX|exact E]).
  pose proof (binade_nonneg (Qfloor (c * QU))) as K0.
  pose proof (round_units_eq (c * QU)) as RE. fold M0 in RE.
  destruct (round_value_error c C0) as [L R]. fold M0 in L, R.
  set (k := binade (Qfloor (c * QU))) in *.
  assert (I53 : (0 <= I <= 2 ^ 53)%Z) by nia.
  destruct (Z_le_gt_dec k 1067) as [Fine|Coarse].
  - assert (N0 : (100 * I + 1 <= n0)%Z).
    { destruct (Z_le_gt_dec n0 (100 * I)) as [Le|Gt]; [exfalso|lia].
      pose proof (cents_mono n0 (100 * I) ltac:(lia)) as Mo.
      rewrite cents_whole, E in Mo by exact I53. unfold fint in Mo.
      rewrite leb_funits in Mo by (try exact FX; apply fin_units_int, I53).
      apply Z.leb_le in Mo. lia. }
    assert (UB : p2 k / QU <= 1 # 128).
    { apply Qle_shift_div_r; [exact HU|].
      apply Qle_trans with (p2 1067); [apply p2_mono; lia|].
      unfold p2, QU, U.
      setoid_replace ((1 # 128) * inject_Z (2 ^ 1074)) with (inject_Z (2 ^ 1067)).
      - apply Qle_refl.
      - replace (2 ^ 1074)%Z with (128 * 2 ^ 1067)%Z
          by (change 128%Z with (2 ^ 7)%Z; rewrite <- Z.pow_add_r by lia; reflexivity).
        rewrite inject_Z_mult. change (inject_Z 128) with 128. field. }
    assert (XV : inject_Z M0 / QU == inject_Z I + inject_Z D / QU).
    { rewrite EM, HX, inject_Z_plus, inject_Z_mult. fold QU. field. lra. }
    assert (DV : inject_Z D / QU <= 1 # 200).
    { apply Qle_shift_div_r; [exact HU|].
      assert (Q : inject_Z 200 * inject_Z D <= QU)
        by (unfold QU; rewrite <- inject_Z_mult, <- Zle_Qle; exact H200).
      change (inject_Z 200) with 200 in Q. lra. }
    assert (NQ : inject_Z 100 * inject_Z I + 1 <= inject_Z n0).
    { change 1 with (inject_Z 1).
      rewrite <- inject_Z_mult, <- inject_Z_plus, <- Zle_Qle. exact N0. }
    change (inject_Z 100) with 100 in NQ.
    cbv zeta in R. rewrite XV in R.
    set (d := inject_Z D / QU) in *. set (u := p2 k / QU) in *.
    unfold c in R. clearbody d u. qnorm. lra.
  - assert (P68 : (0 < 2 ^ 1068)%Z) by (apply pow2_pos; lia).
    assert (EU : (U = 64 * 2 ^ 1068)%Z).
    { unfold U. change 64%Z with (2 ^ 6)%Z. rewrite <- Z.pow_add_r by lia. reflexivity. }
    assert (EK : (2 ^ k = 2 ^ (k - 1068) * 2 ^ 1068)%Z).
    { rewrite <- Z.pow_add_r by lia. f_equal. lia. }
    assert (DD : (D = (mant (c * QU) * 2 ^ (k - 1068) - 64 * I) * 2 ^ 1068)%Z).
    { rewrite RE, EK in EM. rewrite EU in HX. fold k in EM. lia. }
    set (t := (mant (c * QU) * 2 ^ (k - 1068) - 64 * I)%Z) in *.
    assert (1 <= t)%Z by nia. nia.
Qed.

Lemma greedy_eq (litres : float) :
  Spec.greedy litres =
  let st := Spec.greedy_step
              (Spec.greedy_step (Spec.greedy_step (litres, []) 10) 4) 1 in
  if Qlt_le_dec 0 (F2Q (fst st))
  then dict_set "1L" (dict_get "1L" 0 (snd st) + 1)%Z (snd st)
  else snd st.
Proof.
  unfold Spec.greedy, fold_left. cbv zeta.
  destruct (Spec.greedy_step
              (Spec.greedy_step (Spec.greedy_step (litres, []) 10) 4) 1) as [r c].
  reflexivity.
Qed.

(** The cans of the greedy rule hold at least the requirement, when it is
    a float of two decimals below [2^53]. *)
Lemma greedy_covers (n0 X : Z) :
  (0 <= n0)%Z -> cents n0 = funits X -> ongrid X -> (0 < X < 2 ^ 53 * U)%Z ->
  (X <= Spec.capacity (Spec.greedy (funits X)) * U)%Z.
Proof.
  intros Hn E G [XP B]. pose proof QU_pos as HU. pose proof U_pos as UP.
  assert (FX : fin_units X) by (apply fin_units_small; assumption).
  set (k10 := (X / (10 * U))%Z). set (R := (X mod (10 * U))%Z).
  assert (DM : (X = (k10 * 10) * U + R)%Z).
  { unfold k10, R. rewrite (Z.div_mod X (10 * U)) at 1 by lia. ring. }
  assert (RB : (0 <= R < 10 * U)%Z) by (apply Z.mod_pos_bound; lia).
  assert (K0 : (0 <= k10)%Z) by (apply Z.div_pos; lia).
  set (n1 := Qrne (100 * (inject_Z R / QU))).
  pose proof (Qrne_units_bounds R) as QB. cbv zeta in QB. fold n1 in QB.
  assert (N1 : (0 <= n1 <= 1000)%Z) by nia.
  assert (S1 : Spec.greedy_step (funits X, []) 10 =
               if (k10 >? 0)%Z then (cents n1, [("10L"%string, k10)])
               else (funits X, [])).
  { unfold Spec.greedy_step. rewrite (Qfloor_units X 10 FX) by lia. fold k10.
    destruct (Z.gtb_spec k10 0) as [P|Z]; [|reflexivity].
    f_equal. unfold Spec.round2_exact, cents, n1. do 3 f_equal.
    apply Qrne_comp. rewrite (F2Q_funits X FX). rewrite DM at 1.
    rewrite inject_Z_plus, !inject_Z_mult. fold QU. field. lra. }
  rewrite greedy_eq. cbv zeta. rewrite S1.
  destruct (Z.gtb_spec k10 0) as [P|Z].
  - pose proof (tail_capacity n1 k10 [("10L"%string, k10)] N1 (or_intror eq_refl)) as TC.
    cbv zeta in TC.
    match goal with |- (_ <= Spec.capacity ?t * _)%Z =>
      assert (CAP : Spec.capacity t = (10 * k10 + (n1 + 99) / 100)%Z) by exact TC;
      rewrite CAP; clear CAP TC end.
    assert (T : (100 * ((n1 + 99) / 100) >= n1)%Z).
    { pose proof (Z.div_mod (n1 + 99) 100 ltac:(lia)).
      pose proof (Z.mod_pos_bound (n1 + 99) 100 ltac:(lia)). lia. }
    destruct (Z.eq_dec (n1 mod 100) 0) as [Mz|Mn].
    + assert (J : (n1 = 100 * (n1 / 100))%Z).
      { pose proof (Z.div_mod n1 100 ltac:(lia)). lia. }
      set (j := (n1 / 100)%Z) in *.
      assert (TJ : ((n1 + 99) / 100 = j)%Z).
      { symmetry. apply Z.div_unique with 99%Z; lia. }
      rewrite TJ.
      destruct (Z_le_gt_dec R (j * U)) as [Le|Gt]; [nia|exfalso].
      apply (cents_gap n0 X (10 * k10 + j) (R - j * U)); try assumption; nia.
    + assert (T' : (100 * ((n1 + 99) / 100) >= n1 + 1)%Z).
      { pose proof (Z.div_mod (n1 + 99) 100 ltac:(lia)).
        pose proof (Z.mod_pos_bound (n1 + 99) 100 ltac:(lia)).
        pose proof (Z.div_mod n1 100 ltac:(lia)).
        pose proof (Z.mod_pos_bound n1 100 ltac:(lia)).
        assert ((n1 + 99) / 100 = n1 / 100 + 1)%Z.
        { symmetry. apply Z.div_unique with (n1 mod 100 - 1)%Z; lia. }
        lia. }
      nia.
  - assert (k10 = 0)%Z by lia.
    assert (N0 : (n0 <= 1000)%Z).
    { destruct (Z_le_gt_dec n0 1000) as [Le|Gt]; [exact Le|exfalso].
      pose proof (cents_mono 1000 n0 ltac:(lia)) as Mo.
      change 1000%Z with (100 * 10)%Z in Mo at 1.
      rewrite cents_whole, E in Mo by lia. unfold fint in Mo.
      rewrite leb_funits in Mo by (try exact FX; apply fin_units_int; lia).
      apply Z.leb_le in Mo. lia. }
    rewrite <- E.
    pose proof (tail_capacity n0 0 [] ltac:(lia) (or_introl (conj eq_refl eq_refl))) as TC.
    cbv zeta in TC.
    match goal with |- (_ <= Spec.capacity ?t * _)%Z =>
      assert (CAP : Spec.capacity t = (10 * 0 + (n0 + 99) / 100)%Z) by exact TC;
      rewrite CAP; clear CAP TC end.
    set (T := ((n0 + 99) / 100)%Z).
    assert (TB : (n0 <= 100 * T <= 1100)%Z).
    { unfold T. pose proof (Z.div_mod (n0 + 99) 100 ltac:(lia)).
      pose proof (Z.mod_pos_bound (n0 + 99) 100 ltac:(lia)). lia. }
    pose proof (cents_le_whole n0 T ltac:(lia) ltac:(lia)) as CL.
    rewrite E, (F2Q_funits X FX) in CL.
    assert (CL' : inject_Z X <= inject_Z T * QU).
    { setoid_replace (inject_Z X) with (inject_Z X / QU * QU) by (field; lra).
      apply Qmult_le_compat_r; lra. }
    unfold QU in CL'. rewrite <- inject_Z_mult, <- Zle_Qle in CL'. lia.
Qed.

End Cents.

Section Shape.
Local Open Scope Q_scope.

Lemma pow_53_range : (0 <= 2 ^ 53 <= 2 ^ 53)%Z.
Proof. split; [apply Z.pow_nonneg|]; lia. Qed.

Lemma fint_2_53_finite : isinf (fint (2 ^ 53)) = false.
Proof. apply isinf_funits, fin_units_int, pow_53_range. Qed.

(** A positive result of [round(y, 2)] below [2^53] is a float of two
    decimals, a whole number of units on the grid. *)
Lemma round2_shape (y : float) :
  ltb zero (round2 y) = true -> ltb (round2 y) (fint (2 ^ 53)) = true ->
  exists n X, (0 <= n)%Z /\ round2 y = funits X /\ cents n = funits X /\
              ongrid X /\ (0 < X < 2 ^ 53 * U)%Z.
Proof.
  destruct y as [s|s| |s m e].
  - destruct s; discriminate.
  - destruct s; intros A B; [discriminate A|]. exfalso.
    unfold round2 in B. pose proof fint_2_53_finite as I.
    destruct (fint (2 ^ 53)); discriminate.
  - discriminate.
  - set (q := mag (S754_finite s m e)).
    assert (Q0 : 0 <= q) by apply mag_nonneg.
    set (n := Qrne (100 * q)).
    assert (N0 : (0 <= n)%Z) by (apply Qrne_nonneg; lra).
    set (M := round_units (inject_Z n / 100 * QU)).
    assert (E : round2 (S754_finite s m e) = decode s M).
    { unfold round2, rnd_sm, M, n, q, QU. reflexivity. }
    rewrite E. clear E.
    assert (G : ongrid M).
    { apply round_units_ongrid. pose proof QU_pos.
      apply Qmult_le_0_compat; [|lra]. apply cents_arg_nonneg, N0. }
    intros A B. pose proof (ltb_zero_NN _ A) as [_ S].
    rewrite sign_decode in S. subst s.
    fold (funits M) in A, B |- *.
    assert (F : fin_units M).
    { split; [exact G|]. destruct (Z_lt_le_dec M (2 ^ 2098)) as [L|L]; [exact L|].
      exfalso. unfold funits in B.
      destruct (decode_spec false M G) as [Z|_|m' e' R _]; try lia.
      pose proof fint_2_53_finite as I.
      destruct (fint (2 ^ 53)); discriminate. }
    rewrite <- funits_0 in A.
    rewrite ltb_funits_iff in A; [|split; [apply ongrid_0|apply pow2_pos; lia]|exact F].
    unfold fint in B. rewrite ltb_funits_iff in B by (try exact F; apply fin_units_int, pow_53_range).
    apply Z.ltb_lt in A, B.
    exists n, M. repeat split; try assumption.
Qed.

End Shape.

Section Strings.
Local Open Scope string_scope.

Lemma prefix_spec (sub s : string) :
  prefix sub s = true <-> exists post, s = sub ++ post.
Proof.
  revert s. induction sub as [|c sub IH]; intros s.
  - split; [intros _; exists s; reflexivity|]. intros _. destruct s; reflexivity.
  - destruct s as [|d s]; cbn [prefix append].
    + split; [discriminate|]. intros [post E]. discriminate E.
    + destruct (Ascii.ascii_dec c d) as [->|N].
      * rewrite IH. split; intros [post E]; exists post; congruence.
      * split; [discriminate|]. intros [post E]. congruence.
Qed.

Lemma contains_spec (sub s : string) :
  contains sub s = true <-> Spec.is_substring sub s.
Proof.
  induction s as [|d s IH].
  - cbn [contains]. destruct (prefix sub "") eqn:P.
    + split; [intros _|reflexivity]. apply prefix_spec in P. destruct P as [post E].
      exists "", post. exact E.
    + split; [discriminate|]. intros [pre [post E]].
      destruct pre; [|discriminate E]. cbn [append] in E.
      assert (prefix sub "" = true) by (apply prefix_spec; exists post; exact E).
      congruence.
  - cbn [contains]. destruct (prefix sub (String d s)) eqn:P.
    + split; [intros _|reflexivity]. apply prefix_spec in P. destruct P as [post E].
      exists "", post. exact E.
    + rewrite IH. split.
      * intros [pre [post E]]. exists (String d pre), post. cbn [append]. congruence.
      * intros [pre [post E]]. destruct pre as [|c pre].
        -- cbn [append] in E.
           assert (prefix sub (String d s) = true) by (apply prefix_spec; exists post; exact E).
           congruence.
        -- cbn [append] in E. injection E as _ E. exists pre, post. exact E.
Qed.

Lemma contains_false (sub s : string) :
  ~ Spec.is_substring sub s -> contains sub s = false.
Proof.
  intros N. destruct (contains sub s) eqn:C; [|reflexivity].
  exfalso. apply N, contains_spec, C.
Qed.

End Strings.

Section PlumbingOrder.
Local Open Scope Z_scope.

Lemma float_of_int_rnd (p : Z) (f : float) :
  0 <= p -> float_of_int p = Ok f -> f = rnd_sm false (inject_Z p).
Proof.
  intros H. unfold float_of_int.
  assert (P : (0 <= inject_Z p)%Q) by (change 0%Q with (inject_Z 0); rewrite <- Zle_Qle; lia).
  rewrite rnd_nonneg by exact P. intros E.
  destruct (rnd_sm false (inject_Z p)); congruence.
Qed.

Lemma float_of_int_mono (p1 p2 : Z) (f1 f2 : float) :
  0 <= p1 <= p2 -> float_of_int p1 = Ok f1 -> float_of_int p2 = Ok f2 ->
  NN f1 /\ NN f2 /\ leb f1 f2 = true.
Proof.
  intros H E1 E2.
  apply float_of_int_rnd in E1; [|lia]. apply float_of_int_rnd in E2; [|lia].
  subst f1 f2. repeat split; try apply NN_rnd_sm.
  apply rnd_sm_mono; [change 0%Q with (inject_Z 0)|]; rewrite <- Zle_Qle; lia.
Qed.

Lemma float_of_int_raises (p : Z) :
  (exists f, float_of_int p = Ok f) \/ float_of_int p = Raise OverflowError.
Proof.
  unfold float_of_int. destruct (rnd false (inject_Z p)); eauto.
Qed.

Lemma plumbing_estimate_mono (p1 p2 : Z) (t1 t2 : float) :
  1 <= p1 <= p2 -> plumbing_estimate p1 = Ok t1 -> plumbing_estimate p2 = Ok t2 ->
  leb t1 t2 = true.
Proof.
  intros H. unfold plumbing_estimate, plumbing_estimate_with.
  destruct (Z.leb_spec p1 0); [lia|]. destruct (Z.leb_spec p2 0); [lia|].
  unfold int_mul.
  destruct (float_of_int p1) as [f1|e1] eqn:E1; [|discriminate].
  destruct (float_of_int p2) as [f2|e2] eqn:E2; [|discriminate].
  unfold bind. intros T1 T2. apply Ok_inj in T1, T2. subst t1 t2.
  destruct (float_of_int_mono p1 p2 f1 f2 ltac:(lia) E1 E2) as (N1 & N2 & L).
  rewrite !dec_int by lia.
  assert (C3 : pos_finite (fint 300) = true) by (apply pos_finite_fint; lia).
  assert (C5 : pos_finite (fint 500) = true) by (apply pos_finite_fint; lia).
  apply round2_mono; [apply NN_add; [exact C5|apply NN_mul; assumption]..|].
  apply add_mono; [exact C5|apply NN_mul; assumption..|].
  apply mul_mono; assumption.
Qed.

Lemma plumbing_estimate_raises (p : Z) :
  (exists t, plumbing_estimate p = Ok t) \/ plumbing_estimate p = Raise OverflowError.
Proof.
  unfold plumbing_estimate, plumbing_estimate_with.
  destruct (p <=? 0); [left; eauto|]. unfold int_mul.
  destruct (float_of_int_raises p) as [[f ->]| ->]; [left|right]; unfold bind; eauto.
Qed.

Lemma ltb_leb_trans (x y z : float) :
  ltb x y = true -> leb y z = true -> ltb x z = true.
Proof. intros H1 H2. by_cases; qcmp. Qed.

Lemma max_points (points : Z) :
  (if points >? 0 then points else 1) = Z.max points 1.
Proof. destruct (Z.gtb_spec points 0); lia. Qed.

Lemma price_plumbing_eq (points : Z) :
  price_plumbing points =
  bind (plumbing_estimate (Z.max points 1))
       (fun pl_cost =>
          Ok {| breakdown := [Title "Plumbing"; PointsLine (Z.max points 1);
                              TotalLine pl_cost];
                total := pl_cost;
                material_qty := plumbing_points (Z.max points 1) |}).
Proof. unfold price_plumbing. rewrite max_points. reflexivity. Qed.

End PlumbingOrder.

Section Pricing.

Lemma pair_inj {A B : Type} (a a' : A) (b b' : B) :
  (a, b) = (a', b') -> a = a' /\ b = b'.
Proof. intros H. inversion H. split; reflexivity. Qed.

Lemma round2_zero : round2 zero = zero.
Proof. reflexivity. Qed.

Lemma paint_estimate_cases (area l c : float) :
  paint_estimate area = Ok (l, c) ->
  (leb area zero = true /\ l = zero /\ c = zero) \/
  (leb area zero = false /\ exists y z, l = round2 y /\ c = round2 z).
Proof.
  rewrite paint_estimate_eq. destruct (leb area zero); intros E; apply Ok_inj in E.
  - left. apply pair_inj in E. destruct E. subst. auto.
  - right. unfold Spec.paint_formula in E. cbv zeta in E.
    apply pair_inj in E. destruct E as [E1 E2]. split; [reflexivity|]. eauto.
Qed.

Lemma tiles_estimate_cases (area l c : float) :
  tiles_estimate area = Ok (l, c) ->
  (leb area zero = true /\ l = zero /\ c = zero) \/
  (leb area zero = false /\ exists y z, l = round2 y /\ c = round2 z).
Proof.
  rewrite tiles_estimate_eq. destruct (leb area zero); intros E; apply Ok_inj in E.
  - left. apply pair_inj in E. destruct E. subst. auto.
  - right. unfold Spec.tiles_formula in E. cbv zeta in E.
    apply pair_inj in E. destruct E as [E1 E2]. split; [reflexivity|]. eauto.
Qed.

Lemma paint_estimate_rounded (area l c : float) :
  paint_estimate area = Ok (l, c) -> round2 l = l /\ round2 c = c.
Proof.
  intros E. destruct (paint_estimate_cases area l c E)
    as [(_ & -> & ->)|(_ & y & z & -> & ->)].
  - split; reflexivity.
  - split; apply round2_idempotent.
Qed.

Lemma tiles_estimate_rounded (area l c : float) :
  tiles_estimate area = Ok (l, c) -> round2 l = l /\ round2 c = c.
Proof.
  intros E. destruct (tiles_estimate_cases area l c E)
    as [(_ & -> & ->)|(_ & y & z & -> & ->)].
  - split; reflexivity.
  - split; apply round2_idempotent.
Qed.

Lemma generic_labour_rounded (area r lab : float) :
  generic_labour_with area r = Ok lab -> round2 lab = lab.
Proof.
  rewrite generic_labour_with_eq. intros E. apply Ok_inj in E. subst lab.
  destruct (leb area zero); [reflexivity|apply round2_idempotent].
Qed.

Lemma plumbing_estimate_rounded (p : Z) (t : float) :
  plumbing_estimate p = Ok t -> round2 t = t.
Proof.
  unfold plumbing_estimate, plumbing_estimate_with.
  destruct (p <=? 0)%Z.
  - intros E. apply Ok_inj in E. subst t. reflexivity.
  - unfold int_mul. destruct (float_of_int p) as [f|e]; [|discriminate].
    unfold bind. intros E. apply Ok_inj in E. subst t. apply round2_idempotent.
Qed.

Lemma paint_estimate_returns (area : float) :
  exists l c, paint_estimate area = Ok (l, c).
Proof.
  rewrite paint_estimate_eq. destruct (leb area zero); [eauto|].
  destruct (Spec.paint_formula area) as [l c]. eauto.
Qed.

Lemma tiles_estimate_returns (area : float) :
  exists l c, tiles_estimate area = Ok (l, c).
Proof.
  rewrite tiles_estimate_eq. destruct (leb area zero); [eauto|].
  destruct (Spec.tiles_formula area) as [l c]. eauto.
Qed.

Lemma generic_labour_returns (area r : float) :
  exists lab, generic_labour_with area r = Ok lab.
Proof. rewrite generic_labour_with_eq. eauto. Qed.

(** The priced request of the Painting branch. *)
Lemma price_painting_ok (area : float) :
  exists l c lab,
    paint_estimate area = Ok (l, c) /\ generic_labour area = Ok lab /\
    price_painting area =
    Ok {| breakdown := [Title "Painting"; PaintMaterial l c; LabourLine lab];
          total := add c lab; material_qty := paint_litres l |}.
Proof.
  destruct (paint_estimate_returns area) as (l & c & E).
  destruct (generic_labour_returns area (dec 30 1)) as (lab & G).
  exists l, c, lab. unfold price_painting, generic_labour. rewrite E.
  unfold bind at 1. cbv beta iota. rewrite G. unfold bind.
  repeat split; try reflexivity; try exact G.
Qed.

Lemma price_tiles_ok (area : float) :
  exists l c lab,
    tiles_estimate area = Ok (l, c) /\
    generic_labour_with area (dec 50 1) = Ok lab /\
    price_tiles area =
    Ok {| breakdown := [Title "Tiling"; TilesMaterial l c; LabourLine lab];
          total := add c lab; material_qty := tiles_m2 l |}.
Proof.
  destruct (tiles_estimate_returns area) as (l & c & E).
  destruct (generic_labour_returns area (dec 50 1)) as (lab & G).
  exists l, c, lab. unfold price_tiles. rewrite E.
  unfold bind at 1. cbv beta iota. rewrite G. unfold bind.
  repeat split; try reflexivity; try exact G.
Qed.

Lemma price_generic_ok (svc : string) (area : float) :
  exists lab,
    generic_labour_with area (dec 80 1) = Ok lab /\
    price_generic svc area =
    Ok {| breakdown := [Title svc; MaterialEst (mul area (dec 150 1));
                        LabourLine lab];
          total := add lab (mul area (dec 150 1));
          material_qty := generic_area area |}.
Proof.
  destruct (generic_labour_returns area (dec 80 1)) as (lab & G).
  exists lab. unfold price_generic. rewrite G. unfold bind.
  split; reflexivity.
Qed.

Lemma price_plumbing_ok (points : Z) (p : priced) :
  price_plumbing points = Ok p ->
  plumbing_estimate (Z.max points 1) = Ok (total p) /\
  breakdown p = [Title "Plumbing"; PointsLine (Z.max points 1);
                 TotalLine (total p)] /\
  material_qty p = plumbing_points (Z.max points 1).
Proof.
  rewrite price_plumbing_eq.
  destruct (plumbing_estimate (Z.max points 1)) as [t|e]; [|discriminate].
  unfold bind. intros E. apply Ok_inj in E. subst p.
  repeat split; reflexivity.
Qed.

Lemma price_dispatch (svc : string) (area : float) (points : Z) :
  price svc area points =
  match Spec.dispatch svc with
  | Spec.Painting => price_painting area
  | Spec.Tiles => price_tiles area
  | Spec.Plumbing => price_plumbing points
  | Spec.Generic => price_generic svc area
  end.
Proof.
  unfold price, Spec.dispatch. cbv zeta.
  destruct (contains "paint" (lower svc)); [reflexivity|].
  destruct (contains "tile" (lower svc)); [reflexivity|].
  destruct (contains "plumb" (lower svc)); reflexivity.
Qed.

End Pricing.

Section PaintRequest.
Local Open Scope string_scope.

Lemma dec_2_53 : dec (2 ^ 53) 1 = fint (2 ^ 53).
Proof. apply dec_int, pow_53_range. Qed.

(** The litres of a painting request, when positive and below [2^53]. *)
Lemma paint_request_shape (area litres cost : float) :
  paint_estimate area = Ok (litres, cost) ->
  ltb zero litres = true -> ltb litres (dec (2 ^ 53) 1) = true ->
  exists n X, (0 <= n)%Z /\ litres = funits X /\ cents n = funits X /\
              ongrid X /\ (0 < X < 2 ^ 53 * U)%Z.
Proof.
  intros E P B. rewrite dec_2_53 in B.
  destruct (paint_estimate_cases area litres cost E)
    as [(_ & -> & _)|(_ & y & z & -> & _)]; [discriminate P|].
  destruct (round2_shape y P B) as (n & X & H). exists n, X. exact H.
Qed.

Lemma capacity_nil : Spec.capacity [] = 0%Z.
Proof. reflexivity. Qed.

Lemma paint_cans_greedy (n X : Z) :
  (0 <= n)%Z -> cents n = funits X -> ongrid X -> (0 < X < 2 ^ 53 * U)%Z ->
  paint_cans (funits X) = Ok (Spec.greedy (funits X)) /\
  (F2Q (funits X) <= inject_Z (Spec.capacity (Spec.greedy (funits X))))%Q /\
  Spec.greedy (funits X) <> [].
Proof.
  intros N C G B. pose proof QU_pos as HU. pose proof U_pos as UP.
  pose proof (greedy_covers n X N C G B) as K.
  split; [apply paint_cans_exact; [exact G|lia]|]. split.
  - rewrite F2Q_funits by (apply fin_units_small; [exact G|lia]).
    apply Qle_shift_div_r; [exact HU|]. unfold QU.
    rewrite <- inject_Z_mult, <- Zle_Qle. exact K.
  - intros E. rewrite E, capacity_nil in K. lia.
Qed.

Lemma paint_suggestion (s : string) (litres : float) (cans : dict Z) :
  contains "paint" s = true -> ltb zero litres = true ->
  paint_cans litres = Ok cans -> cans <> [] ->
  purchase_suggestion s (paint_litres litres) =
  Ok (PaintPurchase (Some (paint_parts cans)) litres).
Proof.
  intros C P E N. unfold purchase_suggestion. rewrite C.
  cbv beta iota zeta. rewrite (ltb_leb_false _ _ P), E. unfold bind.
  destruct cans; [contradiction|reflexivity].
Qed.

End PaintRequest.

(* ===================================================================== *)
(** * The claims *)
(* ===================================================================== *)

Section Claims.
Local Open Scope string_scope.

(** C1: for every area > 0, with the default parameters, [paint_estimate]
    returns litres = (area/10.0)*2*(1+0.10) and cost = litres*250.0, and
    [tiles_estimate] returns qty = area*(1+0.05) and cost = qty*600.0, each
    result rounded to 2 decimals (the formulas evaluated in floats, in the
    order written); [paint_estimate(100.0) = (22.0, 5500.0)] and
    [tiles_estimate(50.0) = (52.5, 31500.0)]. *)
Theorem estimates_follow_formulas (area : float) :
  ltb zero area = true ->
  paint_estimate area = Ok (Spec.paint_formula area) /\
  tiles_estimate area = Ok (Spec.tiles_formula area) /\
  paint_estimate (dec 100 1) = Ok (dec 22 1, dec 5500 1) /\
  tiles_estimate (dec 50 1) = Ok (dec 525 10, dec 31500 1).
Proof.
  intros H. rewrite paint_estimate_eq, tiles_estimate_eq, (ltb_leb_false _ _ H).
  split; [reflexivity|]. split; [reflexivity|].
  split; vm_compute; reflexivity.
Qed.

Lemma estimates_follow_formulas_witness :
  ltb zero (dec 100 1) = true /\
  paint_estimate (dec 100 1) = Ok (Spec.paint_formula (dec 100 1)) /\
  tiles_estimate (dec 100 1) = Ok (Spec.tiles_formula (dec 100 1)).
Proof.
  assert (H : ltb zero (dec 100 1) = true) by (vm_compute; reflexivity).
  split; [exact H|].
  destruct (estimates_follow_formulas (dec 100 1) H) as (A & B & _).
  split; assumption.
Defined.

(** C2: for every points <= 0 the standalone [plumbing_estimate] returns
    0.0, while the quote path prices a plumbing request with
    [max(points, 1)] points: the total is 500 + 300*max(points,1), 800.0
    when points <= 0, and whenever a total is produced it exceeds the bare
    500.0 callout charge. *)
Theorem plumbing_points_floor (points : Z) :
  ((points <= 0)%Z -> plumbing_estimate points = Ok zero) /\
  ((points <= 0)%Z ->
     exists p, price_plumbing points = Ok p /\ total p = dec 800 1) /\
  ((Z.max points 1 <= 30000000000000)%Z ->
     exists p, price_plumbing points = Ok p /\
               (F2Q (total p) == inject_Z (500 + 300 * Z.max points 1))%Q /\
               material_qty p = plumbing_points (Z.max points 1)) /\
  (forall p, price_plumbing points = Ok p ->
     plumbing_estimate (Z.max points 1) = Ok (total p) /\
     ltb (dec 500 1) (total p) = true).
Proof.
  assert (X : (Z.max points 1 <= 30000000000000)%Z ->
              price_plumbing points =
              Ok {| breakdown := [Title "Plumbing"; PointsLine (Z.max points 1);
                                  TotalLine (fint (500 + 300 * Z.max points 1))];
                    total := fint (500 + 300 * Z.max points 1);
                    material_qty := plumbing_points (Z.max points 1) |}).
  { intros B. rewrite price_plumbing_eq, plumbing_estimate_exact by lia.
    reflexivity. }
  split; [apply plumbing_estimate_nonpos|]. split; [|split].
  - intros H. eexists. split; [apply X; lia|].
    cbn [total]. replace (Z.max points 1) with 1%Z by lia.
    rewrite dec_int by lia. reflexivity.
  - intros B. eexists. split; [apply X, B|]. cbn [total material_qty].
    split; [|reflexivity]. apply F2Q_fint. lia.
  - intros p E. destruct (price_plumbing_ok points p E) as (P & _ & _).
    split; [exact P|].
    destruct (plumbing_estimate_ge_800 (Z.max points 1) (total p) ltac:(lia) P) as [_ L].
    apply ltb_leb_trans with (fint 800); [|exact L].
    rewrite dec_int by lia. rewrite ltb_fint by lia. reflexivity.
Qed.

Lemma plumbing_points_floor_witness :
  (0 <= 0)%Z /\ exists p, price_plumbing 0 = Ok p /\ total p = dec 800 1.
Proof.
  split; [lia|]. exact (proj1 (proj2 (plumbing_points_floor 0)) ltac:(lia)).
Defined.

(** C3: the pricing branch is selected by substring match on the
    lowercased service name, in this order: "paint" gives the Painting
    branch, else "tile" the Tiles branch, else "plumb" the Plumbing branch,
    else the Generic branch, which charges labour at 80 per m2 and material
    at 150 per m2. *)
Theorem service_dispatch (svc : string) (area : float) (points : Z) :
  (Spec.is_substring "paint" (lower svc) ->
     price svc area points = price_painting area) /\
  (~ Spec.is_substring "paint" (lower svc) ->
   Spec.is_substring "tile" (lower svc) ->
     price svc area points = price_tiles area) /\
  (~ Spec.is_substring "paint" (lower svc) ->
   ~ Spec.is_substring "tile" (lower svc) ->
   Spec.is_substring "plumb" (lower svc) ->
     price svc area points = price_plumbing points) /\
  (~ Spec.is_substring "paint" (lower svc) ->
   ~ Spec.is_substring "tile" (lower svc) ->
   ~ Spec.is_substring "plumb" (lower svc) ->
     price svc area points = price_generic svc area /\
     exists labour,
       generic_labour_with area (dec 80 1) = Ok labour /\
       price_generic svc area =
       Ok {| breakdown := [Title svc; MaterialEst (mul area (dec 150 1));
                           LabourLine labour];
             total := add labour (mul area (dec 150 1));
             material_qty := generic_area area |}).
Proof.
  unfold price. cbv zeta. split; [|split; [|split]].
  - intros P. apply contains_spec in P. rewrite P. reflexivity.
  - intros P T. apply contains_false in P. apply contains_spec in T.
    rewrite P, T. reflexivity.
  - intros P T B. apply contains_false in P, T. apply contains_spec in B.
    rewrite P, T, B. reflexivity.
  - intros P T B. apply contains_false in P, T, B. rewrite P, T, B.
    split; [reflexivity|apply price_generic_ok].
Qed.

Lemma service_dispatch_witness :
  Spec.is_substring "paint" (lower "Wall PAINT and Tiles") /\
  price "Wall PAINT and Tiles" (dec 100 1) 0 = price_painting (dec 100 1).
Proof.
  assert (H : Spec.is_substring "paint" (lower "Wall PAINT and Tiles"))
    by (exists "wall ", " and tiles"; reflexivity).
  split; [exact H|].
  exact (proj1 (service_dispatch "Wall PAINT and Tiles" (dec 100 1) 0) H).
Defined.

(** C7: for every area <= 0, [paint_estimate] and [tiles_estimate] return
    (0.0, 0.0) and [generic_labour] returns 0.0 (at every labour rate), and
    for every points <= 0 [plumbing_estimate] returns 0.0: each call
    returns and none raises. *)
Theorem nonpositive_inputs_return_zero (area : float) (points : Z) :
  leb area zero = true -> (points <= 0)%Z ->
  paint_estimate area = Ok (zero, zero) /\
  tiles_estimate area = Ok (zero, zero) /\
  generic_labour area = Ok zero /\
  (forall rate, generic_labour_with area rate = Ok zero) /\
  plumbing_estimate points = Ok zero.
Proof.
  intros A P. rewrite paint_estimate_eq, tiles_estimate_eq, A.
  unfold generic_labour. repeat split; try (rewrite generic_labour_with_eq, A; reflexivity).
  - intros rate. rewrite generic_labour_with_eq, A. reflexivity.
  - apply plumbing_estimate_nonpos, P.
Qed.

Lemma nonpositive_inputs_return_zero_witness :
  leb (dec (-5) 2) zero = true /\ (-3 <= 0)%Z /\
  paint_estimate (dec (-5) 2) = Ok (zero, zero) /\
  plumbing_estimate (-3) = Ok zero.
Proof.
  assert (A : leb (dec (-5) 2) zero = true) by (vm_compute; reflexivity).
  assert (P : (-3 <= 0)%Z) by lia.
  destruct (nonpositive_inputs_return_zero (dec (-5) 2) (-3) A P)
    as (E1 & _ & _ & _ & E2).
  repeat split; assumption.
Defined.

End Claims.

Section Claims2.
Local Open Scope string_scope.

(** The claim of C4 fails in the Generic branch: for "Carpentry" and an
    area of 1.0001 m2 the material quantity of the result is the area as
    it was entered, which [round(x, 2)] changes. *)
Lemma generic_quantity_not_rounded :
  exists p last out,
    price "Carpentry" (dec 10001 10000) 0 = Ok p /\
    generate_estimate "Carpentry" (dec 10001 10000) 0 "" = (Some last, Ok out) /\
    material_qty p = generic_area (dec 10001 10000) /\
    q_mat_text out = GenericMaterial (dec 10001 10000) /\
    In (dec 10001 10000) (Spec.amounts p last) /\
    ~ Spec.rounded2 (dec 10001 10000).
Proof.
  eexists. eexists. eexists. split; [vm_compute; reflexivity|].
  split; [vm_compute; reflexivity|].
  split; [reflexivity|]. split; [reflexivity|].
  split; [left; reflexivity|].
  unfold Spec.rounded2. vm_compute. discriminate.
Qed.

(** C4 (amended): in every estimate that [generate_estimate] stores, the
    labour cost and the stored total are rounded to 2 decimals, whatever
    the branch; in the Painting, Tiles and Plumbing branches every amount
    of the result is (material quantity, material cost, labour cost, the
    plumbing charge, the stored total); in the Generic branch the material
    quantity is the area as it was entered. *)
Theorem amounts_rounded (text : string) (area : float) (points : Z)
    (model_text : string) (last : estimate) (out : result quote) :
  generate_estimate text area points model_text = (Some last, out) ->
  exists p,
    price (chosen_service text) area points = Ok p /\
    last = store (chosen_service text) area points p /\
    Forall Spec.rounded2
      (Spec.opt_list (labour_cost (e_breakdown last)) ++ [e_total last]) /\
    match Spec.dispatch (chosen_service text) with
    | Spec.Generic => material_qty p = generic_area area
    | _ => Forall Spec.rounded2 (Spec.amounts p last)
    end.
Proof.
  unfold generate_estimate. cbv zeta. set (svc := chosen_service text).
  destruct (price svc area points) as [p|e] eqn:E; [|discriminate].
  intros H. injection H as L _. subst last. exists p.
  split; [reflexivity|]. split; [reflexivity|].
  revert E. rewrite price_dispatch.
  unfold Spec.amounts, Spec.quantity, store. cbn [e_breakdown e_total].
  destruct (Spec.dispatch svc).
  - destruct (price_painting_ok area) as (l & c & lab & E & G & ->).
    intros H. apply Ok_inj in H. subst p.
    cbn [breakdown total material_qty labour_cost Spec.opt_list
         Spec.line_amounts flat_map app].
    destruct (paint_estimate_rounded area l c E) as [Rl Rc].
    pose proof (generic_labour_rounded area _ lab G) as Rlab.
    pose proof (round2_idempotent (add c lab)) as Rt.
    split; repeat constructor; assumption.
  - destruct (price_tiles_ok area) as (l & c & lab & E & G & ->).
    intros H. apply Ok_inj in H. subst p.
    cbn [breakdown total material_qty labour_cost Spec.opt_list
         Spec.line_amounts flat_map app].
    destruct (tiles_estimate_rounded area l c E) as [Rl Rc].
    pose proof (generic_labour_rounded area _ lab G) as Rlab.
    pose proof (round2_idempotent (add c lab)) as Rt.
    split; repeat constructor; assumption.
  - intros H. destruct (price_plumbing_ok points p H) as (P & B & Q).
    rewrite B, Q.
    cbn [labour_cost Spec.opt_list Spec.line_amounts flat_map app].
    pose proof (plumbing_estimate_rounded _ _ P) as Rp.
    pose proof (round2_idempotent (total p)) as Rt.
    split; repeat constructor; assumption.
  - destruct (price_generic_ok svc area) as (lab & G & ->).
    intros H. apply Ok_inj in H. subst p.
    cbn [breakdown total material_qty labour_cost Spec.opt_list app].
    pose proof (generic_labour_rounded area _ lab G) as Rlab.
    pose proof (round2_idempotent (add lab (mul area (dec 150 1)))) as Rt.
    split; [|reflexivity]. repeat constructor; assumption.
Qed.

Lemma amounts_rounded_witness :
  exists p last out,
    generate_estimate "Tiles" (dec 50 1) 0 "" = (Some last, out) /\
    price "Tiles" (dec 50 1) 0 = Ok p /\
    Forall Spec.rounded2 (Spec.amounts p last).
Proof.
  assert (G : exists last out,
             generate_estimate "Tiles" (dec 50 1) 0 "" = (Some last, out)).
  { eexists. eexists. vm_compute. reflexivity. }
  destruct G as (last & out & G).
  destruct (amounts_rounded "Tiles" (dec 50 1) 0 "" last out G)
    as (p & P & _ & _ & A).
  exists p, last, out. split; [exact G|]. split; [exact P|]. exact A.
Defined.

(** C8: in the Painting, Tiles and Generic branches the stored total is
    [round(materialCost + labourCost, 2)]; in the Plumbing branch the
    breakdown has no material and no labour amount and the stored total is
    the single charge returned by [plumbing_estimate]. *)
Theorem stored_total (svc : string) (area : float) (points : Z) (p : priced) :
  price svc area points = Ok p ->
  match Spec.dispatch svc with
  | Spec.Plumbing =>
      material_cost (breakdown p) = None /\
      labour_cost (breakdown p) = None /\
      plumbing_estimate (Z.max points 1)
      = Ok (e_total (store svc area points p))
  | _ =>
      exists m l,
        material_cost (breakdown p) = Some m /\
        labour_cost (breakdown p) = Some l /\
        e_total (store svc area points p) = round2 (add m l)
  end.
Proof.
  rewrite price_dispatch. unfold store. cbn [e_total].
  destruct (Spec.dispatch svc).
  - destruct (price_painting_ok area) as (l & c & lab & E & G & ->).
    intros H. apply Ok_inj in H. subst p. exists c, lab.
    repeat split; reflexivity.
  - destruct (price_tiles_ok area) as (l & c & lab & E & G & ->).
    intros H. apply Ok_inj in H. subst p. exists c, lab.
    repeat split; reflexivity.
  - intros H. destruct (price_plumbing_ok points p H) as (P & B & Q).
    rewrite B. cbn [material_cost labour_cost].
    repeat split; try reflexivity.
    rewrite (plumbing_estimate_rounded _ _ P). exact P.
  - destruct (price_generic_ok svc area) as (lab & G & ->).
    intros H. apply Ok_inj in H. subst p.
    exists (mul area (dec 150 1)), lab.
    cbn [breakdown total material_cost labour_cost].
    repeat split; try reflexivity. rewrite add_comm. reflexivity.
Qed.

Lemma stored_total_witness :
  exists p,
    price "Renovation" (dec 50 1) 0 = Ok p /\
    exists m l,
      material_cost (breakdown p) = Some m /\
      labour_cost (breakdown p) = Some l /\
      e_total (store "Renovation" (dec 50 1) 0 p) = round2 (add m l).
Proof.
  eexists. split; [vm_compute; reflexivity|].
  refine (stored_total "Renovation" (dec 50 1) 0 _ _).
  vm_compute. reflexivity.
Defined.

End Claims2.

Section Claims3.
Local Open Scope string_scope.

(** The claim of C9 fails for plumbing: the point counts [2^53] and
    [2^53 + 1] convert to the same float and get the same estimate. *)
Lemma plumbing_not_strictly_increasing :
  exists t,
    plumbing_estimate (2 ^ 53) = Ok t /\
    plumbing_estimate (2 ^ 53 + 1) = Ok t /\
    ltb t t = false.
Proof.
  eexists. split; [vm_compute; reflexivity|].
  split; [vm_compute; reflexivity|]. vm_compute. reflexivity.
Qed.

(** C9 (amended): [paint_estimate] and [tiles_estimate] are non-decreasing
    in the area over all floats (both components); [plumbing_estimate] is
    non-decreasing in the points for points >= 1 and strictly increasing
    for 1 <= points <= 3*10^13, where 500 + 300*points is computed
    exactly. *)
Theorem estimates_monotone :
  (forall a1 a2, leb a1 a2 = true ->
     pair_le (paint_estimate a1) (paint_estimate a2) /\
     pair_le (tiles_estimate a1) (tiles_estimate a2)) /\
  (forall p1 p2 t1 t2, (1 <= p1 <= p2)%Z ->
     plumbing_estimate p1 = Ok t1 -> plumbing_estimate p2 = Ok t2 ->
     leb t1 t2 = true) /\
  (forall p1 p2, (1 <= p1)%Z -> (p1 < p2)%Z -> (p2 <= 30000000000000)%Z ->
     exists t1 t2,
       plumbing_estimate p1 = Ok t1 /\ plumbing_estimate p2 = Ok t2 /\
       ltb t1 t2 = true).
Proof.
  split; [|split].
  - intros a1 a2 L. split; [apply paint_estimate_mono|apply tiles_estimate_mono];
      exact L.
  - apply plumbing_estimate_mono.
  - intros p1 p2 H1 H2 H3.
    exists (fint (500 + 300 * p1)), (fint (500 + 300 * p2)).
    rewrite !plumbing_estimate_exact by lia.
    split; [reflexivity|]. split; [reflexivity|].
    rewrite ltb_fint by lia. apply Z.ltb_lt. lia.
Qed.

Lemma estimates_monotone_witness :
  leb (dec 10 1) (dec 25 2) = true /\
  pair_le (paint_estimate (dec 10 1)) (paint_estimate (dec 25 2)) /\
  exists t1 t2,
    plumbing_estimate 1 = Ok t1 /\ plumbing_estimate 2 = Ok t2 /\
    ltb t1 t2 = true.
Proof.
  assert (L : leb (dec 10 1) (dec 25 2) = true) by (vm_compute; reflexivity).
  destruct estimates_monotone as (A & _ & C).
  split; [exact L|]. split; [exact (proj1 (A _ _ L))|].
  exact (C 1%Z 2%Z ltac:(lia) ltac:(lia) ltac:(lia)).
Defined.

(** The claim of C5 fails at 28547307982192832 litres (the estimate for an
    area of 129760490828149216 m2): the loop records 2854730798219283
    ten-litre cans and nothing else, where the greedy rule leaves 2 litres
    for two one-litre cans. *)
Lemma packing_not_greedy :
  exists litres cost,
    paint_estimate (dec 129760490828149216 1) = Ok (litres, cost) /\
    ltb zero litres = true /\
    paint_cans litres = Ok [("10L", 2854730798219283%Z)] /\
    Spec.greedy litres = [("10L", 2854730798219283%Z); ("1L", 2%Z)].
Proof.
  eexists. eexists. split; [vm_compute; reflexivity|].
  split; [vm_compute; reflexivity|].
  split; [vm_compute; reflexivity|]. vm_compute. reflexivity.
Qed.

(** C5 (amended): for every painting request whose litres are positive and
    below [2^53], the purchase suggestion packs the litres greedily over
    the can sizes [10, 4, 1], largest first, with count =
    floor(remaining/size), the remaining re-rounded to 2 decimals after
    each subtraction, and one more 1-litre can for a positive residue;
    22.0 litres give 2 ten-litre and 2 one-litre cans, shown as
    "2×10L, 2×1L". *)
Theorem paint_packing_greedy (area litres cost : float) :
  paint_estimate area = Ok (litres, cost) ->
  ltb zero litres = true -> ltb litres (dec (2 ^ 53) 1) = true ->
  paint_cans litres = Ok (Spec.greedy litres) /\
  (forall s, contains "paint" s = true ->
     purchase_suggestion s (paint_litres litres) =
     Ok (PaintPurchase (Some (paint_parts (Spec.greedy litres))) litres)) /\
  paint_cans (dec 22 1) = Ok [("10L", 2%Z); ("1L", 2%Z)] /\
  paint_parts [("10L", 2%Z); ("1L", 2%Z)] = "2×10L, 2×1L".
Proof.
  intros E P B.
  destruct (paint_request_shape area litres cost E P B)
    as (n & X & N & -> & C & G & R).
  destruct (paint_cans_greedy n X N C G R) as (K & _ & NE).
  split; [exact K|]. split.
  - intros s S. apply paint_suggestion; assumption.
  - split; vm_compute; reflexivity.
Qed.

Lemma paint_packing_greedy_witness :
  paint_estimate (dec 100 1) = Ok (dec 22 1, dec 5500 1) /\
  ltb zero (dec 22 1) = true /\ ltb (dec 22 1) (dec (2 ^ 53) 1) = true /\
  paint_cans (dec 22 1) = Ok (Spec.greedy (dec 22 1)).
Proof.
  assert (E : paint_estimate (dec 100 1) = Ok (dec 22 1, dec 5500 1))
    by (vm_compute; reflexivity).
  assert (P : ltb zero (dec 22 1) = true) by (vm_compute; reflexivity).
  assert (B : ltb (dec 22 1) (dec (2 ^ 53) 1) = true) by (vm_compute; reflexivity).
  split; [exact E|]. split; [exact P|]. split; [exact B|].
  exact (proj1 (paint_packing_greedy (dec 100 1) (dec 22 1) (dec 5500 1) E P B)).
Defined.

(** The claim of C10 fails at the same request: the suggested cans hold
    28547307982192830 litres, less than the 28547307982192832 required. *)
Lemma cans_below_requirement :
  exists litres cost cans,
    paint_estimate (dec 129760490828149216 1) = Ok (litres, cost) /\
    ltb zero litres = true /\
    paint_cans litres = Ok cans /\
    (inject_Z (Spec.capacity cans) < F2Q litres)%Q.
Proof.
  eexists. eexists. eexists. split; [vm_compute; reflexivity|].
  split; [vm_compute; reflexivity|].
  split; [vm_compute; reflexivity|]. vm_compute. reflexivity.
Qed.

(** C10 (amended): for every painting request whose litres, the
    2-decimal value returned by [paint_estimate], are positive and below
    [2^53], the cans of the purchase suggestion hold at least the litres
    required: 10*(10L cans) + 4*(4L cans) + (1L cans) >= litres. *)
Theorem cans_cover_requirement (area litres cost : float) :
  paint_estimate area = Ok (litres, cost) ->
  ltb zero litres = true -> ltb litres (dec (2 ^ 53) 1) = true ->
  exists cans,
    paint_cans litres = Ok cans /\
    (F2Q litres <= inject_Z (Spec.capacity cans))%Q.
Proof.
  intros E P B.
  destruct (paint_request_shape area litres cost E P B)
    as (n & X & N & -> & C & G & R).
  destruct (paint_cans_greedy n X N C G R) as (K & L & _).
  exists (Spec.greedy (funits X)). split; assumption.
Qed.

Lemma cans_cover_requirement_witness :
  paint_estimate (dec 100 1) = Ok (dec 22 1, dec 5500 1) /\
  ltb zero (dec 22 1) = true /\ ltb (dec 22 1) (dec (2 ^ 53) 1) = true /\
  exists cans,
    paint_cans (dec 22 1) = Ok cans /\
    (F2Q (dec 22 1) <= inject_Z (Spec.capacity cans))%Q.
Proof.
  assert (E : paint_estimate (dec 100 1) = Ok (dec 22 1, dec 5500 1))
    by (vm_compute; reflexivity).
  assert (P : ltb zero (dec 22 1) = true) by (vm_compute; reflexivity).
  assert (B : ltb (dec 22 1) (dec (2 ^ 53) 1) = true) by (vm_compute; reflexivity).
  split; [exact E|]. split; [exact P|]. split; [exact B|].
  exact (cans_cover_requirement (dec 100 1) (dec 22 1) (dec 5500 1) E P B).
Defined.

(** C6: for a tiles request of 52.5 m2 the suggestion is 44 boxes covering
    52.8 m2, which is ceil(52.5/1.2), and for qty <= 0 it reports that no
    tiles are required; for 42.0 m2 (an area of 40 m2) it is 36 boxes
    covering 43.2 m2, one more than ceil(42.0/1.2) = 35. *)
Theorem tiles_boxes_values :
  tiles_boxes (dec 525 10) = Ok (44%Z, dec 528 10) /\
  Spec.boxes_needed (dec 525 10) = 44%Z /\
  tiles_estimate (dec 40 1) = Ok (dec 42 1, dec 25200 1) /\
  tiles_boxes (dec 42 1) = Ok (36%Z, dec 432 10) /\
  Spec.boxes_needed (dec 42 1) = 35%Z /\
  (forall s sqm, contains "paint" s = false -> contains "tile" s = true ->
     leb sqm zero = true ->
     purchase_suggestion s (tiles_m2 sqm) = Ok NoTiles).
Proof.
  do 5 (split; [vm_compute; reflexivity|]).
  intros s sqm P T L. unfold purchase_suggestion. rewrite P, T.
  cbv beta iota zeta. rewrite L. reflexivity.
Qed.

End Claims3.

(* ===================================================================== *)
(** * Further properties of the code *)
(* ===================================================================== *)

Section PricingErrors.
Local Open Scope string_scope.

Lemma price_painting_returns (area : float) :
  exists p, price_painting area = Ok p.
Proof. destruct (price_painting_ok area) as (l & c & lab & _ & _ & E). eauto. Qed.

Lemma price_tiles_returns (area : float) :
  exists p, price_tiles area = Ok p.
Proof. destruct (price_tiles_ok area) as (l & c & lab & _ & _ & E). eauto. Qed.

Lemma price_generic_returns (svc : string) (area : float) :
  exists p, price_generic svc area = Ok p.
Proof. destruct (price_generic_ok svc area) as (lab & _ & E). eauto. Qed.

Lemma price_plumbing_raises (points : Z) (e : exn) :
  price_plumbing points = Raise e ->
  e = OverflowError /\ (30000000000000 < points)%Z.
Proof.
  rewrite price_plumbing_eq. intros H.
  destruct (Z_le_gt_dec (Z.max points 1) 30000000000000) as [L|G].
  - rewrite plumbing_estimate_exact in H by lia. discriminate H.
  - split; [|lia].
    destruct (plumbing_estimate_raises (Z.max points 1)) as [[t E]|E];
      rewrite E in H; unfold bind in H; congruence.
Qed.

End PricingErrors.

Section AddOrder.
Local Open Scope Q_scope.

Lemma leb_refl_NN (x : float) : NN x -> leb x x = true.
Proof.
  intros [N S]. destruct x as [s|s| |s m e]; simpl in S; subst; try congruence;
    try reflexivity.
  unfold leb, compare. destruct (Qcompare_spec (F2Q (S754_finite false m e))
                                               (F2Q (S754_finite false m e)));
    try reflexivity. exfalso. lra.
Qed.

(** Addition of a finite nonnegative float, as a map on magnitudes. *)
Lemma add_lift_NN (c x : float) :
  NN c -> isinf c = false -> NN x -> add c x = lift (fun q => mag c + q) x.
Proof.
  intros [Nc Sc] Ic Nx. destruct c as [sc|sc| |sc mc ec]; simpl in Sc; subst;
    try congruence; try discriminate.
  - destruct Nx as [N S].
    destruct x as [s|s| |s m e]; simpl in S; subst; try congruence.
    + unfold lift. rewrite rnd_sm_0; [reflexivity|]. reflexivity.
    + reflexivity.
    + unfold add, lift. rewrite rnd_nonneg; [reflexivity|].
      unfold F2Q. simpl sign. cbv iota. change (mag (S754_zero false)) with 0.
      pose proof (mag_nonneg (S754_finite false m e)). lra.
  - apply add_lift; [reflexivity|exact Nx].
Qed.

Lemma add_inf_NN (x : float) :
  NN x -> add (S754_infinity false) x = S754_infinity false.
Proof.
  intros [N S]. destruct x as [s|s| |s m e]; simpl in S; subst; try congruence;
    reflexivity.
Qed.

Lemma NN_inf : NN (S754_infinity false).
Proof. split; [discriminate|reflexivity]. Qed.

Lemma NN_add_NN (c x : float) : NN c -> NN x -> NN (add c x).
Proof.
  intros Nc Nx. destruct (isinf c) eqn:I.
  - destruct c as [| [] | |]; try discriminate; try (destruct Nc as [_ S]; discriminate S).
    rewrite add_inf_NN by exact Nx. apply NN_inf.
  - rewrite add_lift_NN by assumption. apply NN_lift.
Qed.

Lemma add_mono_r (c x y : float) :
  NN c -> NN x -> NN y -> leb x y = true -> leb (add c x) (add c y) = true.
Proof.
  intros Nc Nx Ny L. destruct (isinf c) eqn:I.
  - destruct c as [| [] | |]; try discriminate; try (destruct Nc as [_ S]; discriminate S).
    rewrite !add_inf_NN by assumption. reflexivity.
  - rewrite !add_lift_NN by assumption. apply lift_mono; try assumption.
    intros a b Ha Hab. pose proof (mag_nonneg c). split; lra.
Qed.

Lemma add_mono_NN (x x' y y' : float) :
  NN x -> NN x' -> NN y -> NN y' ->
  leb x x' = true -> leb y y' = true -> leb (add x y) (add x' y') = true.
Proof.
  intros Nx Nx' Ny Ny' Lx Ly.
  apply leb_trans with (add x y').
  - apply add_mono_r; assumption.
  - rewrite (add_comm x y'), (add_comm x' y'). apply add_mono_r; assumption.
Qed.

End AddOrder.

Section TotalsOrder.
Local Open Scope string_scope.

Lemma leb_ltb_trans (x y z : float) :
  leb x y = true -> ltb y z = true -> ltb x z = true.
Proof. intros H1 H2. by_cases; qcmp. Qed.

Lemma NN_leb_zero (x : float) : NN x -> leb x zero = true -> x = zero.
Proof.
  intros [N S] L. destruct x as [s|s| |s m e]; simpl in S; subst;
    try congruence; try reflexivity; try discriminate L.
  exfalso. unfold leb, compare in L.
  pose proof (mag_finite_pos false m e) as P.
  destruct (Qcompare_spec (F2Q (S754_finite false m e)) (F2Q zero)) as [C|C|C];
    try discriminate L; unfold F2Q in C; simpl sign in C; cbv iota in C;
    change (mag zero) with 0%Q in C; lra.
Qed.

Lemma positive_NN (a : float) : ltb zero a = true -> NN a /\ leb a zero = false.
Proof.
  intros P. split; [apply ltb_zero_NN, P|apply ltb_leb_false, P].
Qed.

Lemma ltb_zero_trans (a b : float) :
  ltb zero a = true -> leb a b = true -> ltb zero b = true.
Proof. apply ltb_leb_trans. Qed.

(** Labour of a positive area at a positive finite rate. *)
Lemma labour_positive_area (a r : float) :
  ltb zero a = true ->
  generic_labour_with a r = Ok (round2 (mul a r)).
Proof.
  intros P. rewrite generic_labour_with_eq, (ltb_leb_false _ _ P). reflexivity.
Qed.

Lemma labour_mono (r a1 a2 : float) :
  pos_finite r = true -> ltb zero a1 = true -> leb a1 a2 = true ->
  NN (round2 (mul a1 r)) /\ NN (round2 (mul a2 r)) /\
  leb (round2 (mul a1 r)) (round2 (mul a2 r)) = true.
Proof.
  intros R P L. destruct (positive_NN a1 P) as [N1 _].
  destruct (positive_NN a2 (ltb_zero_trans a1 a2 P L)) as [N2 _].
  split; [apply NN_round2, NN_mul; assumption|].
  split; [apply NN_round2, NN_mul; assumption|].
  apply round2_mono; [apply NN_mul; assumption..|]. apply mul_mono; assumption.
Qed.

Lemma const_30 : pos_finite (dec 30 1) = true.
Proof. vm_compute; reflexivity. Qed.
Lemma const_50 : pos_finite (dec 50 1) = true.
Proof. vm_compute; reflexivity. Qed.
Lemma const_80 : pos_finite (dec 80 1) = true.
Proof. vm_compute; reflexivity. Qed.
Lemma const_150 : pos_finite (dec 150 1) = true.
Proof. vm_compute; reflexivity. Qed.

Lemma paint_positive_area (a : float) :
  ltb zero a = true -> paint_estimate a = Ok (Spec.paint_formula a).
Proof. intros P. rewrite paint_estimate_eq, (ltb_leb_false _ _ P). reflexivity. Qed.

Lemma tiles_positive_area (a : float) :
  ltb zero a = true -> tiles_estimate a = Ok (Spec.tiles_formula a).
Proof. intros P. rewrite tiles_estimate_eq, (ltb_leb_false _ _ P). reflexivity. Qed.

(** The totals of the four branches at a positive area. *)
Lemma price_painting_positive (a : float) :
  ltb zero a = true ->
  exists p, price_painting a = Ok p /\
    total p = add (snd (Spec.paint_formula a)) (round2 (mul a (dec 30 1))).
Proof.
  intros P. unfold price_painting, generic_labour.
  rewrite (paint_positive_area a P), (labour_positive_area a _ P).
  destruct (Spec.paint_formula a) as [l c]. unfold bind. cbv beta iota.
  eexists. split; reflexivity.
Qed.

Lemma price_tiles_positive (a : float) :
  ltb zero a = true ->
  exists p, price_tiles a = Ok p /\
    total p = add (snd (Spec.tiles_formula a)) (round2 (mul a (dec 50 1))).
Proof.
  intros P. unfold price_tiles.
  rewrite (tiles_positive_area a P), (labour_positive_area a _ P).
  destruct (Spec.tiles_formula a) as [l c]. unfold bind. cbv beta iota.
  eexists. split; reflexivity.
Qed.

Lemma price_generic_positive (svc : string) (a : float) :
  ltb zero a = true ->
  exists p, price_generic svc a = Ok p /\
    total p = add (round2 (mul a (dec 80 1))) (mul a (dec 150 1)).
Proof.
  intros P. unfold price_generic. rewrite (labour_positive_area a _ P).
  unfold bind. eexists. split; reflexivity.
Qed.

Lemma total_order (svc : string) (a1 a2 : float) (points : Z) (p1 p2 : priced) :
  ltb zero a1 = true -> leb a1 a2 = true ->
  price svc a1 points = Ok p1 -> price svc a2 points = Ok p2 ->
  NN (total p1) /\ NN (total p2) /\ leb (total p1) (total p2) = true.
Proof.
  intros P L. pose proof (ltb_zero_trans a1 a2 P L) as P2.
  destruct (positive_NN a1 P) as [N1 _]. destruct (positive_NN a2 P2) as [N2 _].
  rewrite !price_dispatch. destruct (Spec.dispatch svc).
  - destruct (price_painting_positive a1 P) as (q1 & -> & T1).
    destruct (price_painting_positive a2 P2) as (q2 & -> & T2).
    intros E1 E2. apply Ok_inj in E1, E2. subst q1 q2. rewrite T1, T2.
    destruct (paint_formula_NN a1 N1) as [_ C1].
    destruct (paint_formula_NN a2 N2) as [_ C2].
    destruct (paint_formula_mono a1 a2 N1 N2 L) as [_ CM].
    destruct (labour_mono (dec 30 1) a1 a2 const_30 P L) as (L1 & L2 & LM).
    split; [apply NN_add_NN; assumption|]. split; [apply NN_add_NN; assumption|].
    apply add_mono_NN; assumption.
  - destruct (price_tiles_positive a1 P) as (q1 & -> & T1).
    destruct (price_tiles_positive a2 P2) as (q2 & -> & T2).
    intros E1 E2. apply Ok_inj in E1, E2. subst q1 q2. rewrite T1, T2.
    destruct (tiles_formula_NN a1 N1) as [_ C1].
    destruct (tiles_formula_NN a2 N2) as [_ C2].
    destruct (tiles_formula_mono a1 a2 N1 N2 L) as [_ CM].
    destruct (labour_mono (dec 50 1) a1 a2 const_50 P L) as (L1 & L2 & LM).
    split; [apply NN_add_NN; assumption|]. split; [apply NN_add_NN; assumption|].
    apply add_mono_NN; assumption.
  - intros E1 E2. rewrite E1 in E2. apply Ok_inj in E2. subst p2.
    destruct (price_plumbing_ok points p1 E1) as (Q & _ & _).
    destruct (plumbing_estimate_ge_800 (Z.max points 1) (total p1) ltac:(lia) Q)
      as [N _].
    split; [exact N|]. split; [exact N|]. apply leb_refl_NN, N.
  - destruct (price_generic_positive svc a1 P) as (q1 & -> & T1).
    destruct (price_generic_positive svc a2 P2) as (q2 & -> & T2).
    intros E1 E2. apply Ok_inj in E1, E2. subst q1 q2. rewrite T1, T2.
    destruct (labour_mono (dec 80 1) a1 a2 const_80 P L) as (L1 & L2 & LM).
    pose proof (NN_mul (dec 150 1) a1 const_150 N1) as M1.
    pose proof (NN_mul (dec 150 1) a2 const_150 N2) as M2.
    pose proof (mul_mono (dec 150 1) a1 a2 const_150 N1 N2 L) as MM.
    split; [apply NN_add_NN; assumption|]. split; [apply NN_add_NN; assumption|].
    apply add_mono_NN; assumption.
Qed.

End TotalsOrder.

Section Further.
Local Open Scope string_scope.

(** X1: the pricing step of [generate_estimate] raises nothing but an
    OverflowError, and only in the Plumbing branch for a point count above
    3*10^13; every other request is priced. *)
Theorem price_raises_only_overflow (svc : string) (area : float) (points : Z) :
  (forall e, price svc area points = Raise e ->
     e = OverflowError /\ Spec.dispatch svc = Spec.Plumbing /\
     (30000000000000 < points)%Z) /\
  (Spec.dispatch svc <> Spec.Plumbing \/ (points <= 30000000000000)%Z ->
     exists p, price svc area points = Ok p).
Proof.
  rewrite price_dispatch. split.
  - intros e. destruct (Spec.dispatch svc).
    + destruct (price_painting_returns area) as [p ->]. discriminate.
    + destruct (price_tiles_returns area) as [p ->]. discriminate.
    + intros H. destruct (price_plumbing_raises points e H). auto.
    + destruct (price_generic_returns svc area) as [p ->]. discriminate.
  - intros H. destruct (Spec.dispatch svc).
    + apply price_painting_returns.
    + apply price_tiles_returns.
    + destruct H as [H|H]; [contradiction|].
      destruct (price_plumbing points) as [p|e] eqn:E; [eauto|].
      destruct (price_plumbing_raises points e E). lia.
    + apply price_generic_returns.
Qed.

Lemma price_raises_only_overflow_witness :
  exists p, price "Plumbing" zero 4 = Ok p.
Proof.
  apply (proj2 (price_raises_only_overflow "Plumbing" zero 4)). right. lia.
Defined.

(** X2: [paint_estimate] with explicit parameters.  For an area <= 0 the
    guard returns (0.0, 0.0) before the division, a zero coverage
    included.  For every other area, a positive one or NaN, a zero
    coverage raises ZeroDivisionError; with another coverage a coat count
    too big for a float raises OverflowError, and otherwise the call
    returns; nothing else is raised.  [tiles_estimate] and
    [generic_labour] return for all parameters. *)
Theorem estimator_errors (area coverage wastage price rate : float) (coats : Z) :
  (leb area zero = true ->
     paint_estimate_with area coverage coats wastage price = Ok (zero, zero)) /\
  (leb area zero = false -> eqb coverage zero = true ->
     paint_estimate_with area coverage coats wastage price
     = Raise ZeroDivisionError) /\
  (leb area zero = false -> eqb coverage zero = false ->
     match float_of_int coats with
     | Ok _ => exists q,
         paint_estimate_with area coverage coats wastage price = Ok q
     | Raise e =>
         e = OverflowError /\
         paint_estimate_with area coverage coats wastage price
         = Raise OverflowError
     end) /\
  (forall e, paint_estimate_with area coverage coats wastage price = Raise e ->
     leb area zero = false /\
     ((e = ZeroDivisionError /\ eqb coverage zero = true) \/
      (e = OverflowError /\ eqb coverage zero = false /\
       float_of_int coats = Raise OverflowError))) /\
  (exists q, tiles_estimate_with area wastage price = Ok q) /\
  (exists l, generic_labour_with area rate = Ok l).
Proof.
  split; [|split; [|split; [|split; [|split]]]].
  - intros A. unfold paint_estimate_with. rewrite A. reflexivity.
  - intros A C. unfold paint_estimate_with, truediv. rewrite A, C. reflexivity.
  - intros A C. unfold paint_estimate_with, truediv. rewrite A, C.
    unfold bind at 1.
    destruct (float_of_int_raises coats) as [[f E]|E]; rewrite E; unfold bind.
    + eexists. reflexivity.
    + split; reflexivity.
  - intros e. unfold paint_estimate_with, truediv.
    destruct (leb area zero); [discriminate|].
    destruct (eqb coverage zero).
    + unfold bind. intros H. split; [reflexivity|]. left. split; congruence.
    + unfold bind at 1. destruct (float_of_int_raises coats) as [[f E]|E];
        rewrite E; unfold bind; intros H; [discriminate H|].
      split; [reflexivity|]. right. repeat split; congruence.
  - unfold tiles_estimate_with. destruct (leb area zero); eauto.
  - apply generic_labour_returns.
Qed.

Lemma estimator_errors_witness :
  paint_estimate_with S754_nan zero 2 (dec 1 10) (dec 250 1)
  = Raise ZeroDivisionError /\
  paint_estimate_with (dec (-5) 1) zero 2 (dec 1 10) (dec 250 1)
  = Ok (zero, zero).
Proof.
  split.
  - refine (proj1 (proj2 (estimator_errors S754_nan zero (dec 1 10) (dec 250 1)
                                           zero 2)) _ _);
      vm_compute; reflexivity.
  - refine (proj1 (estimator_errors (dec (-5) 1) zero (dec 1 10) (dec 250 1)
                                    zero 2) _).
    vm_compute. reflexivity.
Defined.

(** X3: for a positive area a larger area never lowers the quote: in
    every branch the displayed total and the stored total are
    non-decreasing in the area. *)
Theorem quote_total_monotone (svc : string) (a1 a2 : float) (points : Z)
    (p1 p2 : priced) :
  ltb zero a1 = true -> leb a1 a2 = true ->
  price svc a1 points = Ok p1 -> price svc a2 points = Ok p2 ->
  leb (total p1) (total p2) = true /\
  leb (e_total (store svc a1 points p1)) (e_total (store svc a2 points p2)) = true.
Proof.
  intros P L E1 E2.
  destruct (total_order svc a1 a2 points p1 p2 P L E1 E2) as (N1 & N2 & T).
  split; [exact T|]. unfold store. cbn [e_total].
  apply round2_mono; assumption.
Qed.

Lemma quote_total_monotone_witness :
  exists p1 p2,
    price "Tiles" (dec 10 1) 0 = Ok p1 /\ price "Tiles" (dec 25 2) 0 = Ok p2 /\
    leb (total p1) (total p2) = true.
Proof.
  eexists. eexists. split; [vm_compute; reflexivity|].
  split; [vm_compute; reflexivity|].
  refine (proj1 (quote_total_monotone "Tiles" (dec 10 1) (dec 25 2) 0 _ _ _ _ _ _));
    vm_compute; reflexivity.
Defined.

End Further.

Section PaintingFlow.
Local Open Scope string_scope.

Lemma paint_estimate_NN (a l c : float) :
  a <> S754_nan -> paint_estimate a = Ok (l, c) -> NN l /\ NN c.
Proof.
  intros N. rewrite paint_estimate_eq. destruct (leb a zero) eqn:Z; intros E;
    apply Ok_inj in E.
  - apply pair_inj in E. destruct E. subst. split; apply NN_zero.
  - assert (Na : NN a).
    { apply ltb_zero_NN, leb_false_ltb; [exact N|discriminate|exact Z]. }
    destruct (paint_formula_NN a Na) as [A B]. rewrite E in A, B. split; assumption.
Qed.

Lemma paint_bound_value :
  paint_estimate (dec 40000000000000000 1)
  = Ok (dec 8800000000000001 1, dec 2200000000000000256 1).
Proof. vm_compute. reflexivity. Qed.

Lemma paint_bound_below : ltb (dec 8800000000000001 1) (dec (2 ^ 53) 1) = true.
Proof. vm_compute. reflexivity. Qed.

(** Litres of an area of at most 4*10^16 m2. *)
Lemma paint_litres_bounded (a l c : float) :
  leb a (dec 40000000000000000 1) = true -> paint_estimate a = Ok (l, c) ->
  NN l /\ ltb l (dec (2 ^ 53) 1) = true.
Proof.
  intros L E. destruct (leb_not_nan _ _ L) as [N _].
  destruct (paint_estimate_NN a l c N E) as [Nl _]. split; [exact Nl|].
  pose proof (paint_estimate_mono _ _ L) as M.
  rewrite E, paint_bound_value in M. destruct M as [M _].
  apply leb_ltb_trans with (dec 8800000000000001 1); [exact M|].
  exact paint_bound_below.
Qed.

Lemma paint_tiny_value :
  paint_estimate (dec 2 100) = Ok (zero, dec 110 100).
Proof. vm_compute. reflexivity. Qed.

Lemma paint_litres_tiny (a l c : float) :
  leb a (dec 2 100) = true -> paint_estimate a = Ok (l, c) -> l = zero.
Proof.
  intros L E. destruct (leb_not_nan _ _ L) as [N _].
  destruct (paint_estimate_NN a l c N E) as [Nl _].
  pose proof (paint_estimate_mono _ _ L) as M.
  rewrite E, paint_tiny_value in M. destruct M as [M _].
  apply NN_leb_zero; assumption.
Qed.

(** [generate_estimate] in the Painting branch, no material model. *)
Lemma generate_painting (text : string) (area : float) (points : Z)
    (l c lab : float) :
  contains "paint" (lower (chosen_service text)) = true ->
  paint_estimate area = Ok (l, c) -> generic_labour area = Ok lab ->
  generate_estimate text area points "" =
  (Some {| e_service := chosen_service text; e_area := area; e_points := points;
           e_total := round2 (add c lab);
           e_breakdown := [Title "Painting"; PaintMaterial l c; LabourLine lab] |},
   bind (if leb l zero then Ok NoPaint
         else bind (paint_cans l)
                (fun cans =>
                   Ok (PaintPurchase
                         (match cans with
                          | [] => None
                          | _ => Some (paint_parts cans)
                          end) l)))
        (fun mat_text =>
           Ok {| q_breakdown := [Title "Painting"; PaintMaterial l c; LabourLine lab];
                 q_mat_text := mat_text; q_total := add c lab |})).
Proof.
  intros C E G. unfold generate_estimate, price. cbv zeta. rewrite C.
  unfold price_painting. rewrite E. unfold bind at 1. cbv beta iota.
  rewrite G. unfold bind at 1. cbv beta iota.
  unfold purchase_suggestion, store. cbn [material_qty total breakdown].
  rewrite C. reflexivity.
Qed.

Lemma dispatch_plumbing (svc : string) :
  Spec.dispatch svc = Spec.Plumbing ->
  contains "paint" (lower svc) = false /\ contains "tile" (lower svc) = false /\
  contains "plumb" (lower svc) = true.
Proof.
  unfold Spec.dispatch. cbv zeta.
  destruct (contains "paint" (lower svc)); [discriminate|].
  destruct (contains "tile" (lower svc)); [discriminate|].
  destruct (contains "plumb" (lower svc)); [auto|discriminate].
Qed.

End PaintingFlow.

Section Cans.
Local Open Scope string_scope.

Lemma cans_ok_set (k : string) (v : Z) (cans : dict Z) :
  In k ["10L"; "4L"; "1L"] -> (0 < v)%Z -> cans_ok cans ->
  cans_ok (dict_set k v cans).
Proof.
  intros K V. unfold cans_ok. induction cans as [|[k' v'] r IH]; intros H.
  - cbn [dict_set]. constructor; [split; assumption|constructor].
  - cbn [dict_set]. inversion H as [|? ? H1 H2]; subst.
    destruct (String.eqb k k').
    + constructor; [split; assumption|exact H2].
    + constructor; [exact H1|apply IH, H2].
Qed.

Lemma cans_ok_get (k : string) (cans : dict Z) :
  cans_ok cans -> (0 <= dict_get k 0 cans)%Z.
Proof.
  unfold cans_ok. induction cans as [|[k' v'] r IH]; intros H; cbn [dict_get].
  - lia.
  - inversion H as [|? ? H1 H2]; subst. destruct (String.eqb k k').
    + cbn [snd] in H1. lia.
    + apply IH, H2.
Qed.

Lemma pack_step_ok (st st' : float * dict Z) (size : float) (k : Z) :
  int_of_float size = Ok k -> In (str k ++ "L") ["10L"; "4L"; "1L"] ->
  pack_step st size = Ok st' -> cans_ok (snd st) -> cans_ok (snd st').
Proof.
  intros K I. destruct st as [needed cans]. unfold pack_step.
  destruct (floordiv needed size) as [q|e]; [|discriminate].
  unfold bind at 1. destruct (int_of_float q) as [cnt|e]; [|discriminate].
  unfold bind at 1. destruct (Z.gtb_spec cnt 0) as [P|P].
  - rewrite K. unfold bind at 1. destruct (int_mul cnt size) as [c|e]; [|discriminate].
    unfold bind. intros E. apply Ok_inj in E. subst st'. cbn [snd].
    intros H. apply cans_ok_set; assumption.
  - intros E. apply Ok_inj in E. subst st'. auto.
Qed.

Lemma size_keys :
  int_of_float (dec 10 1) = Ok 10%Z /\ int_of_float (dec 4 1) = Ok 4%Z /\
  int_of_float (dec 1 1) = Ok 1%Z.
Proof. repeat split; vm_compute; reflexivity. Qed.

End Cans.

Section Further2.
Local Open Scope string_scope.

(** X4: a Painting request of any area up to 4*10^16 m2 (negative, zero
    and tiny areas included) gets a quote and raises nothing: the estimate
    is stored with the rounded total, and the material text is either
    "No paint required" or a list of cans that hold at least the litres. *)
Theorem painting_quote_returned (text : string) (area : float) (points : Z) :
  contains "paint" (lower (chosen_service text)) = true ->
  leb area (dec 40000000000000000 1) = true ->
  exists last q,
    generate_estimate text area points "" = (Some last, Ok q) /\
    e_total last = round2 (q_total q) /\
    e_breakdown last = q_breakdown q /\
    (q_mat_text q = NoPaint \/
     exists litres cans,
       paint_cans litres = Ok cans /\
       q_mat_text q = PaintPurchase (Some (paint_parts cans)) litres /\
       (F2Q litres <= inject_Z (Spec.capacity cans))%Q).
Proof.
  intros C A.
  destruct (price_painting_ok area) as (l & c & lab & E & G & _).
  rewrite (generate_painting text area points l c lab C E G).
  destruct (paint_litres_bounded area l c A E) as [Nl B].
  destruct (leb l zero) eqn:Z.
  - unfold bind. eexists. eexists. split; [reflexivity|].
    cbn [e_total q_total e_breakdown q_breakdown q_mat_text].
    split; [reflexivity|]. split; [reflexivity|]. left. reflexivity.
  - assert (P : ltb zero l = true).
    { apply leb_false_ltb; [apply Nl|discriminate|exact Z]. }
    destruct (paint_request_shape area l c E P B) as (n & X & N & -> & K & G' & R).
    destruct (paint_cans_greedy n X N K G' R) as (PC & CV & NE).
    rewrite PC. unfold bind.
    destruct (Spec.greedy (funits X)) as [|kv r] eqn:GR; [contradiction|].
    eexists. eexists. split; [reflexivity|].
    cbn [e_total q_total e_breakdown q_breakdown q_mat_text].
    split; [reflexivity|]. split; [reflexivity|]. right.
    exists (funits X), (kv :: r).
    split; [exact PC|]. split; [reflexivity|exact CV].
Qed.

Lemma painting_quote_returned_witness :
  exists last q,
    generate_estimate "Select Service" (dec 100 1) 0 "" = (Some last, Ok q).
Proof.
  destruct (painting_quote_returned "Select Service" (dec 100 1) 0)
    as (last & q & E & _); [vm_compute; reflexivity..|].
  exists last, q. exact E.
Defined.

(** X5: a positive area of at most 0.02 m2 needs 0.0 litres after
    rounding, so the Painting quote says "No paint required for 0 area"
    although the area is not 0. *)
Theorem tiny_area_no_paint (text : string) (area : float) (points : Z) :
  contains "paint" (lower (chosen_service text)) = true ->
  ltb zero area = true -> leb area (dec 2 100) = true ->
  (exists cost, paint_estimate area = Ok (zero, cost)) /\
  exists last q,
    generate_estimate text area points "" = (Some last, Ok q) /\
    q_mat_text q = NoPaint.
Proof.
  intros C P A.
  destruct (price_painting_ok area) as (l & c & lab & E & G & _).
  pose proof (paint_litres_tiny area l c A E) as Z. subst l.
  split; [exists c; exact E|].
  rewrite (generate_painting text area points zero c lab C E G).
  rewrite leb_zero_zero. unfold bind. eexists. eexists. split; reflexivity.
Qed.

Lemma tiny_area_no_paint_witness :
  exists cost, paint_estimate (dec 1 100) = Ok (zero, cost).
Proof.
  refine (proj1 (tiny_area_no_paint "Painting" (dec 1 100) 0 _ _ _));
    vm_compute; reflexivity.
Defined.

(** X6: whatever the litres, the cans dictionary built by the purchase
    suggestion only has the keys 10L, 4L and 1L, each with a positive
    count. *)
Theorem paint_cans_wellformed (litres : float) (cans : dict Z) :
  paint_cans litres = Ok cans ->
  Forall (fun kv => In (fst kv) ["10L"; "4L"; "1L"] /\ (0 < snd kv)%Z) cans.
Proof.
  change (paint_cans litres = Ok cans -> cans_ok cans).
  destruct size_keys as (K10 & K4 & K1).
  unfold paint_cans, can_sizes. rewrite pack_loop_cons.
  destruct (pack_step (litres, []) (dec 10 1)) as [s1|e] eqn:E1; [|discriminate].
  unfold bind at 2. rewrite pack_loop_cons.
  destruct (pack_step s1 (dec 4 1)) as [s2|e] eqn:E2; [|discriminate].
  unfold bind at 2. rewrite pack_loop_cons.
  destruct (pack_step s2 (dec 1 1)) as [s3|e] eqn:E3; [|discriminate].
  unfold bind at 2. rewrite pack_loop_nil. unfold bind.
  assert (H0 : cans_ok (snd (litres, @nil (string * Z)))) by constructor.
  pose proof (pack_step_ok _ _ _ 10%Z K10 ltac:(left; reflexivity) E1 H0) as H1.
  pose proof (pack_step_ok _ _ _ 4%Z K4 ltac:(right; left; reflexivity) E2 H1) as H2.
  pose proof (pack_step_ok _ _ _ 1%Z K1 ltac:(right; right; left; reflexivity) E3 H2) as H3.
  destruct s3 as [needed c3]. cbn [snd] in H3.
  intros E. apply Ok_inj in E. subst cans.
  destruct (ltb zero needed); [|exact H3].
  apply cans_ok_set; [right; right; left; reflexivity| |exact H3].
  pose proof (cans_ok_get "1L" c3 H3). lia.
Qed.


Lemma paint_cans_wellformed_witness :
  Forall (fun kv => In (fst kv) ["10L"; "4L"; "1L"] /\ (0 < snd kv)%Z)
         [("10L", 2%Z); ("1L", 2%Z)].
Proof.
  refine (paint_cans_wellformed (dec 22 1) _ _). vm_compute. reflexivity.
Defined.

(** X7: a Plumbing request with points <= 0 is priced for one point, yet
    the stored estimate keeps the points as entered: it records a total of
    800.0 for a point count at which [plumbing_estimate] itself gives
    0.0. *)
Theorem plumbing_record_keeps_raw_points (text : string) (area : float)
    (points : Z) :
  Spec.dispatch (chosen_service text) = Spec.Plumbing -> (points <= 0)%Z ->
  exists last q,
    generate_estimate text area points "" = (Some last, Ok q) /\
    e_points last = points /\ e_total last = dec 800 1 /\
    plumbing_estimate (e_points last) = Ok zero /\
    q_mat_text q = PlumbingPurchase 1.
Proof.
  intros D P. destruct (dispatch_plumbing _ D) as (C1 & C2 & C3).
  unfold generate_estimate. rewrite price_dispatch, D, price_plumbing_eq.
  replace (Z.max points 1) with 1%Z by lia.
  rewrite (plumbing_estimate_exact 1) by lia. unfold bind at 1.
  cbv beta iota zeta. unfold purchase_suggestion. cbn [material_qty].
  rewrite C1, C2, C3. unfold bind.
  eexists. eexists. split; [reflexivity|]. unfold store.
  cbn [e_points e_total total q_mat_text].
  split; [reflexivity|]. split.
  - rewrite round2_fint, dec_int by lia. reflexivity.
  - split; [apply plumbing_estimate_nonpos, P|reflexivity].
Qed.

Lemma plumbing_record_keeps_raw_points_witness :
  exists last q,
    generate_estimate "Plumbing" zero 0 "" = (Some last, Ok q) /\
    e_points last = 0%Z /\ e_total last = dec 800 1.
Proof.
  destruct (plumbing_record_keeps_raw_points "Plumbing" zero 0)
    as (last & q & E & P & T & _); [vm_compute; reflexivity|lia|].
  exists last, q. repeat split; assumption.
Defined.

(** X8: an unselected service (an empty spinner text or the placeholder
    "Select Service") is handled as "Painting": the whole outcome of
    [generate_estimate] is that of a Painting request, and any other text
    is kept as the service name. *)
Theorem unselected_service_is_painting (text : string) (area : float)
    (points : Z) (model_text : string) :
  (text = "" \/ text = "Select Service" ->
     generate_estimate text area points model_text
     = generate_estimate "Painting" area points model_text /\
     price (chosen_service text) area points = price_painting area) /\
  (text <> "" -> text <> "Select Service" -> chosen_service text = text).
Proof.
  split.
  - intros [-> | ->]; split; reflexivity.
  - intros H1 H2. unfold chosen_service.
    destruct (String.eqb_spec text ""); [contradiction|].
    destruct (String.eqb_spec text "Select Service"); [contradiction|].
    reflexivity.
Qed.

Lemma unselected_service_is_painting_witness :
  generate_estimate "" (dec 100 1) 0 ""
  = generate_estimate "Painting" (dec 100 1) 0 "".
Proof.
  exact (proj1 (proj1 (unselected_service_is_painting "" (dec 100 1) 0 "")
                      (or_introl eq_refl))).
Defined.

End Further2.

Section Remainders.
Local Open Scope Z_scope.

(** The remainder of two float magnitudes is a float magnitude. *)
Lemma ongrid_mod (X Y : Z) : ongrid X -> ongrid Y -> 0 < Y -> ongrid (X mod Y).
Proof.
  intros (a & i & Ha & Hi & ->) (b & j & Hb & Hj & ->) PY.
  pose proof (pow2_pos i Hi) as Pi. pose proof (pow2_pos j Hj) as Pj.
  assert (Pb : 0 < b) by nia.
  destruct (Z_le_gt_dec j i) as [L|G].
  - replace (a * 2 ^ i) with ((a * 2 ^ (i - j)) * 2 ^ j).
    + rewrite Z.mul_mod_distr_r by lia.
      pose proof (Z.mod_pos_bound (a * 2 ^ (i - j)) b Pb).
      exists ((a * 2 ^ (i - j)) mod b), j. repeat split; lia.
    + rewrite <- Z.mul_assoc, <- Z.pow_add_r by lia. do 2 f_equal. lia.
  - replace (b * 2 ^ j) with ((b * 2 ^ (j - i)) * 2 ^ i).
    + pose proof (pow2_pos (j - i) ltac:(lia)) as Pd.
      rewrite Z.mul_mod_distr_r by nia.
      pose proof (Z.mod_pos_bound a (b * 2 ^ (j - i)) ltac:(nia)).
      pose proof (Z.mod_le a (b * 2 ^ (j - i)) ltac:(lia) ltac:(nia)).
      exists (a mod (b * 2 ^ (j - i))), i. repeat split; lia.
    + rewrite <- Z.mul_assoc, <- Z.pow_add_r by lia. do 2 f_equal. lia.
Qed.

End Remainders.

Section RoundedOps.
Local Open Scope Q_scope.

(** The float nearest a nonnegative rational, in units. *)
Lemma rnd_value (q : Q) :
  0 <= q -> rnd false q = funits (round_units (q * QU)).
Proof.
  intros H. rewrite rnd_nonneg by exact H. reflexivity.
Qed.

Lemma sub_round (X R : Z) :
  fin_units X -> fin_units R -> (R <= X)%Z ->
  sub (funits X) (funits R) = funits (round_units (inject_Z (X - R))).
Proof.
  intros FX FR L. unfold sub. pose proof QU_pos as HU.
  pose proof (F2Q_funits X FX) as VX. pose proof (F2Q_funits R FR) as VR.
  assert (E : F2Q (funits X) + F2Q (opp (funits R)) == inject_Z (X - R) / QU).
  { rewrite F2Q_opp, VX, VR, inject_Z_sub. field. lra. }
  assert (P : 0 <= inject_Z (X - R) / QU).
  { apply Qle_shift_div_l; [exact HU|]. rewrite Qmult_0_l.
    apply inject_Z_nonneg. lia. }
  assert (K : rnd false (F2Q (funits X) + F2Q (opp (funits R)))
              = funits (round_units (inject_Z (X - R)))).
  { rewrite (rnd_comp false _ _ E), rnd_value by exact P. f_equal.
    apply round_units_comp. field. lra. }
  destruct (funits_shape X FX) as [[ZX EX]|[PX (mx & ex & EX & _)]];
  destruct (funits_shape R FR) as [[ZR ER]|[PR (mr & er & ER & _)]];
    rewrite EX, ER in *.
  - subst. change (0 - 0)%Z with 0%Z.
    rewrite round_units_exact by apply ongrid_0. rewrite funits_0.
    reflexivity.
  - lia.
  - simpl opp. unfold add. exact K.
  - simpl opp. unfold add. exact K.
Qed.

Lemma div_round (A Y : Z) :
  fin_units A -> fin_units Y -> (0 < Y)%Z ->
  div (funits A) (funits Y)
  = funits (round_units (inject_Z A / inject_Z Y * QU)).
Proof.
  intros FA FY PY. pose proof QU_pos as HU.
  pose proof (F2Q_funits A FA) as VA. pose proof (F2Q_funits Y FY) as VY.
  assert (QY : 0 < inject_Z Y) by (apply inject_Z_pos, PY).
  assert (A0 : 0 <= inject_Z A).
  { apply inject_Z_nonneg, ongrid_nonneg. apply FA. }
  assert (E : F2Q (funits A) / F2Q (funits Y) == inject_Z A / inject_Z Y).
  { rewrite VA, VY. field. split; lra. }
  assert (P : 0 <= inject_Z A / inject_Z Y).
  { apply Qle_shift_div_l; [exact QY|]. lra. }
  assert (K : rnd false (F2Q (funits A) / F2Q (funits Y))
              = funits (round_units (inject_Z A / inject_Z Y * QU))).
  { rewrite (rnd_comp false _ _ E). apply rnd_value, P. }
  destruct (funits_shape A FA) as [[ZA EA]|[PA (ma & ea & EA & _)]];
  destruct (funits_shape Y FY) as [[ZY EY]|[_ (my & ey & EY & _)]]; try lia;
    rewrite EA, EY in *; unfold div; simpl sign; simpl xorb; exact K.
Qed.

Lemma floor_funits (V : Z) :
  ongrid V -> (V < 2 ^ 53 * U)%Z -> floor (funits V) = fint (V / U).
Proof.
  intros G B. pose proof U_pos as UP. pose proof QU_pos as HU.
  assert (FV : fin_units V) by (apply fin_units_small; assumption).
  pose proof (ongrid_nonneg V G) as V0.
  assert (K : (0 <= V / U <= 2 ^ 53)%Z).
  { split; [apply Z.div_pos; lia|].
    assert (V / U < 2 ^ 53)%Z by (apply Z.div_lt_upper_bound; lia). lia. }
  pose proof (F2Q_funits V FV) as VV.
  destruct (funits_shape V FV) as [[Z S]|[_ (m & e & S & _)]]; rewrite S in *.
  - subst V. rewrite Z.div_0_l by lia. unfold fint.
    rewrite Z.mul_0_l, funits_0. reflexivity.
  - unfold floor.
    assert (F : Qfloor (F2Q (S754_finite false m e)) = (V / U)%Z).
    { rewrite (Qfloor_comp _ _ VV). unfold QU. rewrite <- Zdiv_Qdiv.
      reflexivity. }
    rewrite F. unfold fint. apply rnd_funits; [apply ongrid_int, K|].
    rewrite units_div. reflexivity.
Qed.

Lemma half_units : half = funits (2 ^ 1073).
Proof. vm_compute. reflexivity. Qed.

Lemma one_fint : one = fint 1.
Proof. unfold one. apply dec_int. lia. Qed.

End RoundedOps.

Section Quotients.
Local Open Scope Q_scope.

(** Relative error of rounding a normal magnitude: at most [2^-53]. *)
Lemma round_units_rel (x : Q) :
  inject_Z (2 ^ 53) <= x ->
  inject_Z (round_units x) - x <= x * (1 # 9007199254740992) /\
  x - inject_Z (round_units x) <= x * (1 # 9007199254740992).
Proof.
  intros H.
  assert (P53 : 0 < inject_Z (2 ^ 53)) by (apply inject_Z_pos, pow2_pos; lia).
  assert (X0 : 0 <= x) by lra.
  destruct (round_units_error x X0) as [L R]. cbv zeta in L, R.
  assert (F : (2 ^ 53 <= Qfloor x)%Z).
  { rewrite <- (Qfloor_Z (2 ^ 53)). apply Qfloor_resp_le, H. }
  destruct (binade_large (Qfloor x) F) as (B1 & B2 & _).
  set (b := binade (Qfloor x)) in *.
  assert (E : p2 b * 4503599627370496 <= x).
  { apply Qle_trans with (inject_Z (Qfloor x)); [|apply Qfloor_le].
    change 4503599627370496 with (p2 52).
    rewrite Qmult_comm, <- p2_add by lia. unfold p2. rewrite <- Zle_Qle. exact B2. }
  set (e := p2 b) in *. set (r := inject_Z (round_units x)) in *.
  clearbody e r. qnorm. split; lra.
Qed.

Lemma QU_large : inject_Z (2 ^ 54) <= QU.
Proof.
  unfold QU, U. rewrite <- Zle_Qle. apply Z.pow_le_mono_r; lia.
Qed.

(** The float quotient of the rounded [k*Y] by [Y] is at most a quarter
    below and three eighths above [k], for [k] up to [2^50]. *)
Lemma quotient_units (k Y : Z) :
  (1 <= k <= 2 ^ 50)%Z -> (2 ^ 53 <= Y)%Z ->
  let D' := round_units (inject_Z (k * Y)) in
  let V := round_units (inject_Z D' / inject_Z Y * QU) in
  (4 * (k * U - V) <= U /\ 8 * (V - k * U) <= 3 * U)%Z.
Proof.
  intros K HY D' V. pose proof QU_pos as HU. pose proof QU_large as HL.
  assert (P53 : (0 < 2 ^ 53)%Z) by (apply pow2_pos; lia).
  assert (QY : 0 < inject_Z Y) by (apply inject_Z_pos; lia).
  assert (QY53 : inject_Z (2 ^ 53) <= inject_Z Y) by (rewrite <- Zle_Qle; exact HY).
  assert (QK1 : 1 <= inject_Z k).
  { change 1 with (inject_Z 1). rewrite <- Zle_Qle. lia. }
  assert (QK2 : inject_Z k <= 1125899906842624).
  { change 1125899906842624 with (inject_Z (2 ^ 50)). rewrite <- Zle_Qle. lia. }
  set (kq := inject_Z k) in *. set (y := inject_Z Y) in *.
  assert (ED : inject_Z (k * Y) == kq * y) by (rewrite inject_Z_mult; reflexivity).
  assert (D53 : inject_Z (2 ^ 53) <= inject_Z (k * Y)).
  { rewrite ED. apply Qle_trans with (1 * y); [lra|].
    apply Qmult_le_compat_r; lra. }
  destruct (round_units_rel _ D53) as [R1 R2]. fold D' in R1, R2.
  rewrite ED in R1, R2.
  set (d' := inject_Z D') in *. set (w := kq * QU).
  set (t := d' / y).
  assert (T1 : t <= kq * (1 + (1 # 9007199254740992))).
  { unfold t. apply Qle_shift_div_r; [exact QY|].
    set (a := kq * y) in *. 
    setoid_replace (kq * (1 + (1 # 9007199254740992)) * y)
      with (a + a * (1 # 9007199254740992)) by (unfold a; ring).
    clearbody a d'. lra. }
  assert (T2 : kq * (1 - (1 # 9007199254740992)) <= t).
  { unfold t. apply Qle_shift_div_l; [exact QY|].
    set (a := kq * y) in *.
    setoid_replace (kq * (1 - (1 # 9007199254740992)) * y)
      with (a - a * (1 # 9007199254740992)) by (unfold a; ring).
    clearbody a d'. lra. }
  set (s := t * QU).
  assert (S1 : s <= w + w * (1 # 9007199254740992)).
  { unfold s, w.
    setoid_replace (kq * QU + kq * QU * (1 # 9007199254740992))
      with (kq * (1 + (1 # 9007199254740992)) * QU) by ring.
    apply Qmult_le_compat_r; lra. }
  assert (S2 : w - w * (1 # 9007199254740992) <= s).
  { unfold s, w.
    setoid_replace (kq * QU - kq * QU * (1 # 9007199254740992))
      with (kq * (1 - (1 # 9007199254740992)) * QU) by ring.
    apply Qmult_le_compat_r; lra. }
  assert (W1 : QU <= w).
  { unfold w. setoid_replace QU with (1 * QU) at 1 by ring.
    apply Qmult_le_compat_r; lra. }
  assert (W2 : w <= 1125899906842624 * QU).
  { unfold w. apply Qmult_le_compat_r; lra. }
  change (inject_Z (2 ^ 54)) with 18014398509481984 in HL.
  assert (S53 : inject_Z (2 ^ 53) <= s).
  { change (inject_Z (2 ^ 53)) with 9007199254740992.
    clearbody s w. lra. }
  destruct (round_units_rel s S53) as [R3 R4].
  change (round_units s) with V in R3, R4.
  set (v := inject_Z V) in *.
  assert (A : 4 * (w - v) <= QU /\ 8 * (v - w) <= 3 * QU).
  { clearbody s w v. split; lra. }
  destruct A as [A1 A2]. unfold w, v, kq, QU in A1, A2.
  split.
  - rewrite Zle_Qle, inject_Z_mult, inject_Z_sub, inject_Z_mult. exact A1.
  - rewrite Zle_Qle, !inject_Z_mult, inject_Z_sub, inject_Z_mult. exact A2.
Qed.

End Quotients.

Section FloorDivisionGeneral.
Local Open Scope Z_scope.

Lemma pos_finite_funits (Y : Z) : fin_units Y -> 0 < Y -> pos_finite (funits Y) = true.
Proof.
  intros F P. destruct (funits_shape Y F) as [[Z _]|[_ (m & e & S & _)]]; [lia|].
  rewrite S. reflexivity.
Qed.

Lemma fin_units_half : fin_units (2 ^ 1073).
Proof.
  split.
  - exists 1, 1073. split; [|split; [lia|ring]].
    split; [lia|]. pose proof (pow2_pos 53 ltac:(lia)). lia.
  - apply Z.pow_lt_mono_r; lia.
Qed.

Lemma U_double : U = 2 * 2 ^ 1073.
Proof. unfold U. change 2 with (2 ^ 1) at 2. rewrite <- Z.pow_add_r by lia. reflexivity. Qed.

(** [x % y] for positive operands is the exact remainder. *)
Lemma mod_units (X Y : Z) :
  fin_units X -> fin_units Y -> 0 < Y ->
  mod_ (funits X) (funits Y) = Ok (funits (X mod Y)).
Proof.
  intros FX FY PY.
  pose proof (Z.mod_pos_bound X Y PY) as RB.
  assert (GR : ongrid (X mod Y)) by (apply ongrid_mod; [apply FX|apply FY|exact PY]).
  assert (FR : fin_units (X mod Y)) by (split; [exact GR|destruct FY; lia]).
  assert (F0 : fin_units 0) by (split; [apply ongrid_0|apply pow2_pos; lia]).
  unfold mod_. rewrite eqb_funits_zero by exact FY.
  destruct (Z.eqb_spec Y 0) as [Z|_]; [lia|].
  rewrite (fmod_funits X Y FX FY PY GR). f_equal.
  unfold truthy. rewrite eqb_funits_zero by exact FR.
  destruct (Z.eqb_spec (X mod Y) 0) as [Z|NZ]; unfold negb.
  - rewrite Z. unfold copysign_zero.
    rewrite (sign_NN _ (NN_funits Y)). rewrite funits_0. reflexivity.
  - rewrite <- funits_0. rewrite !ltb_funits_iff by assumption.
    destruct (Z.ltb_spec Y 0); [lia|]. destruct (Z.ltb_spec (X mod Y) 0); [lia|].
    reflexivity.
Qed.

(** [x // y] for positive operands is the exact floor of the quotient, up
    to quotients of [2^50]. *)
Lemma floordiv_units (X Y : Z) :
  fin_units X -> fin_units Y -> 2 ^ 53 <= Y -> X / Y <= 2 ^ 50 ->
  floordiv (funits X) (funits Y) = Ok (fint (X / Y)).
Proof.
  intros FX FY HY HK. pose proof U_pos as HU.
  assert (P53 : 0 < 2 ^ 53) by (apply pow2_pos; lia).
  assert (P50 : 0 < 2 ^ 50) by (apply pow2_pos; lia).
  assert (E5053 : 2 ^ 53 = 8 * 2 ^ 50).
  { change 8 with (2 ^ 3). rewrite <- Z.pow_add_r by lia. reflexivity. }
  assert (PY : 0 < Y) by lia.
  pose proof (ongrid_nonneg X (proj1 FX)) as X0.
  set (k := X / Y) in *. set (R := X mod Y).
  assert (DM : X = k * Y + R).
  { unfold k, R. rewrite (Z.div_mod X Y) at 1 by lia. ring. }
  assert (RB : 0 <= R < Y) by (apply Z.mod_pos_bound; exact PY).
  assert (K0 : 0 <= k) by (apply Z.div_pos; lia).
  assert (GR : ongrid R) by (apply ongrid_mod; [apply FX|apply FY|exact PY]).
  assert (FR : fin_units R) by (split; [exact GR|destruct FY; lia]).
  assert (F0 : fin_units 0) by (split; [apply ongrid_0|apply pow2_pos; lia]).
  assert (E0 : eqb (funits Y) zero = false).
  { rewrite eqb_funits_zero by exact FY. destruct (Z.eqb_spec Y 0); [lia|reflexivity]. }
  assert (E1 : fmod (funits X) (funits Y) = funits R)
    by (apply fmod_funits; assumption).
  set (D' := round_units (inject_Z (k * Y))).
  assert (E2 : sub (funits X) (funits R) = funits D').
  { rewrite sub_round by (try assumption; lia). unfold D'. do 3 f_equal. lia. }
  assert (QKY : (0 <= inject_Z (k * Y))%Q) by (apply inject_Z_nonneg; nia).
  assert (FD : fin_units D').
  { split; [apply round_units_ongrid, QKY|].
    assert (D' <= X); [|destruct FX; lia].
    rewrite <- (round_units_exact X (proj1 FX)). apply round_units_mono; [exact QKY|].
    rewrite <- Zle_Qle. lia. }
  set (V := round_units (inject_Z D' / inject_Z Y * QU)).
  assert (E3 : div (funits D') (funits Y) = funits V)
    by (apply div_round; assumption).
  assert (QV : (0 <= inject_Z D' / inject_Z Y * QU)%Q).
  { pose proof QU_pos. apply Qmult_le_0_compat; [|lra].
    apply Qle_shift_div_l; [apply inject_Z_pos, PY|]. rewrite Qmult_0_l.
    apply inject_Z_nonneg, ongrid_nonneg, FD. }
  assert (GV : ongrid V) by (apply round_units_ongrid, QV).
  assert (DV : (let '(_, dv) :=
                  if truthy (funits R)
                  then if xorb (ltb (funits Y) zero) (ltb (funits R) zero)
                       then (add (funits R) (funits Y), sub (funits V) one)
                       else (funits R, funits V)
                  else (copysign_zero (funits Y), funits V) in dv) = funits V).
  { destruct (truthy (funits R)); [|reflexivity].
    rewrite <- funits_0. rewrite !ltb_funits_iff by assumption.
    destruct (Z.ltb_spec Y 0); [lia|]. destruct (Z.ltb_spec R 0); [lia|].
    reflexivity. }
  unfold floordiv. rewrite E0. f_equal. unfold float_div_mod.
  rewrite E1, E2, E3.
  destruct (if truthy (funits R)
            then if xorb (ltb (funits Y) zero) (ltb (funits R) zero)
                 then (add (funits R) (funits Y), sub (funits V) one)
                 else (funits R, funits V)
            else (copysign_zero (funits Y), funits V)) as [md dv].
  subst dv. cbv beta iota zeta. unfold fst.
  destruct (Z.eq_dec k 0) as [Z|NZ].
  - assert (V0 : V = 0).
    { unfold V, D'. rewrite Z. rewrite Z.mul_0_l.
      rewrite (round_units_exact 0 ongrid_0).
      rewrite (round_units_comp _ (inject_Z 0)).
      - apply round_units_exact, ongrid_0.
      - change (inject_Z 0) with 0%Q. unfold Qdiv. ring. }
    rewrite V0, Z. unfold truthy. rewrite eqb_funits_zero by exact F0.
    cbn [Z.eqb negb]. unfold copysign_zero.
    rewrite sign_NN.
    + unfold fint. rewrite Z.mul_0_l, funits_0. reflexivity.
    + rewrite div_lift; [apply NN_lift|apply NN_funits|].
      apply pos_finite_funits; assumption.
  - destruct (quotient_units k Y ltac:(lia) HY) as [A1 A2].
    fold D' in A1, A2. fold V in A1, A2.
    assert (VB : V < 2 ^ 53 * U) by nia.
    assert (VP : 0 < V) by nia.
    assert (FV : fin_units V) by (apply fin_units_small; assumption).
    unfold truthy. rewrite eqb_funits_zero by exact FV.
    destruct (Z.eqb_spec V 0) as [W|_]; [lia|]. unfold negb.
    rewrite floor_funits by assumption.
    set (f := V / U).
    assert (FF : f = k \/ f = k - 1).
    { unfold f. destruct (Z_le_gt_dec (k * U) V) as [G|G].
      - left. symmetry. apply Z.div_unique with (V - k * U); lia.
      - right. symmetry. apply Z.div_unique with (V - (k - 1) * U); lia. }
    assert (F53 : 0 <= f <= 2 ^ 53) by lia.
    assert (FL : f * U <= V).
    { unfold f. pose proof (Z.mul_div_le V U HU). lia. }
    assert (GW : ongrid (V - f * U)) by (apply ongrid_remove; try assumption; lia).
    assert (FW : fin_units (V - f * U)) by (apply fin_units_small; [exact GW|lia]).
    unfold fint at 1. rewrite sub_funits;
      [|exact FV|apply fin_units_int, F53|exact GW].
    rewrite half_units, ltb_funits_iff by (try exact FW; apply fin_units_half).
    pose proof U_double as UD.
    destruct FF as [->| ->].
    + destruct (Z.ltb_spec (2 ^ 1073) (V - k * U)) as [W|W]; [lia|reflexivity].
    + destruct (Z.ltb_spec (2 ^ 1073) (V - (k - 1) * U)) as [W|W]; [|lia].
      rewrite one_fint. unfold fint. rewrite add_funits;
        [f_equal; ring|apply fin_units_int; lia|apply fin_units_int; lia|].
      replace ((k - 1) * U + 1 * U) with (k * U) by ring. apply ongrid_int. lia.
Qed.

End FloorDivisionGeneral.

Section TileBoxes.
Local Open Scope Z_scope.

(** The float 1.2 is 5404319552844595 * 2^-52. *)
Lemma box_units : box_cover = funits (5404319552844595 * 2 ^ 1022).
Proof. vm_compute. reflexivity. Qed.

Lemma U_boxes : U = 4503599627370496 * 2 ^ 1022.
Proof.
  unfold U. change 4503599627370496 with (2 ^ 52).
  rewrite <- Z.pow_add_r by lia. reflexivity.
Qed.

Lemma fin_units_box : fin_units (5404319552844595 * 2 ^ 1022).
Proof.
  split.
  - exists 5404319552844595, 1022. split; [|split; [lia|reflexivity]].
    split; [lia|]. change (2 ^ 53) with 9007199254740992. lia.
  - apply Z.lt_le_trans with (2 ^ 53 * 2 ^ 1022).
    + apply Z.mul_lt_mono_pos_r; [apply pow2_pos; lia|].
      change (2 ^ 53) with 9007199254740992. lia.
    + rewrite <- Z.pow_add_r by lia. apply Z.pow_le_mono_r; lia.
Qed.

(** The box count of the code for a requirement of [X] units. *)
Lemma tiles_boxes_units (X : Z) :
  ongrid X -> 0 < X -> X < 1000000000000000 * U ->
  let Y := 5404319552844595 * 2 ^ 1022 in
  let boxes := if 0 <? X mod Y then X / Y + 1 else X / Y in
  tiles_boxes (funits X) = Ok (boxes, round2 (mul (fint boxes) box_cover)) /\
  1 <= boxes <= 2 ^ 50 /\
  X <= boxes * Y /\ (boxes - 1) * Y < X.
Proof.
  intros G XP XB Y boxes. pose proof U_pos as HU. pose proof U_boxes as UB.
  pose proof (pow2_pos 1022 ltac:(lia)) as PP.
  pose proof fin_units_box as FY. fold Y in FY.
  assert (E50 : 2 ^ 50 = 1125899906842624) by reflexivity.
  assert (E53 : 2 ^ 53 = 9007199254740992) by reflexivity.
  set (P := 2 ^ 1022) in *.
  assert (PY : 0 < Y) by (unfold Y; lia).
  assert (FX : fin_units X).
  { apply fin_units_small; [exact G|]. rewrite E53. lia. }
  assert (DM : X = X / Y * Y + X mod Y).
  { rewrite (Z.div_mod X Y) at 1 by lia. ring. }
  pose proof (Z.mod_pos_bound X Y PY) as RB.
  assert (K0 : 0 <= X / Y) by (apply Z.div_pos; lia).
  assert (K1 : X / Y < 1000000000000000).
  { apply Z.div_lt_upper_bound; [exact PY|]. unfold Y. rewrite UB in XB. nia. }
  assert (HY : 2 ^ 53 <= Y).
  { unfold Y. assert (2 ^ 53 <= P) by (apply Z.pow_le_mono_r; lia). nia. }
  assert (BB : 1 <= boxes <= 2 ^ 50).
  { unfold boxes. destruct (Z.ltb_spec 0 (X mod Y)); rewrite E50; [lia|].
    assert (X mod Y = 0) by lia. nia. }
  assert (B53 : 0 <= boxes <= 2 ^ 53).
  { rewrite E53. rewrite E50 in BB. lia. }
  split; [|split; [exact BB|]].
  - unfold tiles_boxes. rewrite box_units. fold P. fold Y.
    rewrite (floordiv_units X Y FX FY HY) by (rewrite E50; lia).
    unfold bind at 1. rewrite int_of_float_fint by (rewrite E53; lia).
    unfold bind at 1. rewrite (mod_units X Y FX FY PY). unfold bind at 1.
    assert (F0 : fin_units 0) by (split; [apply ongrid_0|apply pow2_pos; lia]).
    assert (FR : fin_units (X mod Y)).
    { split; [apply ongrid_mod; [exact G|apply FY|exact PY]|destruct FY; lia]. }
    rewrite <- funits_0, ltb_funits_iff by assumption.
    fold boxes. unfold int_mul.
    rewrite float_of_int_fint by exact B53.
    unfold bind. reflexivity.
  - unfold boxes. destruct (Z.ltb_spec 0 (X mod Y)); nia.
Qed.

End TileBoxes.

Section TilesFlow.
Local Open Scope string_scope.

Lemma tiles_request_shape (area sqm cost : float) :
  tiles_estimate area = Ok (sqm, cost) ->
  ltb zero sqm = true -> ltb sqm (dec 1000000000000000 1) = true ->
  exists X, sqm = funits X /\ ongrid X /\
            (0 < X < 1000000000000000 * U)%Z.
Proof.
  intros E P B.
  assert (R15 : (0 <= 1000000000000000 <= 2 ^ 53)%Z).
  { change (2 ^ 53)%Z with 9007199254740992%Z. lia. }
  rewrite (dec_int _ R15) in B.
  assert (B' : ltb sqm (fint (2 ^ 53)) = true).
  { apply ltb_leb_trans with (fint 1000000000000000); [exact B|].
    rewrite leb_fint by (try exact R15; apply pow_53_range).
    apply Z.leb_le. apply R15. }
  destruct (tiles_estimate_cases area sqm cost E)
    as [(_ & -> & _)|(_ & y & z & -> & _)]; [discriminate P|].
  destruct (round2_shape y P B') as (n & X & _ & S & _ & G & R).
  exists X. rewrite S in B |- *. split; [reflexivity|]. split; [exact G|].
  split; [lia|]. unfold fint in B.
  assert (FX : fin_units X) by (apply fin_units_small; [exact G|lia]).
  rewrite (ltb_funits_iff _ _ FX (fin_units_int _ R15)) in B.
  apply Z.ltb_lt in B. exact B.
Qed.

(** The box count of a tiles request below 10^15 m2 is the least one that
    covers the quantity, a box covering the float value of 1.2. *)
Lemma box_value :
  (F2Q box_cover == inject_Z (5404319552844595 * 2 ^ 1022) / QU)%Q.
Proof. rewrite box_units. apply F2Q_funits, fin_units_box. Qed.

Lemma box_positive : pos_finite box_cover = true.
Proof. vm_compute. reflexivity. Qed.

(** [b] boxes cover [X] units, on the exact values of the floats. *)
Lemma boxes_cover_value (X b : Z) :
  fin_units X -> (X <= b * (5404319552844595 * 2 ^ 1022))%Z ->
  (F2Q (funits X) <= inject_Z b * F2Q box_cover)%Q.
Proof.
  intros FX C. pose proof QU_pos as HU.
  rewrite (F2Q_funits X FX), box_value.
  set (Y := (5404319552844595 * 2 ^ 1022)%Z) in *.
  setoid_replace (inject_Z b * (inject_Z Y / QU))%Q
    with (inject_Z (b * Y) / QU)%Q
    by (rewrite inject_Z_mult; field; lra).
  apply Qmult_le_compat_r; [|apply Qlt_le_weak, Qinv_lt_0_compat, HU].
  rewrite <- Zle_Qle. exact C.
Qed.

(** The covered area that is reported is not below a requirement of two
    decimals that the boxes cover. *)
Lemma covered_not_below (X b : Z) :
  fin_units X -> (0 <= b <= 2 ^ 53)%Z ->
  (X <= b * (5404319552844595 * 2 ^ 1022))%Z ->
  round2 (funits X) = funits X ->
  leb (funits X) (round2 (mul (fint b) box_cover)) = true.
Proof.
  intros FX B C R. pose proof QU_pos as HU.
  pose proof (boxes_cover_value X b FX C) as V.
  assert (Nb : NN (fint b)) by apply NN_funits.
  assert (M : mul (fint b) box_cover
              = rnd_sm false (mag (fint b) * mag box_cover)).
  { rewrite (mul_lift (fint b) box_cover Nb box_positive).
    apply (lift_fin (fun q => (q * mag box_cover)%Q) (fint b)).
    apply isinf_funits, fin_units_int, B. }
  assert (L : leb (funits X) (mul (fint b) box_cover) = true).
  { rewrite M. rewrite <- (rnd_sm_funits X (inject_Z X / QU)%Q);
      [|apply FX|reflexivity].
    apply rnd_sm_mono; [apply units_nonneg, FX|].
    rewrite (F2Q_funits X FX) in V. rewrite (mag_fint b B).
    rewrite <- (F2Q_NN box_cover); [exact V|].
    rewrite box_units. apply NN_funits. }
  rewrite <- R at 1. apply round2_mono; [apply NN_funits| |exact L].
  apply NN_mul; [exact box_positive|exact Nb].
Qed.

(** X9: for every tiles request whose quantity is positive and below
    10^15 m2, the suggested box count is the least number of boxes that
    covers the quantity when a box covers the float value of 1.2, so the
    boxes always cover the requirement and the covered area shown is not
    below it; the count is the ceil(qty/1.2) of exact arithmetic or one
    more. *)
Theorem tiles_boxes_cover (area sqm cost : float) :
  tiles_estimate area = Ok (sqm, cost) ->
  ltb zero sqm = true -> ltb sqm (dec 1000000000000000 1) = true ->
  exists boxes covered,
    tiles_boxes sqm = Ok (boxes, covered) /\
    (forall s, contains "paint" s = false -> contains "tile" s = true ->
       purchase_suggestion s (tiles_m2 sqm)
       = Ok (TilesPurchase boxes covered sqm)) /\
    (F2Q sqm <= inject_Z boxes * F2Q box_cover)%Q /\
    (inject_Z (boxes - 1) * F2Q box_cover < F2Q sqm)%Q /\
    (Spec.boxes_needed sqm <= boxes <= Spec.boxes_needed sqm + 1)%Z /\
    leb sqm covered = true.
Proof.
  intros E P B.
  destruct (tiles_estimate_rounded area sqm cost E) as [RQ _].
  destruct (tiles_request_shape area sqm cost E P B) as (X & -> & G & XP & XB).
  destruct (tiles_boxes_units X G XP XB) as (T & BB & C1 & C2).
  cbv zeta in T, BB, C1, C2.
  set (Y := (5404319552844595 * 2 ^ 1022)%Z) in *.
  set (boxes := (if (0 <? X mod Y)%Z then (X / Y + 1)%Z else (X / Y)%Z)) in *.
  pose proof QU_pos as HU. pose proof U_pos as UP. pose proof U_boxes as UB.
  pose proof (pow2_pos 1022 ltac:(lia)) as PP.
  assert (FX : fin_units X).
  { apply fin_units_small; [exact G|].
    change (2 ^ 53)%Z with 9007199254740992%Z. lia. }
  pose proof (F2Q_funits X FX) as VX.
  pose proof box_value as VY. fold Y in VY.
  exists boxes, (round2 (mul (fint boxes) box_cover)).
  split; [exact T|]. split; [|split; [|split; [|split]]].
  - intros s S1 S2. unfold purchase_suggestion. rewrite S1, S2.
    cbv beta iota zeta. rewrite (ltb_leb_false _ _ P), T. reflexivity.
  - apply boxes_cover_value; assumption.
  - rewrite VX, VY.
    setoid_replace (inject_Z (boxes - 1) * (inject_Z Y / QU))%Q
      with (inject_Z ((boxes - 1) * Y) / QU)%Q
      by (rewrite inject_Z_mult; field; lra).
    apply Qmult_lt_compat_r; [apply Qinv_lt_0_compat, HU|].
    rewrite <- Zlt_Qlt. exact C2.
  - unfold Spec.boxes_needed.
    set (x := (F2Q (funits X) / (12 # 10))%Q).
    pose proof (Qle_ceiling x) as L1. pose proof (Qceiling_lt x) as L2.
    set (c := Qceiling x) in *.
    assert (EX : (x == inject_Z (5 * X) / inject_Z (6 * U))%Q).
    { unfold x. rewrite VX, !inject_Z_mult. fold QU.
      change (inject_Z 5) with 5%Q. change (inject_Z 6) with 6%Q. field. lra. }
    assert (Q6 : (0 < inject_Z (6 * U))%Q) by (apply inject_Z_pos; lia).
    assert (U1 : (x <= inject_Z boxes)%Q).
    { rewrite EX. apply Qle_shift_div_r; [exact Q6|].
      rewrite <- inject_Z_mult, <- Zle_Qle. unfold Y in C1.
      rewrite UB. set (p := (2 ^ 1022)%Z) in *. nia. }
    assert (U2 : (inject_Z (boxes - 2) < x)%Q).
    { rewrite EX. apply Qlt_shift_div_l; [exact Q6|].
      rewrite <- inject_Z_mult, <- Zlt_Qlt. unfold Y in C2.
      change (2 ^ 50)%Z with 1125899906842624%Z in BB.
      rewrite UB. set (p := (2 ^ 1022)%Z) in *. nia. }
    assert (A : (inject_Z (c - 1) < inject_Z boxes)%Q) by lra.
    assert (B2 : (inject_Z (boxes - 2) < inject_Z c)%Q) by lra.
    rewrite <- Zlt_Qlt in A, B2. lia.
  - apply covered_not_below; try assumption.
    change (2 ^ 50)%Z with 1125899906842624%Z in BB.
    change (2 ^ 53)%Z with 9007199254740992%Z. lia.
Qed.

Lemma tiles_boxes_cover_witness :
  exists boxes covered,
    tiles_boxes (dec 42 1) = Ok (boxes, covered) /\
    (F2Q (dec 42 1) <= inject_Z boxes * F2Q box_cover)%Q.
Proof.
  destruct (tiles_boxes_cover (dec 40 1) (dec 42 1) (dec 25200 1))
    as (boxes & covered & T & _ & C & _); [vm_compute; reflexivity..|].
  exists boxes, covered. split; [exact T|exact C].
Defined.

End TilesFlow.

Section TilesQuote.
Local Open Scope string_scope.

Lemma tiles_estimate_NN (a l c : float) :
  a <> S754_nan -> tiles_estimate a = Ok (l, c) -> NN l /\ NN c.
Proof.
  intros N. rewrite tiles_estimate_eq. destruct (leb a zero) eqn:Z; intros E;
    apply Ok_inj in E.
  - apply pair_inj in E. destruct E. subst. split; apply NN_zero.
  - assert (Na : NN a).
    { apply ltb_zero_NN, leb_false_ltb; [exact N|discriminate|exact Z]. }
    destruct (tiles_formula_NN a Na) as [A B]. rewrite E in A, B. split; assumption.
Qed.

Lemma tiles_bound_value :
  tiles_estimate (dec 900000000000000 1)
  = Ok (dec 945000000000000 1, dec 567000000000000000 1).
Proof. vm_compute. reflexivity. Qed.

Lemma tiles_bound_below :
  ltb (dec 945000000000000 1) (dec 1000000000000000 1) = true.
Proof. vm_compute. reflexivity. Qed.

Lemma tiles_qty_bounded (a l c : float) :
  leb a (dec 900000000000000 1) = true -> tiles_estimate a = Ok (l, c) ->
  NN l /\ ltb l (dec 1000000000000000 1) = true.
Proof.
  intros L E. destruct (leb_not_nan _ _ L) as [N _].
  destruct (tiles_estimate_NN a l c N E) as [Nl _]. split; [exact Nl|].
  pose proof (tiles_estimate_mono _ _ L) as M.
  rewrite E, tiles_bound_value in M. destruct M as [M _].
  apply leb_ltb_trans with (dec 945000000000000 1); [exact M|].
  exact tiles_bound_below.
Qed.

(** [generate_estimate] in the Tiles branch, no material model. *)
Lemma generate_tiles (text : string) (area : float) (points : Z)
    (l c lab : float) :
  contains "paint" (lower (chosen_service text)) = false ->
  contains "tile" (lower (chosen_service text)) = true ->
  tiles_estimate area = Ok (l, c) ->
  generic_labour_with area (dec 50 1) = Ok lab ->
  generate_estimate text area points "" =
  (Some {| e_service := chosen_service text; e_area := area; e_points := points;
           e_total := round2 (add c lab);
           e_breakdown := [Title "Tiling"; TilesMaterial l c; LabourLine lab] |},
   bind (if leb l zero then Ok NoTiles
         else bind (tiles_boxes l)
                (fun '(boxes, covered) => Ok (TilesPurchase boxes covered l)))
        (fun mat_text =>
           Ok {| q_breakdown := [Title "Tiling"; TilesMaterial l c; LabourLine lab];
                 q_mat_text := mat_text; q_total := add c lab |})).
Proof.
  intros C1 C2 E G. unfold generate_estimate, price. cbv zeta. rewrite C1, C2.
  unfold price_tiles. rewrite E. unfold bind at 1. cbv beta iota.
  rewrite G. unfold bind at 1. cbv beta iota.
  unfold purchase_suggestion, store. cbn [material_qty total breakdown].
  rewrite C1, C2. reflexivity.
Qed.

(** X10: a Tiles request of any area up to 9*10^14 m2 gets a quote and
    raises nothing; the material text is either "No tiles required" or a
    box count that covers the quantity, a box covering the float value of
    1.2. *)
Theorem tiles_quote_returned (text : string) (area : float) (points : Z) :
  contains "paint" (lower (chosen_service text)) = false ->
  contains "tile" (lower (chosen_service text)) = true ->
  leb area (dec 900000000000000 1) = true ->
  exists last q,
    generate_estimate text area points "" = (Some last, Ok q) /\
    e_total last = round2 (q_total q) /\
    (q_mat_text q = NoTiles \/
     exists boxes covered sqm,
       q_mat_text q = TilesPurchase boxes covered sqm /\
       tiles_boxes sqm = Ok (boxes, covered) /\
       (F2Q sqm <= inject_Z boxes * F2Q box_cover)%Q).
Proof.
  intros C1 C2 A.
  destruct (price_tiles_ok area) as (l & c & lab & E & G & _).
  rewrite (generate_tiles text area points l c lab C1 C2 E G).
  destruct (tiles_qty_bounded area l c A E) as [Nl B].
  destruct (leb l zero) eqn:Z.
  - unfold bind. eexists. eexists. split; [reflexivity|].
    cbn [e_total q_total q_mat_text]. split; [reflexivity|]. left. reflexivity.
  - assert (P : ltb zero l = true).
    { apply leb_false_ltb; [apply Nl|discriminate|exact Z]. }
    destruct (tiles_request_shape area l c E P B) as (X & -> & GX & XP & XB).
    destruct (tiles_boxes_units X GX XP XB) as (T & _ & CV & _).
    cbv zeta in T, CV.
    assert (FX : fin_units X).
    { apply fin_units_small; [exact GX|].
      change (2 ^ 53)%Z with 9007199254740992%Z. pose proof U_pos. lia. }
    rewrite T. unfold bind. cbv beta iota.
    eexists. eexists. split; [reflexivity|].
    cbn [e_total q_total q_mat_text]. split; [reflexivity|]. right.
    eexists. eexists. eexists. split; [reflexivity|]. split; [exact T|].
    apply boxes_cover_value; assumption.
Qed.

Lemma tiles_quote_returned_witness :
  exists last q,
    generate_estimate "Tiles" (dec 50 1) 0 "" = (Some last, Ok q).
Proof.
  destruct (tiles_quote_returned "Tiles" (dec 50 1) 0)
    as (last & q & E & _); [vm_compute; reflexivity..|].
  exists last, q. exact E.
Defined.

End TilesQuote.

Section ProvidersList.
Import Providers.
Local Open Scope string_scope.

Lemma text_eqb_spec (a b : text) : text_eqb a b = true <-> a = b.
Proof.
  revert b. induction a as [|x a IH]; intros [|y b]; cbn [text_eqb];
    try (split; [discriminate|discriminate]); [split; reflexivity|].
  rewrite andb_true_iff, N.eqb_eq, IH. split.
  - intros [-> ->]. reflexivity.
  - intros E. injection E as -> ->. split; reflexivity.
Qed.

Lemma text_eqb_neq (a b : text) : text_eqb a b = false <-> a <> b.
Proof.
  rewrite <- text_eqb_spec. destruct (text_eqb a b); split; congruence.
Qed.

Lemma nonempty_spec (s : text) : nonempty s = false <-> s = [].
Proof. destruct s; split; (reflexivity || discriminate). Qed.

Lemma startswith_spec (s sub : text) :
  startswith s sub = true <-> exists post, s = (sub ++ post)%list.
Proof.
  revert s. induction sub as [|c sub IH]; intros s; cbn [startswith].
  - split; [intros _; exists s; reflexivity|].
    intros _. destruct s; reflexivity.
  - destruct s as [|d s]; cbn [startswith].
    + split; [discriminate|]. intros [post E]. discriminate E.
    + rewrite andb_true_iff, N.eqb_eq, IH. cbn [Datatypes.app]. split.
      * intros [-> [post ->]]. exists post. reflexivity.
      * intros [post E]. injection E as -> ->. split; [reflexivity|].
        exists post. reflexivity.
Qed.

Lemma text_in_spec (sub s : text) :
  text_in sub s = true <-> Spec.is_subtext sub s.
Proof.
  induction s as [|d s IH]; cbn [text_in].
  - destruct (startswith [] sub) eqn:P.
    + split; [intros _|reflexivity]. apply startswith_spec in P.
      destruct P as [post E]. exists [], post. exact E.
    + split; [discriminate|]. intros [pre [post E]].
      destruct pre; [|discriminate E]. cbn [Datatypes.app] in E.
      assert (startswith [] sub = true)
        by (apply startswith_spec; exists post; exact E).
      congruence.
  - destruct (startswith (d :: s) sub) eqn:P.
    + split; [intros _|reflexivity]. apply startswith_spec in P.
      destruct P as [post E]. exists [], post. exact E.
    + rewrite IH. split.
      * intros [pre [post E]]. exists (d :: pre), post.
        cbn [Datatypes.app]. congruence.
      * intros [pre [post E]]. destruct pre as [|c pre].
        -- cbn [Datatypes.app] in E.
           assert (startswith (d :: s) sub = true)
             by (apply startswith_spec; exists post; exact E).
           congruence.
        -- cbn [Datatypes.app] in E. injection E as _ E.
           exists pre, post. exact E.
Qed.

Lemma lstrip_nil (s : text) : lstrip s = [] <-> forallb isspace s = true.
Proof.
  induction s as [|c r IH]; cbn [lstrip forallb]; [split; reflexivity|].
  destruct (isspace c); cbn [andb]; [exact IH|]. split; discriminate.
Qed.

Lemma rstrip_nil (s : text) : rstrip s = [] <-> forallb isspace s = true.
Proof.
  induction s as [|c r IH]; cbn [rstrip forallb]; [split; reflexivity|].
  destruct (rstrip r) as [|d r'].
  - destruct IH as [IH _]. rewrite (IH eq_refl), andb_true_r.
    destruct (isspace c); split; (reflexivity || discriminate).
  - split; [discriminate|]. intros H. apply andb_true_iff in H.
    destruct H as [_ H]. apply IH in H. discriminate H.
Qed.

Lemma lstrip_head (s : text) :
  lstrip s = [] \/ exists c r, lstrip s = c :: r /\ isspace c = false.
Proof.
  induction s as [|c r IH]; cbn [lstrip]; [left; reflexivity|].
  destruct (isspace c) eqn:C; [exact IH|]. right. exists c, r.
  split; [reflexivity|exact C].
Qed.

(** [strip] leaves nothing exactly of a text made of whitespace. *)
Lemma strip_nil (s : text) : strip s = [] <-> forallb isspace s = true.
Proof.
  unfold strip. rewrite <- lstrip_nil. split.
  - intros H. destruct (lstrip_head s) as [E|(c & r & E & C)]; [exact E|].
    rewrite E in H. apply rstrip_nil in H. cbn [forallb] in H.
    rewrite C in H. discriminate H.
  - intros ->. reflexivity.
Qed.

Lemma filter_all {A : Type} (g : A -> bool) (l : list A) :
  (forall x, In x l -> g x = true) -> filter g l = l.
Proof.
  induction l as [|a r IH]; intros H; cbn [filter]; [reflexivity|].
  rewrite (H a) by (left; reflexivity). f_equal. apply IH. intros x X.
  apply H. right. exact X.
Qed.

Section WithLower.
Variable lower : text -> text.

Lemma filter_loop_spec (s f : text) (cache acc : list provider) :
  filter_loop lower s f cache acc = (acc ++ filter (shown lower s f) cache)%list.
Proof.
  revert acc. induction cache as [|p r IH]; intros acc; cbn [filter_loop filter].
  - rewrite app_nil_r. reflexivity.
  - rewrite IH. destruct (shown lower s f p); [|reflexivity].
    rewrite <- app_assoc. reflexivity.
Qed.

Lemma shown_spec (s f : text) (p : provider) :
  shown lower s f p = true <->
  (f = [] \/ f = lit "All" \/ dict_get "service" [] p = f) /\
  (s = [] \/ Spec.is_subtext s (lower (dict_get "name" [] p)) \/
   Spec.is_subtext s (lower (dict_get "service" [] p))).
Proof.
  unfold shown. cbv zeta.
  rewrite <- (text_eqb_spec f (lit "All")),
          <- (text_eqb_spec (dict_get "service" [] p) f),
          <- !text_in_spec, <- !nonempty_spec.
  destruct (nonempty f); destruct (text_eqb f (lit "All"));
    destruct (text_eqb (dict_get "service" [] p) f);
    destruct (nonempty s);
    destruct (text_in s (lower (dict_get "name" [] p)));
    destruct (text_in s (lower (dict_get "service" [] p)));
    cbn [negb andb]; intuition congruence.
Qed.

End WithLower.

(** X11: [filter_providers] shows exactly the cached providers that pass
    both tests, in the order of the cache: the service filter is passed
    when it is empty, "All" or equal to the provider's service, the search
    text (stripped, then lowercased) when it is empty or occurs in the
    lowercased name or in the lowercased service.  This holds whatever
    function [str.lower] is. *)
Theorem filter_providers_shown (lower : text -> text)
    (search_text filter_service : text)
    (cache file : option (list provider)) :
  let s := lower (strip search_text) in
  let result := filter_providers lower search_text filter_service cache file in
  snd result = filter (shown lower s filter_service) (fst result) /\
  fst result = match cache with
               | Some c => c
               | None => match file with Some l => l | None => [] end
               end /\
  forall p, In p (snd result) <->
    In p (fst result) /\
    (filter_service = [] \/ filter_service = lit "All" \/
     dict_get "service" [] p = filter_service) /\
    (s = [] \/ Spec.is_subtext s (lower (dict_get "name" [] p)) \/
     Spec.is_subtext s (lower (dict_get "service" [] p))).
Proof.
  intros s result. unfold result, filter_providers. cbv zeta. cbn [fst snd].
  fold s. rewrite filter_loop_spec. cbn [Datatypes.app].
  split; [reflexivity|]. split; [reflexivity|].
  intros p. rewrite filter_In, shown_spec. reflexivity.
Qed.

(** X12: with a search text made of whitespace only (any of the
    characters [str.strip] removes, the no-break space and the
    ideographic space included, or no character at all) and the filter
    "All" or an empty one, every cached provider is shown, in the order
    of the cache.  Of [str.lower] only [''.lower() == ''] is used. *)
Theorem filter_providers_all (lower : text -> text)
    (search_text filter_service : text)
    (cache file : option (list provider)) :
  lower [] = [] ->
  forallb isspace search_text = true ->
  filter_service = [] \/ filter_service = lit "All" ->
  snd (filter_providers lower search_text filter_service cache file)
  = fst (filter_providers lower search_text filter_service cache file).
Proof.
  intros L B F. unfold filter_providers. cbv zeta. cbn [fst snd].
  apply strip_nil in B. rewrite filter_loop_spec, B, L. cbn [Datatypes.app].
  apply filter_all. intros p _. apply shown_spec. split; [|left; reflexivity].
  destruct F as [F|F]; auto.
Qed.

Lemma filter_providers_all_witness :
  snd (filter_providers
         (map (fun c => if ((65 <=? c) && (c <=? 90))%N then (c + 32)%N else c))
         [160; 32; 9; 12288]%N (lit "All") None
         (Some [[("name", lit "Ravi Painters"); ("service", lit "Painting")];
                [("name", [201; 108; 105; 116; 101; 32; 84; 105; 108; 101; 115]%N);
                 ("service", lit "Tiles")];
                [("name", lit "AquaFix"); ("service", lit "Plumbing")]]))
  = [[("name", lit "Ravi Painters"); ("service", lit "Painting")];
     [("name", [201; 108; 105; 116; 101; 32; 84; 105; 108; 101; 115]%N);
      ("service", lit "Tiles")];
     [("name", lit "AquaFix"); ("service", lit "Plumbing")]].
Proof.
  exact (filter_providers_all
           (map (fun c => if ((65 <=? c) && (c <=? 90))%N then (c + 32)%N else c))
           [160; 32; 9; 12288]%N (lit "All") None
           (Some [[("name", lit "Ravi Painters"); ("service", lit "Painting")];
                  [("name", [201; 108; 105; 116; 101; 32; 84; 105; 108; 101; 115]%N);
                   ("service", lit "Tiles")];
                  [("name", lit "AquaFix"); ("service", lit "Plumbing")]])
           eq_refl eq_refl (or_intror eq_refl)).
Defined.

Lemma dict_get_mem {V : Type} (k : string) (d0 : V) (d : dict V) :
  dict_mem k d = true -> In (k, dict_get k d0 d) d.
Proof.
  unfold dict_mem. induction d as [|[k' v'] r IH]; cbn [existsb dict_get fst].
  - discriminate.
  - destruct (String.eqb_spec k k') as [->|N]; cbn [orb].
    + intros _. left. reflexivity.
    + intros H. right. apply IH, H.
Qed.

(** X13: the avatar of a provider is always drawn in the colour of one of
    the seven known services, the fallback grey (80, 80, 80, 255) is never
    used: a service that is not a key of [SERVICE_COLORS_PIL] gets the
    colour and the file name of "Painting". *)
Theorem avatar_color_known (pid service : string) :
  In (svc_key service, avatar_color service) SERVICE_COLORS_PIL /\
  (dict_mem service SERVICE_COLORS_PIL = false ->
     avatar_color service = (69, 133, 242, 255)%Z /\
     avatar_file pid service = pid ++ "_Painting.png").
Proof.
  unfold avatar_color, avatar_file, svc_key. split.
  - destruct (dict_mem service SERVICE_COLORS_PIL) eqn:M.
    + apply dict_get_mem, M.
    + left. reflexivity.
  - intros ->. split; reflexivity.
Qed.

Lemma avatar_color_known_witness :
  avatar_color "Service" = (69, 133, 242, 255)%Z.
Proof.
  exact (proj1 (proj2 (avatar_color_known "7" "Service") eq_refl)).
Defined.

End ProvidersList.

Section SavedEstimates.
Import History.
Local Open Scope string_scope.

Lemma save_estimate_some (a : app) (e : last_estimate) :
  a_last a = Some e ->
  save_estimate a =
  {| a_last := Some e;
     a_requests := (a_requests a ++ [request_of e])%list;
     a_csv := Some (match a_csv a with
                    | None => [Header]
                    | Some lines => lines
                    end ++ [row_of e])%list;
     a_current_image := "";
     a_current := "history";
     a_popups := (a_popups a ++ [("Saved", "Estimate saved to history.")])%list |}.
Proof. intros H. unfold save_estimate. rewrite H. reflexivity. Qed.

Lemma saves_state (n : nat) (a : app) (e : last_estimate) :
  a_last a = Some e ->
  a_last (Nat.iter n save_estimate a) = Some e /\
  a_requests (Nat.iter n save_estimate a)
  = (a_requests a ++ repeat (request_of e) n)%list /\
  a_csv (Nat.iter (S n) save_estimate a)
  = Some (match a_csv a with
          | None => [Header]
          | Some lines => lines
          end ++ repeat (row_of e) (S n))%list.
Proof.
  intros H. induction n as [|n (IH1 & IH2 & IH3)].
  - cbn [Nat.iter nat_rect repeat]. rewrite app_nil_r.
    split; [exact H|]. split; [reflexivity|].
    rewrite (save_estimate_some a e H). reflexivity.
  - change (Nat.iter (S n) save_estimate a)
      with (save_estimate (Nat.iter n save_estimate a)) in *.
    change (Nat.iter (S (S n)) save_estimate a)
      with (save_estimate (save_estimate (Nat.iter n save_estimate a))).
    set (b := Nat.iter n save_estimate a) in *.
    assert (L : a_last (save_estimate b) = Some e).
    { rewrite (save_estimate_some b e IH1). reflexivity. }
    split; [exact L|]. split.
    + rewrite (save_estimate_some b e IH1). cbn [a_requests].
      rewrite IH2, <- app_assoc. f_equal.
      change [request_of e] with (repeat (request_of e) 1).
      rewrite <- repeat_app. f_equal. lia.
    + rewrite (save_estimate_some (save_estimate b) e L). cbn [a_csv].
      rewrite IH3, <- app_assoc. do 2 f_equal.
      change [row_of e] with (repeat (row_of e) 1).
      rewrite <- repeat_app. f_equal. lia.
Qed.





(** X15: however often an estimate is saved, records.csv gets its header
    once, when the file is created, and one row per save; the table of
    requests gets one row per save. *)
Theorem records_after_saves (n : nat) (a : app) (e : last_estimate) :
  a_last a = Some e ->
  a_csv (Nat.iter (S n) save_estimate a)
  = Some (match a_csv a with
          | None => [Header]
          | Some lines => lines
          end ++ repeat (row_of e) (S n))%list /\
  a_requests (Nat.iter (S n) save_estimate a)
  = (a_requests a ++ repeat (request_of e) (S n))%list.
Proof.
  intros H. destruct (saves_state n a e H) as (_ & _ & C).
  destruct (saves_state (S n) a e H) as (_ & R & _). split; assumption.
Qed.

Lemma records_after_saves_witness :
  a_csv (Nat.iter 2 save_estimate
           {| a_last := Some {| le := {| e_service := "Painting"; e_area := zero;
                                         e_points := 0; e_total := zero;
                                         e_breakdown := [] |};
                                le_time := "2025-11-10T14:00:00";
                                le_image := "" |};
              a_requests := []; a_csv := None; a_current_image := "";
              a_current := "quote"; a_popups := [] |})
  = Some [Header;
          Row "2025-11-10T14:00:00" "Painting" zero 0 0 zero;
          Row "2025-11-10T14:00:00" "Painting" zero 0 0 zero].
Proof.
  exact (proj1 (records_after_saves 1
                  {| a_last := Some {| le := {| e_service := "Painting";
                                                e_area := zero; e_points := 0;
                                                e_total := zero;
                                                e_breakdown := [] |};
                                       le_time := "2025-11-10T14:00:00";
                                       le_image := "" |};
                     a_requests := []; a_csv := None; a_current_image := "";
                     a_current := "quote"; a_popups := [] |}
                  {| le := {| e_service := "Painting"; e_area := zero;
                              e_points := 0; e_total := zero;
                              e_breakdown := [] |};
                     le_time := "2025-11-10T14:00:00"; le_image := "" |}
                  eq_refl)).
Defined.

End SavedEstimates.

Section HomeGradient.
Import Gradient.
Local Open Scope Z_scope.

Lemma fint_0 : fint 0 = zero.
Proof. unfold fint. rewrite Z.mul_0_l. apply funits_0. Qed.

Lemma F0_units : fin_units 0.
Proof. split; [apply ongrid_0|apply pow2_pos; lia]. Qed.

Lemma mul_fint_one (n : Z) : 0 <= n <= 2 ^ 53 -> mul (fint n) (fint 1) = fint n.
Proof.
  intros H. unfold fint. apply mul_funits;
    [apply fin_units_int, H|apply fin_units_int; lia|apply ongrid_int, H|ring].
Qed.

Lemma mul_fint_zero (n : Z) : 0 <= n <= 2 ^ 53 -> mul (fint n) zero = zero.
Proof.
  intros H. rewrite <- funits_0. unfold fint. apply mul_funits;
    [apply fin_units_int, H|exact F0_units|apply ongrid_0|ring].
Qed.

Lemma add_fint_zero (n : Z) : 0 <= n <= 2 ^ 53 -> add (fint n) zero = fint n.
Proof.
  intros H. rewrite <- funits_0. unfold fint.
  rewrite add_funits; [f_equal; ring|apply fin_units_int, H|exact F0_units|].
  rewrite Z.add_0_r. apply ongrid_int, H.
Qed.

Lemma channel_first (top bot : Z) :
  0 <= top <= 2 ^ 53 -> 0 <= bot <= 2 ^ 53 -> channel top bot zero = Ok top.
Proof.
  intros T B. unfold channel, int_mul.
  rewrite !float_of_int_fint by assumption. unfold bind.
  assert (S : sub one zero = fint 1).
  { rewrite one_fint, <- funits_0. unfold fint.
    rewrite sub_funits; [f_equal; ring|apply fin_units_int; lia|exact F0_units|].
    rewrite Z.sub_0_r. apply ongrid_int. lia. }
  rewrite S, mul_fint_one, mul_fint_zero, add_fint_zero by assumption.
  apply int_of_float_fint, T.
Qed.

Lemma channel_last (top bot : Z) :
  0 <= top <= 2 ^ 53 -> 0 <= bot <= 2 ^ 53 -> channel top bot (fint 1) = Ok bot.
Proof.
  intros T B. unfold channel, int_mul.
  rewrite !float_of_int_fint by assumption. unfold bind.
  assert (S : sub one (fint 1) = zero).
  { rewrite one_fint, <- funits_0. unfold fint.
    rewrite sub_funits; [f_equal; ring|apply fin_units_int; lia..|].
    rewrite Z.sub_diag. apply ongrid_0. }
  rewrite S, mul_fint_one, mul_fint_zero by assumption.
  rewrite add_comm, add_fint_zero by assumption.
  apply int_of_float_fint, B.
Qed.

Lemma fint_nonzero (n : Z) : 1 <= n <= 2 ^ 53 -> eqb (fint n) zero = false.
Proof.
  intros H. unfold fint. rewrite eqb_funits_zero by (apply fin_units_int; lia).
  pose proof U_pos. destruct (Z.eqb_spec (n * U) 0); [nia|reflexivity].
Qed.

(** X16: in the home gradient the first row has exactly the top colour
    and the last row exactly the bottom colour, for every height from 2
    and all channel values from 0 to 255; a height of 1 raises
    ZeroDivisionError (which [ensure_home_gradient] catches). *)
Theorem gradient_endpoints (H tr tg tb br bg bb : Z) :
  2 <= H <= 2 ^ 53 ->
  0 <= tr <= 255 -> 0 <= tg <= 255 -> 0 <= tb <= 255 ->
  0 <= br <= 255 -> 0 <= bg <= 255 -> 0 <= bb <= 255 ->
  row_color H 0 (tr, tg, tb) (br, bg, bb) = Ok (tr, tg, tb) /\
  row_color H (H - 1) (tr, tg, tb) (br, bg, bb) = Ok (br, bg, bb) /\
  row_color 1 0 (tr, tg, tb) (br, bg, bb) = Raise ZeroDivisionError.
Proof.
  intros HH R1 R2 R3 R4 R5 R6.
  assert (E53 : 2 ^ 53 = 9007199254740992) by reflexivity.
  assert (H1 : 1 <= H - 1 <= 2 ^ 53) by lia.
  assert (FH : fin_units ((H - 1) * U)) by (apply fin_units_int; lia).
  pose proof U_pos as UP.
  unfold row_color. split; [|split].
  - rewrite !float_of_int_fint by lia. unfold bind at 1 2.
    unfold truediv. rewrite fint_nonzero by exact H1. unfold bind at 1.
    assert (D : div (fint 0) (fint (H - 1)) = zero).
    { rewrite fint_0, <- funits_0. unfold fint.
      apply div_funits; [exact F0_units|exact FH|nia|apply ongrid_0|ring]. }
    rewrite D, !channel_first by lia. reflexivity.
  - rewrite !float_of_int_fint by lia. unfold bind at 1 2.
    unfold truediv. rewrite fint_nonzero by exact H1. unfold bind at 1.
    assert (D : div (fint (H - 1)) (fint (H - 1)) = fint 1).
    { unfold fint. apply div_funits;
        [exact FH|exact FH|nia|apply ongrid_int; lia|ring]. }
    rewrite D, !channel_last by lia. reflexivity.
  - vm_compute. reflexivity.
Qed.

Lemma gradient_endpoints_witness :
  row_color 1280 0 (30, 200, 190) (12, 20, 40) = Ok (30, 200, 190) /\
  row_color 1280 1279 (30, 200, 190) (12, 20, 40) = Ok (12, 20, 40).
Proof.
  assert (E53 : 2 ^ 53 = 9007199254740992) by reflexivity.
  destruct (gradient_endpoints 1280 30 200 190 12 20 40)
    as (A & B & _); try lia.
  split; [exact A|exact B].
Defined.

End HomeGradient.

Section FallbackEstimators.

(** X17: the estimators that main.py defines when estimator.py cannot be
    imported return, for all arguments, what those of estimator.py
    return. *)
Theorem fallback_estimators_agree (area a b : float) (n : Z) (c d : float) :
  Fallback.paint_estimate area a n b c = paint_estimate_with area a n b c /\
  Fallback.tiles_estimate area a b = tiles_estimate_with area a b /\
  Fallback.plumbing_estimate n a b = plumbing_estimate_with n a b /\
  Fallback.generic_labour area a = generic_labour_with area a.
Proof. repeat split. Qed.

End FallbackEstimators.
